(** * Hierarchical transform stack, pose generator and prop placer

    A shallow embedding of the humanoid renderer's JavaScript sources
    (fencing.js, the volleyball spike it is bundled with, the barbell
    lift and the running gait) together with the properties its design
    document states about them.

    Conventions of the embedding.
    - A JavaScript number is an IEEE-754 binary64 value: Rocq's primitive
      [float], whose [+ - * / sqrt] and comparisons are the same correctly
      rounded operations.  [Math.floor], [Math.fround], [%], [Math.min] and
      [Math.max] are written out on the exact integer/exponent decomposition
      of a float.  [Math.sin], [Math.cos], [Math.acos] and, outside the
      cases ECMAScript fixes, [Math.hypot] are left to the host
      ([MathHost]): ECMAScript only asks them to be approximations.
    - The code that interpolates poses and folds elapsed time is written
      once over the interface [JSNum] and read twice: over [float] (what the
      browser computes) and over [Q] (the same constants without rounding).
    - A [Float32Array] matrix is an object of a heap; the matrix stack holds
      references, so that copies and aliases are what they are in the code.
    - gl-matrix's [mat4.translate/rotate/scale] are an interface
      ([GlMatrix]); its [vec3] helpers are written out. *)

From stdpp Require Import base list strings.
From Stdlib Require Import Floats ZArith QArith Qround Lqa Lia.
From Stdlib Require Uint63.

Close Scope Q_scope.
Set Warnings "-inexact-float".
Set Default Proof Using "Type".

(* ================================================================== *)
(** * Part I. The embedding                                            *)
(* ================================================================== *)

(** ** JavaScript numbers *)

Module Number.
Local Open Scope float_scope.

(** The Number with the integer value [z] (exact below 2^53). *)
Definition of_Z (z : Z) : float :=
  SF2Prim (binary_normalize prec emax z 0 false).

(** [Math.PI], the double 0x1.921fb54442d18p+1. *)
Definition Math_PI : float := 3.141592653589793.

(** The signed mantissa of a finite non-zero float. *)
Definition signed (s : bool) (m : positive) : Z :=
  if s then Z.neg m else Z.pos m.

(** [Math.floor x]: the greatest integral Number not above [x]; NaN, the
    infinities and the zeros are returned as they are. *)
Definition Math_floor (x : float) : float :=
  match Prim2SF x with
  | S754_finite s m e =>
      let z := if (0 <=? e)%Z then (signed s m * 2 ^ e)%Z
               else (signed s m / 2 ^ (- e))%Z in
      SF2Prim (binary_normalize prec emax z 0 s)
  | _ => x
  end.

(** [Math.fround x], the value a [Float32Array] keeps of [x]: rounding to
    the nearest binary32 value, ties to even. *)
Definition Math_fround (x : float) : float :=
  match Prim2SF x with
  | S754_finite s m e => SF2Prim (binary_round 24 128 s m e)
  | _ => x
  end.

(** [x % y]: the remainder of the truncating division, computed exactly,
    with the sign of the dividend. *)
Definition rem (x y : float) : float :=
  match Prim2SF x, Prim2SF y with
  | S754_nan, _ | _, S754_nan => nan
  | S754_infinity _, _ | _, S754_zero _ => nan
  | S754_zero _, _ | _, S754_infinity _ => x
  | S754_finite sx mx ex, S754_finite sy my ey =>
      let e := Z.min ex ey in
      let r := Z.rem (signed sx mx * 2 ^ (ex - e)) (Z.pos my * 2 ^ (ey - e)) in
      SF2Prim (binary_normalize prec emax r e sx)
  end.

(** [Math.max] and [Math.min] of two arguments: NaN if either is NaN, and
    -0 below +0. *)
Definition Math_max (x y : float) : float :=
  if is_nan x || is_nan y then nan
  else if x <? y then y
  else if y <? x then x
  else if get_sign x then y else x.

Definition Math_min (x y : float) : float :=
  if is_nan x || is_nan y then nan
  else if x <? y then x
  else if y <? x then y
  else if get_sign x then x else y.

(** [v || d] on a property that may be missing: [undefined], NaN and the
    zeros are falsy. *)
Definition or_else (v : option float) (d : float) : float :=
  match v with
  | None => d
  | Some x => if is_nan x || is_zero x then d else x
  end.

End Number.

(** The functions ECMAScript leaves to the host as implementation-
    approximated: the trigonometric ones, and the root of the sum of three
    squares behind [Math.hypot]. *)
Class MathHost : Type := {
  Math_sin : float -> float;
  Math_cos : float -> float;
  Math_acos : float -> float;
  hypot_host : float -> float -> float -> float
}.

(** [Math.hypot x y z].  ECMAScript fixes the special cases: an infinite
    argument gives +Infinity, otherwise a NaN argument gives NaN, otherwise
    zeros only give +0.  When two arguments are zero the root of the sum
    of squares is the magnitude of the third, itself a Number, and that is
    the result.  Everywhere else the result is the host's approximation
    [hypot_host], of which nothing is assumed here. *)
Definition Math_hypot `{MathHost} (x y z : float) : float :=
  if is_infinity x || is_infinity y || is_infinity z then infinity
  else if is_nan x || is_nan y || is_nan z then nan
  else if is_zero y && is_zero z then abs x
  else if is_zero x && is_zero z then abs y
  else if is_zero x && is_zero y then abs z
  else hypot_host x y z.

(** ** Arithmetic as the pose code uses it

    The operations of a JavaScript number that [deg], [lerp],
    [interpolatePose] and the render loop's time folding apply. *)

Class JSNum (N : Type) : Type := {
  num_of_Z : Z -> N;
  num_add : N -> N -> N;
  num_sub : N -> N -> N;
  num_mul : N -> N -> N;
  num_div : N -> N -> N;
  num_lt : N -> N -> bool;       (* a < b *)
  num_seq : N -> N -> bool;      (* a === b *)
  num_floor : N -> N;            (* Math.floor *)
  num_rem : N -> N -> N;         (* a % b *)
  num_min : N -> N -> N;         (* Math.min *)
  num_PI : N;                    (* Math.PI *)
  num_undefined : N              (* a missing property read as a number *)
}.

Declare Scope num_scope.
Delimit Scope num_scope with num.
Infix "+" := num_add : num_scope.
Infix "-" := num_sub : num_scope.
Infix "*" := num_mul : num_scope.
Infix "/" := num_div : num_scope.

(** binary64: what the browser computes. *)
#[export] Instance float_JSNum : JSNum float := {
  num_of_Z := Number.of_Z;
  num_add := PrimFloat.add;
  num_sub := PrimFloat.sub;
  num_mul := PrimFloat.mul;
  num_div := PrimFloat.div;
  num_lt := PrimFloat.ltb;
  num_seq := PrimFloat.eqb;
  num_floor := Number.Math_floor;
  num_rem := Number.rem;
  num_min := Number.Math_min;
  num_PI := Number.Math_PI;
  num_undefined := nan
}.

(** Exact rationals: the same program on the same constants with no
    rounding.  [Math.PI] keeps the value of the double; no property is ever
    missing, so [num_undefined] is never read. *)
Definition Q_rem (a b : Q) : Q :=
  let q := (a / b)%Q in
  let k := if Qle_bool 0 q then Qfloor q else Qceiling q in
  (a - b * inject_Z k)%Q.

Definition Q_PI : Q := 884279719003555 # 281474976710656.

#[export] Instance Q_JSNum : JSNum Q := {
  num_of_Z := inject_Z;
  num_add := Qplus;
  num_sub := Qminus;
  num_mul := Qmult;
  num_div := Qdiv;
  num_lt := fun a b => negb (Qle_bool b a);
  num_seq := Qeq_bool;
  num_floor := fun a => inject_Z (Qfloor a);
  num_rem := Q_rem;
  num_min := fun a b => if Qle_bool a b then a else b;
  num_PI := Q_PI;
  num_undefined := 0%Q
}.

(** ** JavaScript objects with number-valued properties

    Own string-keyed properties in insertion order, which is the order
    [for ... in] visits them. *)

Section Objects.
Context {N : Type}.

Definition obj : Type := list (string * N).

Fixpoint obj_get (k : string) (o : obj) : option N :=
  match o with
  | [] => None
  | (k', v) :: r => if String.eqb k k' then Some v else obj_get k r
  end.

Fixpoint obj_set (k : string) (v : N) (o : obj) : obj :=
  match o with
  | [] => [(k, v)]
  | (k', v') :: r =>
      if String.eqb k k' then (k', v) :: r else (k', v') :: obj_set k v r
  end.

Definition obj_keys (o : obj) : list string := map fst o.

End Objects.
Arguments obj : clear implicits.

(** ** gl-matrix values

    Arrays of numbers: a [vec3] or a [mat4] of gl-matrix is a
    [Float32Array], an array literal is a plain array. *)

Abbreviation array := (list float).

(** [a[i]] read as a number; a missing element is [undefined], NaN. *)
Definition idx (a : array) (i : nat) : float := nth i a nan.

(** [mat4.create()]: the identity, column-major. *)
Definition mat4_identity_value : array :=
  [1; 0; 0; 0;  0; 1; 0; 0;  0; 0; 1; 0;  0; 0; 0; 1]%float.

(** What [mat4.translate(out, a, v)], [mat4.rotate(out, a, rad, axis)] and
    [mat4.scale(out, a, v)] leave in [out], given the content of [a]
    (gl-matrix allows [out] and [a] to be one object, and leaves [out]
    as it was when [rotate] declines a degenerate axis). *)
Class GlMatrix : Type := {
  translated : array -> array -> array;
  rotated : array -> float -> array -> array;
  scaled : array -> array -> array
}.

(** ** The heap, the matrix stack and what is drawn *)

(** A draw call with the model matrix it was issued under, or a console
    warning. *)
Inductive event : Type :=
| Draw (vao : string) (model : array)
| Warn (msg : string).

(** [class MatrixStack]: [stack] holds references to the saved matrices,
    oldest first; [current] refers to the matrix being mutated. *)
Record MatrixStack : Type := {
  stack : list nat;
  current : nat
}.

(** The heap of [Float32Array] matrices (a reference is an index, a new
    object takes the next one), the one matrix stack of the page, and the
    calls issued so far. *)
Record world : Type := {
  heap : list array;
  stk : MatrixStack;
  gl : list event
}.

Inductive result (A : Type) : Type :=
| Ok (a : A) (w : world)
| Throw (error : string).
Arguments Ok {A} a w.
Arguments Throw {A} error.

(** Code that reads and writes the world and may throw. *)
Definition M (A : Type) : Type := world -> result A.

#[export] Instance M_ret : MRet M := fun A a w => Ok a w.
#[export] Instance M_bind : MBind M := fun A B f m w =>
  match m w with
  | Ok a w' => f a w'
  | Throw e => Throw e
  end.

Definition throw {A : Type} (e : string) : M A := fun _ => Throw e.

Definition deref (w : world) (r : nat) : array := default [] (heap w !! r).

Definition alloc (m : array) : M nat := fun w =>
  Ok (length (heap w)) {| heap := heap w ++ [m]; stk := stk w; gl := gl w |}.

Definition read (r : nat) : M array := fun w => Ok (deref w r) w.

Definition write (r : nat) (m : array) : M unit := fun w =>
  Ok tt {| heap := <[r := m]> (heap w); stk := stk w; gl := gl w |}.

Definition emit (e : event) : M unit := fun w =>
  Ok tt {| heap := heap w; stk := stk w; gl := gl w ++ [e] |}.

(** [Array.prototype.pop]: the last element, removed. *)
Definition array_pop {A : Type} (l : list A) : option A * list A :=
  match rev l with
  | [] => (None, [])
  | x :: r => (Some x, rev r)
  end.

Section MatrixStackClass.
Context `{GlMatrix}.

(** The operands [stk.stack], [stk.current] and their assignments. *)
Definition this_stack : M (list nat) := fun w => Ok (stack (stk w)) w.
Definition this_current : M nat := fun w => Ok (current (stk w)) w.

Definition set_this_stack (s : list nat) : M unit := fun w =>
  Ok tt {| heap := heap w;
           stk := {| stack := s; current := current (stk w) |};
           gl := gl w |}.

Definition set_this_current (c : nat) : M unit := fun w =>
  Ok tt {| heap := heap w;
           stk := {| stack := stack (stk w); current := c |};
           gl := gl w |}.

(** gl-matrix's [mat4] functions on heap objects; the operands are
    evaluated first, as [stack.current] is at each call. *)
Definition mat4_create : M nat := alloc mat4_identity_value.

Definition mat4_clone (a : M nat) : M nat :=
  r ← a; m ← read r; alloc m.

Definition mat4_identity (out : M nat) : M unit :=
  o ← out; write o mat4_identity_value.

Definition mat4_translate (out a : M nat) (v : array) : M unit :=
  o ← out; r ← a; m ← read r; write o (translated m v).

Definition mat4_rotate (out a : M nat) (rad : float) (axis : array) : M unit :=
  o ← out; r ← a; m ← read r; write o (rotated m rad axis).

Definition mat4_scale (out a : M nat) (v : array) : M unit :=
  o ← out; r ← a; m ← read r; write o (scaled m v).

(** [new MatrixStack()], as it leaves an empty page. *)
Definition MatrixStack_new : world :=
  {| heap := [mat4_identity_value];
     stk := {| stack := []; current := 0 |};
     gl := [] |}.

(** [push() { this.stack.push(mat4.clone(this.current)); }] *)
Definition push : M unit :=
  n ← mat4_clone this_current; s ← this_stack; set_this_stack (s ++ [n]).

(** [pop() { if (this.stack.length === 0) throw new Error("Stack underflow");
              this.current = this.stack.pop(); }] *)
Definition pop : M unit :=
  s ← this_stack;
  if Nat.eqb (length s) 0 then throw "Stack underflow"
  else match array_pop s with
       | (Some top, s') => set_this_stack s';; set_this_current top
       | (None, s') => set_this_stack s'
       end.

Definition loadIdentity : M unit := mat4_identity this_current.

Definition translate (v : array) : M unit :=
  mat4_translate this_current this_current v.

Definition rotate (rad : float) (axis : array) : M unit :=
  mat4_rotate this_current this_current rad axis.

Definition scale (v : array) : M unit :=
  mat4_scale this_current this_current v.

Definition getCurrentMatrix : M nat := this_current.

(** [stk.stack.length] *)
Definition this_stack_length : M nat := s ← this_stack; mret (length s).

(** The content of [mat4.clone(stk.getCurrentMatrix())]: a new object of
    the heap holding a copy of the current matrix. *)
Definition clone_current : M array := r ← mat4_clone getCurrentMatrix; read r.

(** [drawGeometry(stack, geometry)] / [drawVAO(vao)]: the model matrix is
    read off the stack and the indexed triangles of [vao] are drawn. *)
Definition drawGeometry (vao : string) : M unit :=
  r ← getCurrentMatrix; m ← read r; emit (Draw vao m).

(** A run of the mutating methods. *)
Inductive call : Type :=
| CallTranslate (v : array)
| CallRotate (rad : float) (axis : array)
| CallScale (v : array)
| CallLoadIdentity.

Definition run_call (c : call) : M unit :=
  match c with
  | CallTranslate v => translate v
  | CallRotate rad axis => rotate rad axis
  | CallScale v => scale v
  | CallLoadIdentity => loadIdentity
  end.

Fixpoint run_calls (cs : list call) : M unit :=
  match cs with
  | [] => mret tt
  | c :: r => run_call c;; run_calls r
  end.

(** The same calls on a matrix value. *)
Definition call_value (c : call) (m : array) : array :=
  match c with
  | CallTranslate v => translated m v
  | CallRotate rad axis => rotated m rad axis
  | CallScale v => scaled m v
  | CallLoadIdentity => mat4_identity_value
  end.

Definition calls_value (cs : list call) (m : array) : array :=
  fold_left (fun m c => call_value c m) cs m.

End MatrixStackClass.

(** What the stack denotes: the saved matrices, oldest first, and the
    current one. *)
Definition saved (w : world) : list array := map (deref w) (stack (stk w)).
Definition current_matrix (w : world) : array := deref w (current (stk w)).
Definition depth (w : world) : nat := length (stack (stk w)).

(** No two references of the stack are one object, and each refers to an
    object of the heap. *)
Definition wf (w : world) : Prop :=
  NoDup (current (stk w) :: stack (stk w)) /\
  Forall (fun r => r < length (heap w)) (current (stk w) :: stack (stk w)).

(** [Array.prototype.forEach] with a callback that draws. *)
Fixpoint forEach {A : Type} (l : list A) (f : A -> M unit) : M unit :=
  match l with
  | [] => mret tt
  | x :: r => f x;; forEach r f
  end.

(** ** fencing.js: the fencer *)

Module Fencing.
Section Drawer.
Context `{GlMatrix}.
Local Open Scope float_scope.

Definition SWORD_LENGTH : float := 1.5.
Definition SWORD_RADIUS : float := 0.02.
Definition HAND_RADIUS : float := 0.12.

Definition drawSphere : M unit := drawGeometry "sphereVAO".
Definition drawCylinder : M unit := drawGeometry "cylinderVAO".
Definition drawCube : M unit := drawGeometry "cubeVAO".

Definition drawBody : M unit :=
  push;;
  mat4_scale this_current this_current [0.5; 1.5; 0.25];;
  drawCylinder;;
  pop.

Definition drawHead (headTilt : float) : M unit :=
  push;;
  mat4_translate this_current this_current [0; 1.1; 0];;
  mat4_rotate this_current this_current headTilt [1; 0; 0];;
  drawSphere;;
  pop.

Definition drawArm (side : string) (shoulderAngle elbowAngle : float)
  : M unit :=
  let sign := if String.eqb side "left" then -1 else 1 in
  let shoulderYOffset := 0.5 in
  let shoulderXOffset := 0.3 in
  let shoulderZOffset := 0.3 in
  let upperArmLength := 0.6 in
  let lowerArmLength := 0.6 in
  let jointSize := 0.1 in
  push;;
  mat4_translate this_current this_current
    [sign * shoulderXOffset; shoulderYOffset; sign * shoulderZOffset];;
  mat4_rotate this_current this_current shoulderAngle [0; 0; 1];;
  (* shoulder joint *)
  push;;
  mat4_scale this_current this_current [0.2; 0.2; 0.2];;
  drawSphere;;
  pop;;
  (* upper arm *)
  push;;
  mat4_translate this_current this_current
    [0; - (jointSize + upperArmLength / 2); 0];;
  mat4_scale this_current this_current [0.15; upperArmLength; 0.15];;
  drawCylinder;;
  pop;;
  (* to the elbow *)
  mat4_translate this_current this_current
    [0; - (jointSize + upperArmLength + jointSize); 0];;
  mat4_rotate this_current this_current elbowAngle [0; 0; 1];;
  push;;
  mat4_scale this_current this_current [0.18; 0.18; 0.18];;
  drawSphere;;
  pop;;
  (* lower arm *)
  push;;
  mat4_translate this_current this_current
    [0; - (jointSize + lowerArmLength / 2); 0];;
  (if String.eqb side "right" then
     (* the hand and the sword *)
     push;;
     mat4_translate this_current this_current
       [0; - (lowerArmLength / 2 + jointSize); 0];;
     push;;
     mat4_scale this_current this_current
       [HAND_RADIUS; HAND_RADIUS; HAND_RADIUS];;
     drawSphere;;
     pop;;
     mat4_translate this_current this_current
       [0; - (jointSize + lowerArmLength); 0];;
     drawGeometry "swordVAO";;
     pop
   else mret tt);;
  mat4_scale this_current this_current [0.12; lowerArmLength; 0.12];;
  drawCylinder;;
  pop;;
  pop.

Definition drawLeg (side : string) (hipAngle kneeAngle : float) : M unit :=
  let sign := if String.eqb side "left" then -1 else 1 in
  let hipYOffset := -0.75 in
  let hipXOffset := 0.2 in
  let hipZOffset := 0.25 in
  let upperLegLength := 0.8 in
  let lowerLegLength := 0.7 in
  let jointSize := 0.125 in
  push;;
  mat4_translate this_current this_current
    [sign * hipXOffset; hipYOffset; sign * hipZOffset];;
  mat4_rotate this_current this_current hipAngle [0; 0; 1];;
  (* hip joint *)
  push;;
  mat4_scale this_current this_current [0.25; 0.25; 0.25];;
  drawSphere;;
  pop;;
  (* upper leg *)
  push;;
  mat4_translate this_current this_current
    [0; - (jointSize + upperLegLength / 2); 0];;
  mat4_scale this_current this_current [0.18; upperLegLength; 0.18];;
  drawCylinder;;
  pop;;
  (* to the knee *)
  mat4_translate this_current this_current
    [0; - (jointSize + upperLegLength + jointSize); 0];;
  mat4_rotate this_current this_current kneeAngle [0; 0; 1];;
  push;;
  mat4_scale this_current this_current [0.2; 0.2; 0.2];;
  drawSphere;;
  pop;;
  (* lower leg *)
  push;;
  mat4_translate this_current this_current
    [0; - (jointSize + lowerLegLength / 2); 0];;
  mat4_scale this_current this_current [0.15; lowerLegLength; 0.15];;
  drawCylinder;;
  pop;;
  (* to the ankle *)
  mat4_translate this_current this_current
    [0; - (jointSize + lowerLegLength); 0];;
  push;;
  mat4_scale this_current this_current [0.15; 0.15; 0.15];;
  drawSphere;;
  pop;;
  pop.

(** [drawCharacter(stack, animations = {})]; a missing angle reads as 0
    ([animations.headTilt || 0]). *)
Definition drawCharacter (animations : obj float) : M unit :=
  let angle k := Number.or_else (obj_get k animations) 0 in
  push;;
  drawBody;;
  drawHead (angle "headTilt");;
  drawArm "left" (angle "leftShoulderAngle") (angle "leftElbowAngle");;
  drawArm "right" (angle "rightShoulderAngle") (angle "rightElbowAngle");;
  drawLeg "left" (angle "leftHipAngle") (angle "leftKneeAngle");;
  drawLeg "right" (angle "rightHipAngle") (angle "rightKneeAngle");;
  pop.

End Drawer.
End Fencing.

(** ** fencing.js: the primitive geometry factory *)

(** [for (let k = i; k < i + n; k++) body], threading what the body
    mutates. *)
Fixpoint for_loop {St : Type} (n i : nat) (body : nat -> St -> St) (s : St)
  : St :=
  match n with
  | O => s
  | S n' => for_loop n' (S i) body (body i s)
  end.

Module Geometry.

(** The three plain arrays a generator fills with [push]. *)
Record buffers : Type := {
  vertices : array;
  normals : array;
  indices : list Z
}.

(** [new Float32Array(a)] and [new Uint16Array(a)]. *)
Definition Float32Array (a : array) : array := map Number.Math_fround a.
Definition Uint16Array (a : list Z) : list Z := map (fun i => i mod 65536)%Z a.

(** The typed arrays a generator returns. *)
Definition typed (b : buffers) : buffers :=
  {| vertices := Float32Array (vertices b);
     normals := Float32Array (normals b);
     indices := Uint16Array (indices b) |}.

(** A loop counter as a Number. *)
Definition num (k : nat) : float := Number.of_Z (Z.of_nat k).

Section Factory.
Context `{MathHost}.
Local Open Scope float_scope.
Import Number.

Definition createSphere (radius : float) (latBands longBands : nat)
  : buffers :=
  let filled :=
    for_loop (S latBands) 0 (fun lat b =>
      let theta := (num lat * Math_PI) / num latBands in
      let sinTheta := Math_sin theta in
      let cosTheta := Math_cos theta in
      for_loop (S longBands) 0 (fun lon b =>
        let phi := (num lon * 2 * Math_PI) / num longBands in
        let sinPhi := Math_sin phi in
        let cosPhi := Math_cos phi in
        let x := cosPhi * sinTheta in
        let y := cosTheta in
        let z := sinPhi * sinTheta in
        {| vertices := vertices b ++ [radius * x] ++ [radius * y] ++ [radius * z];
           normals := normals b ++ [x] ++ [y] ++ [z];
           indices := indices b |}) b)
      {| vertices := []; normals := []; indices := [] |} in
  let indexed :=
    for_loop latBands 0 (fun lat b =>
      for_loop longBands 0 (fun lon b =>
        let first := (Z.of_nat lat * (Z.of_nat longBands + 1) + Z.of_nat lon)%Z in
        let second := (first + Z.of_nat longBands + 1)%Z in
        {| vertices := vertices b;
           normals := normals b;
           indices := indices b ++ [first] ++ [second] ++ [first + 1]%Z
                        ++ [second] ++ [second + 1]%Z ++ [first + 1]%Z |}) b)
      filled in
  typed indexed.

(** One end cap of [createCylinder]: the centre, a ring of
    [radialSegments + 1] vertices and a fan; [top] tells the two apart. *)
Definition cap (top : bool) (radius halfHeight thetaLength : float)
  (radialSegments : nat) (b : buffers) : buffers :=
  let y := if top then halfHeight else - halfHeight in
  let ny := if top then 1 else -1 in
  let capBaseIndex := (Z.of_nat (length (vertices b)) / 3)%Z in
  let b := {| vertices := vertices b ++ [0; y; 0];
              normals := normals b ++ [0; ny; 0];
              indices := indices b |} in
  for_loop (S radialSegments) 0 (fun i b =>
    let theta := (num i * thetaLength) / num radialSegments in
    let x := radius * Math_sin theta in
    let z := radius * Math_cos theta in
    let i' := Z.of_nat i in
    {| vertices := vertices b ++ [x; y; z];
       normals := normals b ++ [0; ny; 0];
       indices :=
         if (0 <? i)%nat then
           if top then
             indices b ++ [capBaseIndex] ++ [capBaseIndex + i']%Z
               ++ [capBaseIndex + i' + 1]%Z
           else
             indices b ++ [capBaseIndex] ++ [capBaseIndex + i' + 1]%Z
               ++ [capBaseIndex + i']%Z
         else indices b |}) b.

Definition createCylinder (radiusTop radiusBottom height : float)
  (radialSegments heightSegments : nat) (openEnded : bool) : buffers :=
  let halfHeight := height / 2 in
  let thetaLength := Math_PI * 2 in
  let filled :=
    for_loop (S heightSegments) 0 (fun y b =>
      let v := num y / num heightSegments in
      let radius := v * (radiusBottom - radiusTop) + radiusTop in
      let yPos := halfHeight - v * height in
      for_loop (S radialSegments) 0 (fun x b =>
        let u := num x / num radialSegments in
        let theta := u * thetaLength in
        let sinTheta := Math_sin theta in
        let cosTheta := Math_cos theta in
        let normalX := sinTheta in
        let normalY := (radiusBottom - radiusTop) / height in
        let normalZ := cosTheta in
        let length :=
          sqrt (normalX * normalX + normalY * normalY + normalZ * normalZ) in
        {| vertices := vertices b ++ [radius * sinTheta] ++ [yPos]
                         ++ [radius * cosTheta];
           normals := normals b ++ [normalX / length] ++ [normalY / length]
                        ++ [normalZ / length];
           indices := indices b |}) b)
      {| vertices := []; normals := []; indices := [] |} in
  let indexed :=
    for_loop heightSegments 0 (fun y b =>
      for_loop radialSegments 0 (fun x b =>
        let vertex1 :=
          (Z.of_nat y * (Z.of_nat radialSegments + 1) + Z.of_nat x)%Z in
        let vertex2 := (vertex1 + Z.of_nat radialSegments + 1)%Z in
        {| vertices := vertices b;
           normals := normals b;
           indices := indices b ++ [vertex1] ++ [vertex2] ++ [vertex1 + 1]%Z
                        ++ [vertex2] ++ [vertex2 + 1]%Z ++ [vertex1 + 1]%Z |}) b)
      filled in
  let capped :=
    if negb openEnded then
      cap false radiusBottom halfHeight thetaLength radialSegments
        (cap true radiusTop halfHeight thetaLength radialSegments indexed)
    else indexed in
  typed capped.

(** The number of vertices of a geometry: three coordinates each. *)
Definition vertex_count (b : buffers) : nat := length (vertices b) / 3.

(** The geometries the fencer is drawn with. *)
Definition sphere : buffers := createSphere 0.5 16 32.
Definition cylinder : buffers := createCylinder 0.5 0.5 1.0 16 1 false.
Definition createSword : buffers :=
  createCylinder Fencing.SWORD_RADIUS Fencing.SWORD_RADIUS
    Fencing.SWORD_LENGTH 12 1 true.

End Factory.
End Geometry.

(** ** The pose generator of the volleyball spike (bundled with fencing.js) *)

(** [o[k]] read as a number. *)
Definition prop {N : Type} `{JSNum N} (o : obj N) (k : string) : N :=
  default num_undefined (obj_get k o).

Module Volleyball.
Section Pose.
Context {N : Type} `{JSNum N}.
Local Open Scope num_scope.
Local Notation "# z" := (num_of_Z z) (at level 1, format "# z").

(** [const deg = (a) => (a * Math.PI) / 180] *)
Definition deg (a : N) : N := (a * num_PI) / #180.

Definition startPose : obj N :=
  [ ("BODY_LEAN_X", deg #0); ("BODY_LEAN_Y", deg #0);
    ("BODY_LEAN_Z", deg #30); ("HEAD_TILT", deg #(-15));
    ("LEFT_SHOULDER", deg #100); ("RIGHT_SHOULDER", deg #(-80));
    ("LEFT_ELBOW", deg #15); ("RIGHT_ELBOW", deg #(-125));
    ("LEFT_HIP", deg #(-60)); ("RIGHT_HIP", deg #(-30));
    ("LEFT_KNEE", deg #(-70)); ("RIGHT_KNEE", deg #(-30)) ].

Definition endPose : obj N :=
  [ ("BODY_LEAN_X", deg #0); ("BODY_LEAN_Y", deg #0);
    ("BODY_LEAN_Z", deg #(-20)); ("HEAD_TILT", deg #(-15));
    ("LEFT_SHOULDER", deg #0); ("RIGHT_SHOULDER", deg #(-310));
    ("LEFT_ELBOW", deg #70); ("RIGHT_ELBOW", deg #0);
    ("LEFT_HIP", deg #60); ("RIGHT_HIP", deg #60);
    ("LEFT_KNEE", deg #(-10)); ("RIGHT_KNEE", deg #(-70)) ].

(** [-0.3] and [0.3]: the literal is the quotient 3/10, rounded once. *)
Definition SX_START : N := #(-3) / #10.
Definition SX_END : N := #3 / #10.
Definition SHOULDER_LIMIT : N := deg #(-160).

(** [const lerp = (a, b, t) => a + (b - a) * t] *)
Definition lerp (a b t : N) : N := a + (b - a) * t.

(** [for (const k in startPose) p[k] = lerp(startPose[k], endPose[k], t)] *)
Definition blend (t : N) : obj N :=
  fold_left
    (fun p k => obj_set k (lerp (prop startPose k) (prop endPose k) t) p)
    (obj_keys startPose) [].

Definition interpolatePose (t : N) : obj N :=
  let p := blend t in
  let sh := prop p "RIGHT_SHOULDER" in
  if num_lt SHOULDER_LIMIT sh then        (* sh > SHOULDER_LIMIT *)
    let k := (sh - prop startPose "RIGHT_SHOULDER")
             / (SHOULDER_LIMIT - prop startPose "RIGHT_SHOULDER") in
    let p := obj_set "RIGHT_ELBOW" (lerp (prop startPose "RIGHT_ELBOW") #0 k) p in
    obj_set "RIGHT_ARM_SX" (lerp SX_START SX_END k) p
  else
    let p := obj_set "RIGHT_ELBOW" #0 p in
    obj_set "RIGHT_ARM_SX" SX_END p.

Definition DURATION : N := #1000.
Definition LOOP : bool := true.

(** The normalized parameter [render(now)] derives from the elapsed time
    [now - startTime]. *)
Definition render_t (elapsed : N) : N :=
  let t := elapsed / DURATION in
  if LOOP then
    let cycle := num_floor t in
    let t := t - cycle in
    if num_seq (num_rem cycle #2) #1 then #1 - t else t
  else num_min t #1.


End Pose.
End Volleyball.

(** ** The running gait (the runner's [render]) *)

Module Running.
Section Gait.
Context `{MathHost}.
Local Open Scope float_scope.
Import Number.

(** The pose [render(time)] hands to [drawCharacter]. *)
Definition render_animations (time : float) : obj float :=
  let time := time * 0.001 in
  let runSpeed := 10 in
  let t := time * runSpeed in
  let armSwing := Math_PI / 2.5 in
  let backLegMaxAngle := Math_PI / 12 in
  let frontLegMaxAngle := Math_PI / 2 in
  let leftLegPhase := Math_sin (t + Math_PI) in
  let leftLegAngle :=
    if leftLegPhase <? 0 then leftLegPhase * backLegMaxAngle
    else leftLegPhase * frontLegMaxAngle in
  let rightLegPhase := Math_sin t in
  let rightLegAngle :=
    if rightLegPhase <? 0 then rightLegPhase * backLegMaxAngle
    else rightLegPhase * frontLegMaxAngle in
  let shoulderSwingAngle := Math_PI / 2.5 in
  let shoulderLiftAngle := Math_PI / 6 in
  let leftArmAngle :=
    Math_sin t * shoulderSwingAngle
    + (if 0 <? Math_sin t then shoulderLiftAngle else 0) in
  let rightArmAngle :=
    Math_sin (t + Math_PI) * shoulderSwingAngle
    + (if 0 <? Math_sin (t + Math_PI) then shoulderLiftAngle else 0) in
  let maxElbowBend := Math_PI / 2 in
  let backElbowExtend := - Math_PI / 4 in
  let leftElbowAngle :=
    if 0 <? Math_sin t then Math_sin t * maxElbowBend
    else Math_sin t * backElbowExtend in
  let rightElbowAngle :=
    if 0 <? Math_sin (t + Math_PI) then Math_sin (t + Math_PI) * maxElbowBend
    else Math_sin (t + Math_PI) * backElbowExtend in
  let leftKneeAngle :=
    if 0 <? leftLegPhase then - (leftLegAngle + Math_PI / 4) else 0 in
  let rightKneeAngle :=
    if 0 <? rightLegPhase then - (rightLegAngle + Math_PI / 4) else 0 in
  let headTilt := Math_PI / 12 in
  [ ("leftShoulderAngle", leftArmAngle);
    ("rightShoulderAngle", rightArmAngle);
    ("leftElbowAngle", leftElbowAngle);
    ("rightElbowAngle", rightElbowAngle);
    ("leftHipAngle", leftLegAngle);
    ("rightHipAngle", rightLegAngle);
    ("leftKneeAngle", leftKneeAngle);
    ("rightKneeAngle", rightKneeAngle);
    ("headTilt", headTilt) ].

(** The sine phase of each leg at [time]. *)
Definition leftLegPhase (time : float) : float :=
  Math_sin (time * 0.001 * 10 + Math_PI).
Definition rightLegPhase (time : float) : float :=
  Math_sin (time * 0.001 * 10).

End Gait.
End Running.

(** ** gl-matrix [vec3]

    Each function returns what it stores in [out]; a [vec3] is a
    [Float32Array], so every stored component is rounded by
    [Math.fround]. *)

Module vec3.
Local Open Scope float_scope.
Import Number.

Definition create : array := [0; 0; 0].

Definition fromValues (x y z : float) : array :=
  [Math_fround x; Math_fround y; Math_fround z].

Definition subtract (a b : array) : array :=
  [Math_fround (idx a 0 - idx b 0);
   Math_fround (idx a 1 - idx b 1);
   Math_fround (idx a 2 - idx b 2)].

Definition add (a b : array) : array :=
  [Math_fround (idx a 0 + idx b 0);
   Math_fround (idx a 1 + idx b 1);
   Math_fround (idx a 2 + idx b 2)].

Definition scale (a : array) (b : float) : array :=
  [Math_fround (idx a 0 * b);
   Math_fround (idx a 1 * b);
   Math_fround (idx a 2 * b)].

Definition length `{MathHost} (a : array) : float :=
  Math_hypot (idx a 0) (idx a 1) (idx a 2).

Definition dot (a b : array) : float :=
  idx a 0 * idx b 0 + idx a 1 * idx b 1 + idx a 2 * idx b 2.

Definition cross (a b : array) : array :=
  let ax := idx a 0 in let ay := idx a 1 in let az := idx a 2 in
  let bx := idx b 0 in let by' := idx b 1 in let bz := idx b 2 in
  [Math_fround (ay * bz - az * by');
   Math_fround (az * bx - ax * bz);
   Math_fround (ax * by' - ay * bx)].

End vec3.

(** ** The barbell lift: pose, body parts and the derived prop *)

Module Barbell.

Section Pose.
Context {N : Type} `{JSNum N}.
Local Open Scope num_scope.
Local Notation "# z" := (num_of_Z z) (at level 1, format "# z").

Definition deg (a : N) : N := (a * num_PI) / #180.

Definition endPose : obj N :=
  [ ("BODY_LEAN_X", deg #0); ("BODY_LEAN_Y", deg #0);
    ("BODY_LEAN_Z", deg #0); ("HEAD_TILT", deg #(-15));
    ("LEFT_SHOULDER", deg #180); ("RIGHT_SHOULDER", deg #180);
    ("LEFT_ELBOW", deg #0); ("RIGHT_ELBOW", deg #0);
    ("LEFT_HIP", deg #(-40)); ("RIGHT_HIP", deg #50);
    ("LEFT_KNEE", deg #(-10)); ("RIGHT_KNEE", deg #(-55)) ].

Definition startPose : obj N :=
  [ ("BODY_LEAN_X", deg #0); ("BODY_LEAN_Y", deg #0);
    ("BODY_LEAN_Z", deg #0); ("HEAD_TILT", deg #(-15));
    ("LEFT_SHOULDER", deg #20); ("RIGHT_SHOULDER", deg #20);
    ("LEFT_ELBOW", deg #140); ("RIGHT_ELBOW", deg #140);
    ("LEFT_HIP", deg #0); ("RIGHT_HIP", deg #0);
    ("LEFT_KNEE", deg #0); ("RIGHT_KNEE", deg #0) ].

Definition ARM_SX_START : N := #2 / #10.
Definition ARM_SX_END : N := #(-2) / #10.
Definition LEG_SX_START : N := #0.
Definition LEG_SX_END : N := #2 / #10.

Definition lerp (a b t : N) : N := a + (b - a) * t.

Definition interpolatePose (t : N) : obj N :=
  let p :=
    fold_left
      (fun p k => obj_set k (lerp (prop startPose k) (prop endPose k) t) p)
      (obj_keys startPose) [] in
  let p := obj_set "RIGHT_ELBOW"
             (lerp (prop startPose "RIGHT_ELBOW") (prop endPose "RIGHT_ELBOW") t) p in
  let p := obj_set "LEFT_ELBOW"
             (lerp (prop startPose "LEFT_ELBOW") (prop endPose "LEFT_ELBOW") t) p in
  let p := obj_set "RIGHT_ARM_SX" (lerp ARM_SX_START ARM_SX_END t) p in
  obj_set "RIGHT_HIP_SX" (lerp LEG_SX_START LEG_SX_END t) p.

End Pose.

(** The placement [drawBarbell(L, R)] derives from the two hand matrices
    before it touches the stack (its steps 1 to 4). *)
Record frame : Type := {
  mid : array;        (* centre of the bar *)
  len : float;        (* distance between the hands *)
  dir : array;        (* unit direction, left hand to right hand *)
  axis : array;       (* cross(up, dir), not yet normalized *)
  axisLen : float
}.

Section Drawer.
Context `{GlMatrix} `{MathHost}.
Local Open Scope float_scope.
Import Number.

Definition drawSphere : M unit := drawGeometry "sphereVAO".
Definition drawCylinder : M unit := drawGeometry "cylVAO".
Definition drawBar : M unit := drawGeometry "barVAO".
Definition drawPlate : M unit := drawGeometry "plateVAO".

Definition body : M unit :=
  push;;
  mat4_scale this_current this_current [0.5; 1.5; 0.25];;
  drawCylinder;;
  pop.

Definition head (tilt : float) : M unit :=
  push;;
  mat4_translate this_current this_current [0; 1.1; 0];;
  mat4_rotate this_current this_current tilt [1; 0; 0];;
  drawSphere;;
  pop.

(** [arm] returns [handModel], the clone of the hand's world matrix taken
    inside the deepest scope.  Nothing writes to that clone afterwards, so
    its content is what travels on. *)
Definition arm (side : string) (shoulder elbow customSX : float) : M array :=
  let sg := if String.eqb side "left" then -1 else 1 in
  let sY := 0.5 in
  let sX := customSX in
  let sZ := 0.5 in
  let upper := 0.6 in
  let lower := 0.6 in
  let j := 0.1 in
  push;;
  mat4_translate this_current this_current [sX; sY; sg * sZ];;
  mat4_rotate this_current this_current shoulder [0; 0; 1];;
  (* shoulder sphere *)
  push;;
  mat4_scale this_current this_current [0.2; 0.2; 0.2];;
  drawSphere;;
  pop;;
  (* upper arm *)
  push;;
  mat4_translate this_current this_current [0; - (j + upper / 2); 0];;
  mat4_scale this_current this_current [0.15; upper; 0.15];;
  drawCylinder;;
  pop;;
  (* elbow joint *)
  mat4_translate this_current this_current [0; - (j + upper + j); 0];;
  mat4_rotate this_current this_current elbow [0; 0; 1];;
  push;;
  mat4_scale this_current this_current [0.18; 0.18; 0.18];;
  drawSphere;;
  pop;;
  (* lower arm *)
  push;;
  mat4_translate this_current this_current [0; - (j + lower / 2); 0];;
  mat4_scale this_current this_current [0.12; lower; 0.12];;
  drawCylinder;;
  pop;;
  (* hand *)
  push;;
  mat4_translate this_current this_current [0; - (j + lower + j * 0.8); 0];;
  mat4_scale this_current this_current [0.15; 0.15; 0.15];;
  drawSphere;;
  handModel ← clone_current;
  pop;;
  pop;;
  mret handModel.

(** [function leg(side, hip, knee, customSX = 0)]: the default stands in
    for an argument that is [undefined]. *)
Definition leg (side : string) (hip knee : float)
  (customSX : option float) : M unit :=
  let customSX := default 0 customSX in
  let sg := if String.eqb side "left" then -1 else 1 in
  let hY := -0.75 in
  let hX := customSX in
  let hZ := 0.25 in
  let upper := 0.8 in
  let lower := 0.7 in
  let j := 0.125 in
  push;;
  mat4_translate this_current this_current [hX; hY; sg * hZ];;
  mat4_rotate this_current this_current hip [0; 0; 1];;
  push;;
  mat4_scale this_current this_current [0.25; 0.25; 0.25];;
  drawSphere;;
  pop;;
  push;;
  mat4_translate this_current this_current [0; - (j + upper / 2); 0];;
  mat4_scale this_current this_current [0.18; upper; 0.18];;
  drawCylinder;;
  pop;;
  mat4_translate this_current this_current [0; - (j + upper + j); 0];;
  mat4_rotate this_current this_current knee [0; 0; 1];;
  push;;
  mat4_scale this_current this_current [0.2; 0.2; 0.2];;
  drawSphere;;
  pop;;
  push;;
  mat4_translate this_current this_current [0; - (j + lower / 2); 0];;
  mat4_scale this_current this_current [0.15; lower; 0.15];;
  drawCylinder;;
  pop;;
  pop.

(** Steps 1 to 4 of [drawBarbell]: hand positions, direction and length,
    midpoint, and the axis that turns +Y towards the direction. *)
Definition up : array := [0; 1; 0].

Definition barbellFrame (L R : array) : frame :=
  let pL := vec3.fromValues (idx L 12) (idx L 13) (idx L 14) in
  let pR := vec3.fromValues (idx R 12) (idx R 13) (idx R 14) in
  let dir := vec3.subtract pR pL in
  let len := vec3.length dir in
  let dir := vec3.scale dir (1 / len) in
  let mid := vec3.add pL pR in
  let mid := vec3.scale mid 0.5 in
  let axis := vec3.cross up dir in
  let axisLen := vec3.length axis in
  {| mid := mid; len := len; dir := dir; axis := axis; axisLen := axisLen |}.

(** The argument of the arccosine: [Math.min(Math.max(dot(up, dir), -1), 1)]. *)
Definition clamped_dot (dir : array) : float :=
  Math_min (Math_max (vec3.dot up dir) (-1)) 1.

Definition drawBarbell (L R : array) : M unit :=
  let f := barbellFrame L R in
  let mid := mid f in
  let len := len f in
  let dir := dir f in
  let axisLen := axisLen f in
  stkTop ← this_stack_length;
  push;;
  mat4_translate this_current this_current mid;;
  (* [axis] is normalized in place when it is long enough *)
  axis ← (if 1e-5 <? axisLen then
            let ang := Math_acos (clamped_dot dir) in
            let axis := vec3.scale (axis f) (1 / axisLen) in
            mat4_rotate this_current this_current ang axis;;
            mret axis
          else if vec3.dot up dir <? 0 then
            mat4_rotate this_current this_current Math_PI [1; 0; 0];;
            mret (axis f)
          else mret (axis f));
  mat4_scale this_current this_current [1; len; 1];;
  drawBar;;
  pop;;
  (* the two plates *)
  let plateOffset := len - 0.05 in
  forEach [1; -1] (fun sign =>
    push;;
    mat4_translate this_current this_current mid;;
    (if 1e-5 <? axisLen then
       let ang := Math_acos (clamped_dot dir) in
       mat4_rotate this_current this_current ang axis
     else if vec3.dot up dir <? 0 then
       mat4_rotate this_current this_current Math_PI [1; 0; 0]
     else mret tt);;
    mat4_translate this_current this_current [0; sign * plateOffset; 0];;
    drawPlate;;
    pop);;
  n ← this_stack_length;
  if negb (Nat.eqb n stkTop)
  then emit (Warn "Matrix stack leak in drawBarbell!")
  else mret tt.

(** [character(p)] returns the two hand matrices.  The left leg is handed
    the number [-p.RIGHT_HIP_SX] (NaN when the pose has no such key), the
    right leg the property itself, so that a missing key takes the default
    of [leg]. *)
Definition character (p : obj float) : M (array * array) :=
  push;;
  body;;
  head (prop p "HEAD_TILT");;
  leftHandM ← arm "left" (prop p "LEFT_SHOULDER") (prop p "LEFT_ELBOW")
                (prop p "RIGHT_ARM_SX");
  rightHandM ← arm "right" (prop p "RIGHT_SHOULDER") (prop p "RIGHT_ELBOW")
                 (prop p "RIGHT_ARM_SX");
  leg "left" (prop p "LEFT_HIP") (prop p "LEFT_KNEE")
    (Some (- prop p "RIGHT_HIP_SX"));;
  leg "right" (prop p "RIGHT_HIP") (prop p "RIGHT_KNEE")
    (obj_get "RIGHT_HIP_SX" p);;
  pop;;
  mret (leftHandM, rightHandM).

End Drawer.
End Barbell.

(** ** The runner (part_001): the fencer's drawing code without the sword *)

Module Runner.
Section Drawer.
Context `{GlMatrix} `{MathHost}.
Local Open Scope float_scope.
Import Number.

(** [drawBody], [drawHead] and [drawLeg] are, letter for letter, those of
    fencing.js; [drawArm] ends at the lower arm. *)
Definition drawBody : M unit := Fencing.drawBody.
Definition drawHead : float -> M unit := Fencing.drawHead.
Definition drawLeg : string -> float -> float -> M unit := Fencing.drawLeg.

Definition drawArm (side : string) (shoulderAngle elbowAngle : float)
  : M unit :=
  let sign := if String.eqb side "left" then -1 else 1 in
  let shoulderYOffset := 0.5 in
  let shoulderXOffset := 0.3 in
  let shoulderZOffset := 0.3 in
  let upperArmLength := 0.6 in
  let lowerArmLength := 0.6 in
  let jointSize := 0.1 in
  push;;
  mat4_translate this_current this_current
    [sign * shoulderXOffset; shoulderYOffset; sign * shoulderZOffset];;
  mat4_rotate this_current this_current shoulderAngle [0; 0; 1];;
  push;;
  mat4_scale this_current this_current [0.2; 0.2; 0.2];;
  Fencing.drawSphere;;
  pop;;
  push;;
  mat4_translate this_current this_current
    [0; - (jointSize + upperArmLength / 2); 0];;
  mat4_scale this_current this_current [0.15; upperArmLength; 0.15];;
  Fencing.drawCylinder;;
  pop;;
  mat4_translate this_current this_current
    [0; - (jointSize + upperArmLength + jointSize); 0];;
  mat4_rotate this_current this_current elbowAngle [0; 0; 1];;
  push;;
  mat4_scale this_current this_current [0.18; 0.18; 0.18];;
  Fencing.drawSphere;;
  pop;;
  push;;
  mat4_translate this_current this_current
    [0; - (jointSize + lowerArmLength / 2); 0];;
  mat4_scale this_current this_current [0.12; lowerArmLength; 0.12];;
  Fencing.drawCylinder;;
  pop;;
  pop.

Definition drawCharacter (animations : obj float) : M unit :=
  let angle k := Number.or_else (obj_get k animations) 0 in
  push;;
  drawBody;;
  drawHead (angle "headTilt");;
  drawArm "left" (angle "leftShoulderAngle") (angle "leftElbowAngle");;
  drawArm "right" (angle "rightShoulderAngle") (angle "rightElbowAngle");;
  drawLeg "left" (angle "leftHipAngle") (angle "leftKneeAngle");;
  drawLeg "right" (angle "rightHipAngle") (angle "rightKneeAngle");;
  pop.

(** What [render(time)] does to the stack: the lean of the running pose,
    the angles of the frame, the character. *)
Definition render (time : float) : M unit :=
  loadIdentity;;
  mat4_rotate this_current this_current (- Math_PI / 4) [0; 0; 1];;
  let animations := Running.render_animations time in
  mat4_translate this_current this_current [0; 0; 0];;
  drawCharacter animations.

End Drawer.
End Runner.

(** ** The lunge (fencing.js): a one-shot blend of two poses *)

Module Lunge.
Section Pose.
Context {N : Type} `{JSNum N}.
Local Open Scope num_scope.
Local Notation "# z" := (num_of_Z z) (at level 1, format "# z").

Definition startPose : obj N :=
  [ ("leftShoulder", (#(-20) * num_PI) / #180);
    ("rightShoulder", (#20 * num_PI) / #180);
    ("leftElbow", #0); ("rightElbow", #0);
    ("leftHip", (#(-10) * num_PI) / #180);
    ("rightHip", (#10 * num_PI) / #180);
    ("leftKnee", #0); ("rightKnee", #0);
    ("bodyLean", #0);
    ("headTilt", (#0 * num_PI) / #180) ].

Definition lungePose : obj N :=
  [ ("leftShoulder", (#(-65) * num_PI) / #180);
    ("rightShoulder", (#90 * num_PI) / #180);
    ("leftElbow", #0); ("rightElbow", #0);
    ("leftHip", (#(-45) * num_PI) / #180);
    ("rightHip", (#60 * num_PI) / #180);
    ("leftKnee", #0);
    ("rightKnee", (#(-105) * num_PI) / #180);
    ("bodyLean", (#20 * num_PI) / #180);
    ("headTilt", (#(-5) * num_PI) / #180) ].

(** [0.8] *)
Definition duration : N := #8 / #10.

(** [function lerp(a, b, t) { return a + (b - a) * t; }] *)
Definition lerp (a b t : N) : N := a + (b - a) * t.

(** [if (startTime === null) startTime = time;] *)
Definition render_startTime (startTime : option N) (time : N) : N :=
  match startTime with
  | None => time
  | Some s => s
  end.

(** [sec] and [t] of the frame. *)
Definition render_t (startTime : option N) (time : N) : N :=
  let sec := (time - render_startTime startTime time) / #1000 in
  num_min (sec / duration) #1.

Definition render_bodyLean (t : N) : N :=
  lerp (prop startPose "bodyLean") (prop lungePose "bodyLean") t.

Definition render_animations (t : N) : obj N :=
  [ ("leftShoulderAngle",
     lerp (prop startPose "leftShoulder") (prop lungePose "leftShoulder") t);
    ("rightShoulderAngle",
     lerp (prop startPose "rightShoulder") (prop lungePose "rightShoulder") t);
    ("leftElbowAngle",
     lerp (prop startPose "leftElbow") (prop lungePose "leftElbow") t);
    ("rightElbowAngle",
     lerp (prop startPose "rightElbow") (prop lungePose "rightElbow") t);
    ("leftHipAngle",
     lerp (prop startPose "leftHip") (prop lungePose "leftHip") t);
    ("rightHipAngle",
     lerp (prop startPose "rightHip") (prop lungePose "rightHip") t);
    ("leftKneeAngle",
     lerp (prop startPose "leftKnee") (prop lungePose "leftKnee") t);
    ("rightKneeAngle",
     lerp (prop startPose "rightKnee") (prop lungePose "rightKnee") t);
    ("headTilt",
     lerp (prop startPose "headTilt") (prop lungePose "headTilt") t) ].

End Pose.

Section Drawer.
Context `{GlMatrix}.
Local Open Scope float_scope.

(** [render(time)]: the start time the page keeps, and what it does to the
    stack. *)
Definition render (startTime : option float) (time : float)
  : float * M unit :=
  let t := render_t startTime time in
  (render_startTime startTime time,
   loadIdentity;;
   mat4_rotate this_current this_current (render_bodyLean t) [1; 0; 0];;
   Fencing.drawCharacter (render_animations t)).

End Drawer.
End Lunge.

(** ** The volleyball spike: the character, the ball and a frame *)

Module Spike.

Section Ball.
Context {N : Type} `{JSNum N}.
Local Open Scope num_scope.
Local Notation "# z" := (num_of_Z z) (at level 1, format "# z").

Definition HIT_T : N := #5 / #10.
Definition BALL_START : list N := [#6 / #10; #24 / #10; #4 / #10].
Definition BALL_END : list N := [#8; #1; #2 / #10].

(** [a[i]] *)
Definition elt (a : list N) (i : nat) : N := nth i a num_undefined.

Definition interpolateBall (t : N) : list N :=
  if num_lt t HIT_T then BALL_START
  else
    let s := (t - HIT_T) / (#1 - HIT_T) in
    [ elt BALL_START 0 + (elt BALL_END 0 - elt BALL_START 0) * s;
      elt BALL_START 1 + (elt BALL_END 1 - elt BALL_START 1) * s;
      elt BALL_START 2 + (elt BALL_END 2 - elt BALL_START 2) * s ].

End Ball.

Section Drawer.
Context `{GlMatrix}.
Local Open Scope float_scope.

Definition drawSphere : M unit := drawGeometry "sphereVAO".
Definition drawCylinder : M unit := drawGeometry "cylVAO".
Definition drawBall : M unit := drawGeometry "ballVAO".

Definition body : M unit :=
  push;;
  mat4_scale this_current this_current [0.5; 1.5; 0.25];;
  drawCylinder;;
  pop.

Definition head (tilt : float) : M unit :=
  push;;
  mat4_translate this_current this_current [0; 1.1; 0];;
  mat4_rotate this_current this_current tilt [1; 0; 0];;
  drawSphere;;
  pop.

(** [function arm(side, shoulder, elbow, customSX = 0.3)]: the default
    stands in for an argument that is [undefined]. *)
Definition arm (side : string) (shoulder elbow : float)
  (customSX : option float) : M unit :=
  let customSX := default 0.3 customSX in
  let sg := if String.eqb side "left" then -1 else 1 in
  let sY := 0.5 in
  let sX := customSX in
  let sZ := 0.3 in
  let upper := 0.6 in
  let lower := 0.6 in
  let j := 0.1 in
  push;;
  mat4_translate this_current this_current [sg * sX; sY; sg * sZ];;
  mat4_rotate this_current this_current shoulder [0; 0; 1];;
  push;;
  mat4_scale this_current this_current [0.2; 0.2; 0.2];;
  drawSphere;;
  pop;;
  push;;
  mat4_translate this_current this_current [0; - (j + upper / 2); 0];;
  mat4_scale this_current this_current [0.15; upper; 0.15];;
  drawCylinder;;
  pop;;
  mat4_translate this_current this_current [0; - (j + upper + j); 0];;
  mat4_rotate this_current this_current elbow [0; 0; 1];;
  push;;
  mat4_scale this_current this_current [0.18; 0.18; 0.18];;
  drawSphere;;
  pop;;
  push;;
  mat4_translate this_current this_current [0; - (j + lower / 2); 0];;
  mat4_scale this_current this_current [0.12; lower; 0.12];;
  drawCylinder;;
  pop;;
  pop.

Definition leg (side : string) (hip knee : float) : M unit :=
  let sg := if String.eqb side "left" then -1 else 1 in
  let hY := -0.75 in
  let hX := 0 in
  let hZ := 0.25 in
  let upper := 0.8 in
  let lower := 0.7 in
  let j := 0.125 in
  push;;
  mat4_translate this_current this_current [sg * hX; hY; sg * hZ];;
  mat4_rotate this_current this_current hip [0; 0; 1];;
  push;;
  mat4_scale this_current this_current [0.25; 0.25; 0.25];;
  drawSphere;;
  pop;;
  push;;
  mat4_translate this_current this_current [0; - (j + upper / 2); 0];;
  mat4_scale this_current this_current [0.18; upper; 0.18];;
  drawCylinder;;
  pop;;
  mat4_translate this_current this_current [0; - (j + upper + j); 0];;
  mat4_rotate this_current this_current knee [0; 0; 1];;
  push;;
  mat4_scale this_current this_current [0.2; 0.2; 0.2];;
  drawSphere;;
  pop;;
  push;;
  mat4_translate this_current this_current [0; - (j + lower / 2); 0];;
  mat4_scale this_current this_current [0.15; lower; 0.15];;
  drawCylinder;;
  pop;;
  pop.

Definition character (p : obj float) : M unit :=
  push;;
  body;;
  head (prop p "HEAD_TILT");;
  arm "left" (prop p "LEFT_SHOULDER") (prop p "LEFT_ELBOW")
    (obj_get "RIGHT_ARM_SX" p);;
  arm "right" (prop p "RIGHT_SHOULDER") (prop p "RIGHT_ELBOW")
    (obj_get "RIGHT_ARM_SX" p);;
  leg "left" (prop p "LEFT_HIP") (prop p "LEFT_KNEE");;
  leg "right" (prop p "RIGHT_HIP") (prop p "RIGHT_KNEE");;
  pop.

(** [if (!startTime) startTime = now;]: [null], NaN and the zeros are
    falsy. *)
Definition render_startTime (startTime : option float) (now : float)
  : float :=
  match startTime with
  | None => now
  | Some s => if is_nan s || is_zero s then now else s
  end.

(** What [render(now)] does to the stack once [t] is known. *)
Definition render_frame (t : float) : M unit :=
  let pose := Volleyball.interpolatePose t in
  loadIdentity;;
  mat4_rotate this_current this_current (prop pose "BODY_LEAN_X") [1; 0; 0];;
  mat4_rotate this_current this_current (prop pose "BODY_LEAN_Y") [0; 1; 0];;
  mat4_rotate this_current this_current (prop pose "BODY_LEAN_Z") [0; 0; 1];;
  character pose;;
  push;;
  loadIdentity;;
  let ballPos := interpolateBall t in
  mat4_translate this_current this_current ballPos;;
  drawBall;;
  pop.

(** [render(now)]: the start time the page keeps, and the frame. *)
Definition render (startTime : option float) (now : float)
  : float * M unit :=
  let startTime := render_startTime startTime now in
  let elapsed := now - startTime in
  (startTime, render_frame (Volleyball.render_t elapsed)).

End Drawer.
End Spike.

(** ** The barbell lift (part_000): bar and plate geometry, a frame *)

Module Lift.

Section Factory.
Context `{MathHost}.
Local Open Scope float_scope.
Import Number Geometry.

(** [cylinder(rt, rb, h, radSeg, hSeg, open)]: the side wall only;
    [open] is not read. *)
Definition cylinder (rt rb h : float) (radSeg hSeg : nat) (open : bool)
  : buffers :=
  let hh := h / 2 in
  let tl := 2 * Math_PI in
  let filled :=
    for_loop (S hSeg) 0 (fun y b =>
      let vy := num y / num hSeg in
      let r := rt + (rb - rt) * vy in
      let yPos := hh - vy * h in
      for_loop (S radSeg) 0 (fun x b =>
        let u := num x / num radSeg in
        let th := u * tl in
        let st := Math_sin th in
        let ct := Math_cos th in
        let nx := st in
        let ny := (rb - rt) / h in
        let nz := ct in
        let l := Math_hypot nx ny nz in
        {| vertices := vertices b ++ [r * st; yPos; r * ct];
           normals := normals b ++ [nx / l; ny / l; nz / l];
           indices := indices b |}) b)
      {| vertices := []; normals := []; indices := [] |} in
  let indexed :=
    for_loop hSeg 0 (fun y b =>
      for_loop radSeg 0 (fun x b =>
        let a := (Z.of_nat y * (Z.of_nat radSeg + 1) + Z.of_nat x)%Z in
        let b' := (a + Z.of_nat radSeg + 1)%Z in
        {| vertices := vertices b;
           normals := normals b;
           indices := indices b ++ [a; b'; a + 1; b'; b' + 1; a + 1]%Z |}) b)
      filled in
  typed indexed.

(** [pushStrip(start, count)] of [plate]: the triangles of a strip, every
    other one turned round. *)
Definition pushStrip (start : Z) (count : nat) (b : buffers) : buffers :=
  for_loop (count - 2) 0 (fun i b =>
    let i' := Z.of_nat i in
    {| vertices := vertices b;
       normals := normals b;
       indices :=
         if negb (Z.eqb (Z.land i' 1) 0)
         then indices b ++ [start + i' + 1; start + i'; start + i' + 2]%Z
         else indices b ++ [start + i'; start + i' + 1; start + i' + 2]%Z |}) b.

Definition plate (rOut rIn t : float) (seg : nat) : buffers :=
  let h := t * 0.5 in
  let TAU := Math_PI * 2 in
  let b := {| vertices := []; normals := []; indices := [] |} in
  (* 1) top face, normal +Y *)
  let b :=
    for_loop (S seg) 0 (fun i b =>
      let th := (num i / num seg) * TAU in
      let cs := Math_cos th in
      let sn := Math_sin th in
      {| vertices := (vertices b ++ [cs * rOut; h; sn * rOut])
                       ++ [cs * rIn; h; sn * rIn];
         normals := (normals b ++ [0; 1; 0]) ++ [0; 1; 0];
         indices := indices b |}) b in
  let topStart := 0%Z in
  let topCount := ((seg + 1) * 2)%nat in
  (* 2) bottom face, normal -Y *)
  let b :=
    for_loop (S seg) 0 (fun i b =>
      let th := (num i / num seg) * TAU in
      let cs := Math_cos th in
      let sn := Math_sin th in
      {| vertices := (vertices b ++ [cs * rOut; - h; sn * rOut])
                       ++ [cs * rIn; - h; sn * rIn];
         normals := (normals b ++ [0; -1; 0]) ++ [0; -1; 0];
         indices := indices b |}) b in
  let botStart := Z.of_nat topCount in
  let botCount := ((seg + 1) * 2)%nat in
  (* 3) outer wall, normal along XZ *)
  let b :=
    for_loop (S seg) 0 (fun i b =>
      let th := (num i / num seg) * TAU in
      let cs := Math_cos th in
      let sn := Math_sin th in
      {| vertices := (vertices b ++ [cs * rOut; h; sn * rOut])
                       ++ [cs * rOut; - h; sn * rOut];
         normals := (normals b ++ [cs; 0; sn]) ++ [cs; 0; sn];
         indices := indices b |}) b in
  let outStart := (botStart + Z.of_nat botCount)%Z in
  let outCount := ((seg + 1) * 2)%nat in
  (* 4) wall of the hole, normal along -XZ *)
  let b :=
    for_loop (S seg) 0 (fun i b =>
      let th := (num i / num seg) * TAU in
      let cs := Math_cos th in
      let sn := Math_sin th in
      {| vertices := (vertices b ++ [cs * rIn; h; sn * rIn])
                       ++ [cs * rIn; - h; sn * rIn];
         normals := (normals b ++ [- cs; 0; - sn]) ++ [- cs; 0; - sn];
         indices := indices b |}) b in
  let inStart := (outStart + Z.of_nat outCount)%Z in
  let inCount := ((seg + 1) * 2)%nat in
  let b := pushStrip topStart topCount b in
  let b := pushStrip botStart botCount b in
  let b := pushStrip outStart outCount b in
  let b := pushStrip inStart inCount b in
  typed b.

(** The geometries of the page that the bar and the plates are drawn
    with. *)
Definition barGeometry : buffers := cylinder 0.05 0.05 2.0 32 1 false.
Definition plateGeometry : buffers := plate 0.6 0.08 0.1 48.

End Factory.

Section Drawer.
Context `{GlMatrix} `{MathHost}.
Local Open Scope float_scope.

(** What [render(now)] does to the stack once [t] is known. *)
Definition render_frame (t : float) : M unit :=
  let pose := Barbell.interpolatePose t in
  loadIdentity;;
  mat4_rotate this_current this_current (prop pose "BODY_LEAN_X") [1; 0; 0];;
  mat4_rotate this_current this_current (prop pose "BODY_LEAN_Y") [0; 1; 0];;
  mat4_rotate this_current this_current (prop pose "BODY_LEAN_Z") [0; 0; 1];;
  hands ← Barbell.character pose;
  let '(leftHandM, rightHandM) := hands in
  Barbell.drawBarbell leftHandM rightHandM.

Definition render (startTime : option float) (now : float)
  : float * M unit :=
  let startTime := Spike.render_startTime startTime now in
  let elapsed := now - startTime in
  (startTime, render_frame (Volleyball.render_t elapsed)).

End Drawer.
End Lift.

(** ** The camera that the mouse turns *)

Module Camera.
Local Open Scope float_scope.
Import Number.

Record state : Type := {
  mouseX : float;
  mouseY : float;
  isDragging : bool;
  cameraRotationX : float;
  cameraRotationY : float
}.

(** The variables as the page declares them. *)
Definition initial : state :=
  {| mouseX := 0; mouseY := 0; isDragging := false;
     cameraRotationX := 0; cameraRotationY := 0 |}.

(** The events the canvas listens to, with the fields the listeners
    read. *)
Inductive mouse : Type :=
| mousedown (clientX clientY : float)
| mousemove (clientX clientY : float)
| mouseup
| mouseleave.

Definition listener (e : mouse) (s : state) : state :=
  match e with
  | mousedown clientX clientY =>
      {| mouseX := clientX; mouseY := clientY; isDragging := true;
         cameraRotationX := cameraRotationX s;
         cameraRotationY := cameraRotationY s |}
  | mousemove clientX clientY =>
      if isDragging s then
        let deltaX := clientX - mouseX s in
        let deltaY := clientY - mouseY s in
        let cameraRotationY := cameraRotationY s + deltaX * 0.01 in
        let cameraRotationX := cameraRotationX s + deltaY * 0.01 in
        let cameraRotationX :=
          Math_max (- Math_PI / 2) (Math_min (Math_PI / 2) cameraRotationX) in
        {| mouseX := clientX; mouseY := clientY; isDragging := true;
           cameraRotationX := cameraRotationX;
           cameraRotationY := cameraRotationY |}
      else s
  | mouseup | mouseleave =>
      {| mouseX := mouseX s; mouseY := mouseY s; isDragging := false;
         cameraRotationX := cameraRotationX s;
         cameraRotationY := cameraRotationY s |}
  end.

(** The state after the events of a session, oldest first. *)
Definition after (events : list mouse) : state :=
  fold_left (fun s e => listener e s) events initial.

End Camera.

(* ================================================================== *)
(** * Part II. Properties                                               *)
(* ================================================================== *)

(** ** A program logic for code that runs on the matrix stack *)

(** The world as the drawing code sees it: the saved matrices [S], the
    current matrix [c] and the calls [T] issued so far. *)
Definition at_view (S : list array) (c : array) (T : list event) (w : world)
  : Prop :=
  wf w /\ saved w = S /\ current_matrix w = c /\ gl w = T.

(** From a world satisfying [P], [m] returns (it does not throw) some [a]
    in a world satisfying [Q a]. *)
Definition hoare {A : Type} (P : world -> Prop) (m : M A)
  (Q : A -> world -> Prop) : Prop :=
  forall w, P w -> exists a w', m w = Ok a w' /\ Q a w'.

(** The saved matrices and the current one are as they were, whatever
    value is returned and whatever was drawn. *)
Definition balanced {A : Type} (m : M A) : Prop :=
  forall S c T, exists T',
    hoare (at_view S c T) m (fun _ => at_view S c T').

Section Logic.
Context `{GlMatrix}.

Lemma hoare_ret {A : Type} (a : A) (Q : A -> world -> Prop) :
  hoare (Q a) (mret a) Q.
Proof. intros w Hw. by exists a, w. Qed.

Lemma hoare_bind {A B : Type} (P : world -> Prop) (Q : A -> world -> Prop)
  (R : B -> world -> Prop) (m : M A) (k : A -> M B) :
  hoare P m Q -> (forall a, hoare (Q a) (k a) R) -> hoare P (m ≫= k) R.
Proof.
  intros Hm Hk w Hw.
  destruct (Hm w Hw) as (a & w1 & Em & Ha).
  destruct (Hk a w1 Ha) as (b & w2 & Ek & Hb).
  exists b, w2. split; [|done].
  unfold mbind, M_bind. by rewrite Em.
Qed.

Lemma hoare_consequence {A : Type} (P P' : world -> Prop)
  (Q Q' : A -> world -> Prop) (m : M A) :
  hoare P' m Q' -> (forall w, P w -> P' w) ->
  (forall a w, Q' a w -> Q a w) -> hoare P m Q.
Proof.
  intros Hm HP HQ w Hw.
  destruct (Hm w (HP w Hw)) as (a & w' & E & Ha). eauto.
Qed.

Lemma hoare_pure {A : Type} (F : Prop) (P : world -> Prop) (m : M A)
  (Q : A -> world -> Prop) :
  (F -> hoare P m Q) -> hoare (fun w => F /\ P w) m Q.
Proof. intros Hm w [HF HP]. by apply Hm. Qed.

(** *** Reading the heap after an allocation or a write *)

Lemma lookup_alloc_old (h : list array) (m : array) (r : nat) :
  r < length h -> default [] ((h ++ [m]) !! r) = default [] (h !! r).
Proof. intros Hr. by rewrite lookup_app_l. Qed.

Lemma lookup_alloc_new (h : list array) (m : array) :
  default [] ((h ++ [m]) !! length h) = m.
Proof. by rewrite list_lookup_middle. Qed.

Lemma lookup_write_same (h : list array) (m : array) (r : nat) :
  r < length h -> default [] (<[r := m]> h !! r) = m.
Proof. intros Hr. by rewrite list_lookup_insert_eq. Qed.

Lemma lookup_write_other (h : list array) (m : array) (r r' : nat) :
  r ≠ r' -> default [] (<[r := m]> h !! r') = default [] (h !! r').
Proof. intros Hr. by rewrite list_lookup_insert_ne. Qed.

Lemma array_pop_snoc {A : Type} (l : list A) (x : A) :
  array_pop (l ++ [x]) = (Some x, l).
Proof. unfold array_pop. rewrite rev_app_distr; cbn. by rewrite rev_involutive. Qed.

(** *** The methods of [MatrixStack] and the calls on the current matrix *)

Lemma push_spec S c T :
  hoare (at_view S c T) push (fun _ => at_view (S ++ [c]) c T).
Proof.
  intros w ((Hnd & Hin) & HS & Hc & HT).
  eexists tt, _. split; [reflexivity|].
  apply Forall_cons in Hin as [Hcur Hst].
  apply NoDup_cons in Hnd as [Hcs Hnd].
  unfold at_view, wf, saved, current_matrix, deref in *; cbn.
  repeat split.
  - apply NoDup_cons. split.
    + rewrite elem_of_app, list_elem_of_singleton. intros [?|E]; [done|lia].
    + apply NoDup_app. repeat split; [done| |apply NoDup_singleton].
      intros r Hr ->%list_elem_of_singleton.
      rewrite Forall_forall in Hst. specialize (Hst _ Hr). lia.
  - rewrite length_app; cbn. apply Forall_cons. split; [lia|].
    apply Forall_app. split.
    + eapply Forall_impl; [exact Hst|]. cbn. lia.
    + apply Forall_singleton. lia.
  - rewrite map_app; cbn. rewrite lookup_alloc_new. f_equal; [|by rewrite Hc].
    rewrite <- HS. apply map_ext_in. intros r Hr%list_elem_of_In.
    rewrite Forall_forall in Hst. by rewrite lookup_alloc_old; [|apply Hst].
  - by rewrite lookup_alloc_old.
  - done.
Qed.

Lemma saved_snoc_inv (w : world) S x :
  saved w = S ++ [x] ->
  exists s n, stack (stk w) = s ++ [n] /\ map (deref w) s = S /\ deref w n = x.
Proof.
  unfold saved. intros E.
  destruct (stack (stk w)) as [|r0 rs] using rev_ind.
  - by destruct S.
  - rewrite map_app in E; cbn in E. apply app_inj_tail in E as [E1 E2].
    by exists rs, r0.
Qed.

Lemma pop_spec S x c T :
  hoare (at_view (S ++ [x]) c T) pop (fun _ => at_view S x T).
Proof.
  intros w ((Hnd & Hin) & HS & Hc & HT).
  destruct (saved_snoc_inv _ _ _ HS) as (s & n & Es & E1 & E2).
  unfold pop, this_stack, mbind, M_bind. rewrite Es, length_app, array_pop_snoc.
  replace (length s + length [n] =? 0)%nat with false
    by (symmetry; apply Nat.eqb_neq; cbn; lia).
  eexists tt, _. split; [reflexivity|].
  rewrite Es in Hnd, Hin.
  apply Forall_cons in Hin as [Hcur Hst]. apply Forall_app in Hst as [Hs Hn].
  rewrite Forall_singleton in Hn.
  apply NoDup_cons in Hnd as [_ Hnd]. apply NoDup_app in Hnd as (Hnd & Hns & _).
  unfold at_view, wf, saved, current_matrix; cbn. repeat split; try done.
  - apply NoDup_cons. split; [|done].
    intros Hn'. apply (Hns _ Hn'). by apply list_elem_of_singleton.
  - apply Forall_cons; split; done.
Qed.

(** Writing the current matrix leaves the saved ones alone. *)
Lemma write_current_spec S c T (m : array) :
  hoare (at_view S c T) (o ← this_current; write o m)
    (fun _ => at_view S m T).
Proof.
  intros w ((Hnd & Hin) & HS & Hc & HT).
  eexists tt, _. split; [reflexivity|].
  apply Forall_cons in Hin as [Hcur Hst].
  apply NoDup_cons in Hnd as [Hcs Hnd].
  unfold at_view, wf, saved, current_matrix, deref in *; cbn.
  rewrite length_insert. repeat split; try done.
  - by apply NoDup_cons.
  - apply Forall_cons; split; done.
  - rewrite <- HS. apply map_ext_in. intros r Hr%list_elem_of_In.
    apply lookup_write_other. intros E. apply Hcs. by rewrite E.
  - by apply lookup_write_same.
Qed.

Lemma mat4_translate_spec S c T v :
  hoare (at_view S c T) (mat4_translate this_current this_current v)
    (fun _ => at_view S (translated c v) T).
Proof.
  intros w Hw. destruct (write_current_spec S c T (translated c v) w Hw)
    as (a & w' & E & Hw').
  exists a, w'. split; [|done]. rewrite <- E.
  destruct Hw as (_ & _ & <- & _). reflexivity.
Qed.

Lemma mat4_rotate_spec S c T rad axis :
  hoare (at_view S c T) (mat4_rotate this_current this_current rad axis)
    (fun _ => at_view S (rotated c rad axis) T).
Proof.
  intros w Hw. destruct (write_current_spec S c T (rotated c rad axis) w Hw)
    as (a & w' & E & Hw').
  exists a, w'. split; [|done]. rewrite <- E.
  destruct Hw as (_ & _ & <- & _). reflexivity.
Qed.

Lemma mat4_scale_spec S c T v :
  hoare (at_view S c T) (mat4_scale this_current this_current v)
    (fun _ => at_view S (scaled c v) T).
Proof.
  intros w Hw. destruct (write_current_spec S c T (scaled c v) w Hw)
    as (a & w' & E & Hw').
  exists a, w'. split; [|done]. rewrite <- E.
  destruct Hw as (_ & _ & <- & _). reflexivity.
Qed.

Lemma loadIdentity_spec S c T :
  hoare (at_view S c T) loadIdentity (fun _ => at_view S mat4_identity_value T).
Proof. apply write_current_spec. Qed.

Lemma drawGeometry_spec S c T vao :
  hoare (at_view S c T) (drawGeometry vao)
    (fun _ => at_view S c (T ++ [Draw vao c])).
Proof.
  intros w (Hwf & HS & Hc & HT).
  eexists tt, _. split; [reflexivity|].
  unfold at_view, wf, saved, current_matrix, deref in *; cbn.
  rewrite Hc, HT. done.
Qed.

Lemma clone_current_spec S c T :
  hoare (at_view S c T) clone_current
    (fun m w => m = c /\ at_view S c T w).
Proof.
  intros w ((Hnd & Hin) & HS & Hc & HT).
  eexists _, _. split; [reflexivity|].
  apply Forall_cons in Hin as [Hcur Hst].
  unfold at_view, wf, saved, current_matrix, deref in *; cbn.
  rewrite lookup_alloc_new, length_app; cbn. repeat split; try done.
  - apply Forall_cons. split; [lia|]. eapply Forall_impl; [exact Hst|]. cbn. lia.
  - rewrite <- HS. apply map_ext_in. intros r Hr%list_elem_of_In.
    rewrite Forall_forall in Hst. by rewrite lookup_alloc_old; [|apply Hst].
  - by rewrite lookup_alloc_old.
Qed.

Lemma stack_length_spec S c T :
  hoare (at_view S c T) this_stack_length
    (fun n w => n = length S /\ at_view S c T w).
Proof.
  intros w Hw. eexists _, _. split; [reflexivity|]. split; [|done].
  destruct Hw as (_ & <- & _). unfold saved. by rewrite length_map.
Qed.


(** *** Sequencing *)

Lemma hoare_assoc {A B C : Type} (P : world -> Prop) (R : C -> world -> Prop)
  (m : M A) (k1 : A -> M B) (k2 : B -> M C) :
  hoare P (m ≫= fun a => k1 a ≫= k2) R -> hoare P ((m ≫= k1) ≫= k2) R.
Proof.
  intros Hm w Hw. destruct (Hm w Hw) as (a & w' & E & Ha).
  exists a, w'. split; [|done]. rewrite <- E.
  unfold mbind, M_bind. by destruct (m w).
Qed.

Lemma hoare_ret_bind {A B : Type} (P : world -> Prop)
  (R : B -> world -> Prop) (a : A) (k : A -> M B) :
  hoare P (k a) R -> hoare P (mret a ≫= k) R.
Proof. intros Hk w Hw. exact (Hk w Hw). Qed.

(** The post-condition of a balanced routine. *)
Definition kept {A : Type} (S : list array) (c : array) : A -> world -> Prop :=
  fun _ w => exists T, at_view S c T w.

Lemma hoare_kept {A B : Type} S c (a : A) (m : M B) (Q : B -> world -> Prop) :
  (forall T, hoare (at_view S c T) m Q) -> hoare (kept S c a) m Q.
Proof. intros Hm w [T Hw]. exact (Hm T w Hw). Qed.

Lemma hoare_ret_view {A : Type} (a : A) S c T :
  hoare (at_view S c T) (mret a) (fun _ => at_view S c T).
Proof. intros w Hw. by exists a, w. Qed.

Lemma hoare_to_kept {A : Type} (P : world -> Prop) (m : M A) S c T :
  hoare P m (fun _ => at_view S c T) -> hoare P m (kept S c).
Proof.
  intros Hm. eapply hoare_consequence; [exact Hm|done|].
  intros a w Hw. by exists T.
Qed.

End Logic.

(** Rules of the routines proved balanced, found by their name. *)
Create HintDb stack_rules discriminated.
#[export] Hint Constants Opaque : stack_rules.

(** Symbolic execution of straight-line stack code. *)
Ltac hoare_pre :=
  repeat lazymatch goal with
  | |- hoare (kept _ _ _) _ _ => apply hoare_kept; intros ?
  | |- hoare (fun w => _ /\ _) _ _ => apply hoare_pure; intros ?; subst
  | |- hoare _ (mbind _ (mbind _ _)) _ => apply hoare_assoc
  | |- hoare _ (mbind _ (mret _)) _ => apply hoare_ret_bind
  end.

Ltac hoare_rule :=
  lazymatch goal with
  | |- hoare _ push _ => apply push_spec
  | |- hoare _ pop _ => apply pop_spec
  | |- hoare _ (mat4_translate _ _ _) _ => apply mat4_translate_spec
  | |- hoare _ (mat4_rotate _ _ _ _) _ => apply mat4_rotate_spec
  | |- hoare _ (mat4_scale _ _ _) _ => apply mat4_scale_spec
  | |- hoare _ loadIdentity _ => apply loadIdentity_spec
  | |- hoare _ (drawGeometry _) _ => apply drawGeometry_spec
  | |- hoare _ clone_current _ => apply clone_current_spec
  | |- hoare _ this_stack_length _ => apply stack_length_spec
  | |- hoare _ (mret _) _ => apply hoare_ret_view
  | |- hoare _ _ _ => solve [eauto 1 with stack_rules nocore]
  end.

Ltac hoare_run :=
  hoare_pre;
  lazymatch goal with
  | |- hoare _ (mret _) _ => idtac
  | |- hoare _ (_ ≫= _) _ =>
      eapply hoare_bind; [hoare_rule | intros ?; cbv beta; hoare_run]
  | |- hoare _ _ _ => idtac
  end.

Ltac hoare_end :=
  first [ hoare_rule
        | apply hoare_to_kept with (T := _); hoare_rule
        | eapply hoare_to_kept; hoare_rule ].


(** ** The matrix stack *)

Section StackProperties.
Context `{GlMatrix}.

(** A new stack is well formed, and each method keeps it so: the worlds
    the page can reach are the well-formed ones. *)
Lemma wf_new : wf MatrixStack_new.
Proof.
  split; cbn.
  - apply NoDup_singleton.
  - apply Forall_singleton. lia.
Qed.

Lemma at_view_here (w : world) :
  wf w -> at_view (saved w) (current_matrix w) (gl w) w.
Proof. by intros Hw. Qed.

Lemma wf_kept {A : Type} (m : M A) S c S' c' T T' (w : world) :
  hoare (at_view S c T) m (fun _ => at_view S' c' T') ->
  at_view S c T w -> exists a w', m w = Ok a w' /\ wf w'.
Proof.
  intros Hm Hw. destruct (Hm w Hw) as (a & w' & E & Hw' & _). eauto.
Qed.

Lemma run_calls_spec S c T (cs : list call) :
  hoare (at_view S c T) (run_calls cs)
    (fun _ => at_view S (calls_value cs c) T).
Proof.
  revert c. induction cs as [|k cs IH]; intros c; cbn [run_calls].
  - apply (hoare_ret tt (fun _ => at_view S c T)).
  - eapply hoare_bind; [|intros ?; apply IH].
    destruct k; cbn [run_call]; unfold translate, rotate, scale; hoare_rule.
Qed.

(** What a balanced routine means on a well-formed world. *)
Lemma balanced_sound {A : Type} (m : M A) (w : world) :
  (forall S c T, hoare (at_view S c T) m (kept S c)) -> wf w ->
  exists a w', m w = Ok a w' /\ wf w' /\ saved w' = saved w /\
    depth w' = depth w /\ current_matrix w' = current_matrix w.
Proof.
  intros Hm Hw.
  destruct (Hm _ _ _ w (at_view_here w Hw))
    as (a & w' & E & T' & Hw' & HS & Hc & _).
  exists a, w'. do 3 (split; [done|]). split; [|done].
  apply (f_equal length) in HS. unfold saved in HS.
  by rewrite !length_map in HS.
Qed.

End StackProperties.

(** Every method of the stack that returns keeps the world well formed. *)
Lemma methods_keep_wf `{GlMatrix} (w : world) :
  wf w ->
  (exists w', push w = Ok tt w' /\ wf w') /\
  (forall v, exists w', translate v w = Ok tt w' /\ wf w') /\
  (forall rad axis, exists w', rotate rad axis w = Ok tt w' /\ wf w') /\
  (forall v, exists w', scale v w = Ok tt w' /\ wf w') /\
  (exists w', loadIdentity w = Ok tt w' /\ wf w') /\
  (forall w', pop w = Ok tt w' -> wf w').
Proof.
  intros Hw. pose proof (at_view_here w Hw) as Hv.
  split; [|split; [|split; [|split; [|split]]]].
  - destruct (push_spec _ _ _ w Hv) as ([] & w' & E & Hw' & _); eauto.
  - intros v. destruct (mat4_translate_spec _ _ _ v w Hv)
      as ([] & w' & E & Hw' & _); eauto.
  - intros rad axis. destruct (mat4_rotate_spec _ _ _ rad axis w Hv)
      as ([] & w' & E & Hw' & _); eauto.
  - intros v. destruct (mat4_scale_spec _ _ _ v w Hv)
      as ([] & w' & E & Hw' & _); eauto.
  - destruct (loadIdentity_spec _ _ _ w Hv) as ([] & w' & E & Hw' & _); eauto.
  - intros w1 E. destruct (stack (stk w)) as [|top s _] eqn:Es using rev_ind.
    + unfold pop, this_stack, mbind, M_bind in E. by rewrite Es in E.
    + assert (Hv' : at_view (map (deref w) s ++ [deref w top])
                      (current_matrix w) (gl w) w).
      { split; [done|]. split; [|done]. unfold saved. by rewrite Es, map_app. }
      destruct (pop_spec _ _ _ _ w Hv') as ([] & w2 & E' & Hw2 & _).
      congruence.
Qed.

(** ** The body-part drawers leave the stack as they found it *)

Section FencingBalanced.
Context `{GlMatrix}.
Import Fencing.

Lemma drawBody_kept S c T : hoare (at_view S c T) drawBody (kept S c).
Proof. unfold drawBody, drawCylinder. hoare_run. hoare_end. Qed.

Lemma drawHead_kept S c T tilt :
  hoare (at_view S c T) (drawHead tilt) (kept S c).
Proof. unfold drawHead, drawSphere. hoare_run. hoare_end. Qed.

Lemma drawArm_kept S c T side shoulder elbow :
  hoare (at_view S c T) (drawArm side shoulder elbow) (kept S c).
Proof.
  unfold drawArm, drawSphere, drawCylinder. cbv zeta.
  destruct (String.eqb side "right"); hoare_run; hoare_end.
Qed.

Lemma drawLeg_kept S c T side hip knee :
  hoare (at_view S c T) (drawLeg side hip knee) (kept S c).
Proof.
  unfold drawLeg, drawSphere, drawCylinder. cbv zeta. hoare_run. hoare_end.
Qed.

#[local] Hint Resolve drawBody_kept drawHead_kept drawArm_kept drawLeg_kept
  : stack_rules.

Lemma drawCharacter_kept S c T animations :
  hoare (at_view S c T) (drawCharacter animations) (kept S c).
Proof. unfold drawCharacter. cbv zeta. hoare_run. hoare_end. Qed.

End FencingBalanced.

(** What [drawBarbell] draws, from the matrix [c] it is entered with. *)
Section BarbellDraws.
Context `{GlMatrix} `{MathHost}.
Import Barbell.
Local Open Scope float_scope.

(** The rotation it applies, if any: angle and axis. *)
Definition barbell_rotation (f : frame) : option (float * array) :=
  if 1e-5 <? axisLen f then
    Some (Math_acos (clamped_dot (dir f)), vec3.scale (axis f) (1 / axisLen f))
  else if vec3.dot up (dir f) <? 0 then
    Some (Number.Math_PI, [1; 0; 0])
  else None.

(** The frame of the bar: moved to the midpoint, then turned. *)
Definition oriented (c : array) (f : frame) : array :=
  match barbell_rotation f with
  | Some (ang, ax) => rotated (translated c (mid f)) ang ax
  | None => translated c (mid f)
  end.

Definition barbell_draws (c : array) (f : frame) : list event :=
  [ Draw "barVAO" (scaled (oriented c f) [1; len f; 1]);
    Draw "plateVAO" (translated (oriented c f) [0; 1 * (len f - 0.05); 0]);
    Draw "plateVAO" (translated (oriented c f) [0; -1 * (len f - 0.05); 0]) ].

End BarbellDraws.

Section BarbellBalanced.
Context `{GlMatrix} `{MathHost}.
Import Barbell.

Lemma body_kept S c T : hoare (at_view S c T) body (kept S c).
Proof. unfold body, drawCylinder. hoare_run. hoare_end. Qed.

Lemma head_kept S c T tilt : hoare (at_view S c T) (head tilt) (kept S c).
Proof. unfold head, drawSphere. hoare_run. hoare_end. Qed.

Lemma arm_kept S c T side shoulder elbow customSX :
  hoare (at_view S c T) (arm side shoulder elbow customSX) (kept S c).
Proof.
  unfold arm, drawSphere, drawCylinder. cbv zeta. hoare_run. hoare_end.
Qed.

Lemma leg_kept S c T side hip knee customSX :
  hoare (at_view S c T) (leg side hip knee customSX) (kept S c).
Proof.
  unfold leg, drawSphere, drawCylinder. cbv zeta. hoare_run. hoare_end.
Qed.

#[local] Hint Resolve body_kept head_kept arm_kept leg_kept : stack_rules.

Lemma character_kept S c T p :
  hoare (at_view S c T) (character p) (kept S c).
Proof. unfold character. hoare_run. hoare_end. Qed.

(** [drawBarbell] issues its three draws, finds no leak to warn about and
    leaves the stack as it was. *)
Lemma drawBarbell_spec S c T L R :
  hoare (at_view S c T) (drawBarbell L R)
    (fun _ => at_view S c (T ++ barbell_draws c (barbellFrame L R))).
Proof.
  unfold drawBarbell, drawBar, drawPlate, barbell_draws, oriented,
    barbell_rotation.
  cbv zeta. cbn [forEach].
  destruct (1e-5 <? axisLen (barbellFrame L R))%float;
    [|destruct (vec3.dot up (dir (barbellFrame L R)) <? 0)%float];
    hoare_run; rewrite Nat.eqb_refl; cbn [negb];
    rewrite <- !(assoc_L (++)); apply hoare_ret_view.
Qed.

Lemma drawBarbell_kept S c T L R :
  hoare (at_view S c T) (drawBarbell L R) (kept S c).
Proof. eapply hoare_to_kept, drawBarbell_spec. Qed.

End BarbellBalanced.

(** ** Instances of the interfaces, to run the code on

    [mat4.translate] and [mat4.scale] as gl-matrix computes them when
    [out] and [a] are one matrix; this instance's [rotate] declines every
    axis, as gl-matrix does a degenerate one.  The host's functions are
    their first-order approximations at 0. *)

Definition gl_matrix_sample : GlMatrix := {|
  translated a v :=
    let x := idx v 0 in let y := idx v 1 in let z := idx v 2 in
    take 12 a ++
    map (fun i => Number.Math_fround
                    (idx a i * x + idx a (4 + i) * y + idx a (8 + i) * z
                     + idx a (12 + i))%float) [0; 1; 2; 3]%nat;
  rotated a rad axis := a;
  scaled a v :=
    map (fun i => Number.Math_fround (idx a i * idx v (i / 4))%float)
      (seq 0 12) ++ drop 12 a
|}.

Definition host_sample : MathHost := {|
  Math_sin x := x;
  Math_cos x := 1%float;
  Math_acos x := (Number.Math_PI / 2 - x)%float;
  hypot_host x y z :=
    (let r := sqrt (x * x + y * y + z * z) in
     if (abs x <=? r) && (abs y <=? r) && (abs z <=? r) then r
     else infinity)%float
|}.

(** ** The claims about the matrix stack *)

(** C1.  Every part-drawing routine is stack-balanced: from any
    well-formed state of the stack and for any pose argument,
    [drawCharacter] of the fencer, [character] of the lifter and
    [drawBarbell] return (they do not throw), and when they return the
    saved history has the depth it had, holds the same matrices, and the
    current transform has the value it had. *)
Theorem drawing_is_stack_balanced `{GlMatrix} `{MathHost} (w : world) :
  wf w ->
  (forall animations, exists w',
      Fencing.drawCharacter animations w = Ok tt w' /\
      depth w' = depth w /\ current_matrix w' = current_matrix w /\
      saved w' = saved w) /\
  (forall p, exists hands w',
      Barbell.character p w = Ok hands w' /\
      depth w' = depth w /\ current_matrix w' = current_matrix w /\
      saved w' = saved w) /\
  (forall L R, exists w',
      Barbell.drawBarbell L R w = Ok tt w' /\
      depth w' = depth w /\ current_matrix w' = current_matrix w /\
      saved w' = saved w).
Proof.
  intros Hw. split; [|split].
  - intros animations.
    destruct (balanced_sound (Fencing.drawCharacter animations) w)
      as ([] & w' & E & _ & HS & Hd & Hc); [|done|by eauto].
    intros S c T. apply drawCharacter_kept.
  - intros p.
    destruct (balanced_sound (Barbell.character p) w)
      as (hands & w' & E & _ & HS & Hd & Hc); [|done|by eauto 6].
    intros S c T. apply character_kept.
  - intros L R.
    destruct (balanced_sound (Barbell.drawBarbell L R) w)
      as ([] & w' & E & _ & HS & Hd & Hc); [|done|by eauto].
    intros S c T. apply drawBarbell_kept.
Qed.

(** The routines of C1 run on the stack a new page starts with. *)
Lemma drawing_is_stack_balanced_witness :
  wf MatrixStack_new /\
  exists w',
    @Fencing.drawCharacter gl_matrix_sample [("headTilt", 0.25%float)]
      MatrixStack_new = Ok tt w' /\
    depth w' = depth MatrixStack_new /\
    current_matrix w' = current_matrix MatrixStack_new /\
    saved w' = saved MatrixStack_new.
Proof.
  split; [apply wf_new|].
  exact (proj1 (@drawing_is_stack_balanced gl_matrix_sample host_sample
                  MatrixStack_new wf_new) [("headTilt", 0.25%float)]).
Defined.

(** C2.  Push/pop round trip with copy semantics.  From any well-formed
    state: [push()] leaves the current transform as it is and saves a copy
    of it; whatever run of translate / rotate / scale / loadIdentity
    follows, the saved copy still holds the value it was given; and after
    the matching [pop()] the current transform is the one before the
    [push()] and the history is the one before it. *)
Theorem push_pop_roundtrip `{GlMatrix} (w : world) (cs : list call) :
  wf w ->
  (exists w1, push w = Ok tt w1 /\
     current_matrix w1 = current_matrix w /\
     saved w1 = saved w ++ [current_matrix w]) /\
  (exists w2, (push;; run_calls cs) w = Ok tt w2 /\
     current_matrix w2 = calls_value cs (current_matrix w) /\
     saved w2 = saved w ++ [current_matrix w]) /\
  (exists w3, (push;; run_calls cs;; pop) w = Ok tt w3 /\
     current_matrix w3 = current_matrix w /\
     saved w3 = saved w /\ depth w3 = depth w).
Proof.
  intros Hw. pose proof (at_view_here w Hw) as Hv.
  split; [|split].
  - destruct (push_spec _ _ _ w Hv) as ([] & w1 & E & _ & HS & Hc & _).
    eauto.
  - assert (Hm : hoare (at_view (saved w) (current_matrix w) (gl w))
                   (push;; run_calls cs)
                   (fun _ => at_view (saved w ++ [current_matrix w])
                               (calls_value cs (current_matrix w)) (gl w))).
    { eapply hoare_bind; [apply push_spec|]. intros ?. apply run_calls_spec. }
    destruct (Hm w Hv) as ([] & w2 & E & _ & HS & Hc & _). eauto.
  - assert (Hm : hoare (at_view (saved w) (current_matrix w) (gl w))
                   (push;; run_calls cs;; pop)
                   (fun _ => at_view (saved w) (current_matrix w) (gl w))).
    { eapply hoare_bind; [apply push_spec|]. intros ?.
      eapply hoare_bind; [apply run_calls_spec|]. intros ?. apply pop_spec. }
    destruct (Hm w Hv) as ([] & w3 & E & _ & HS & Hc & _).
    exists w3. repeat split; try done.
    apply (f_equal length) in HS. unfold saved in HS.
    by rewrite !length_map in HS.
Qed.

Lemma push_pop_roundtrip_witness :
  wf MatrixStack_new /\
  exists w3,
    (@push;; @run_calls gl_matrix_sample
               [CallTranslate [1; 2; 3]%float; CallLoadIdentity;
                CallScale [2; 2; 2]%float];; @pop) MatrixStack_new
      = Ok tt w3 /\
    current_matrix w3 = current_matrix MatrixStack_new /\
    saved w3 = saved MatrixStack_new /\ depth w3 = depth MatrixStack_new.
Proof.
  split; [apply wf_new|].
  exact (proj2 (proj2 (@push_pop_roundtrip gl_matrix_sample MatrixStack_new
                         _ wf_new))).
Defined.

(** C3.  [pop()] makes the most recently saved matrix the current one and
    removes it from the history; it throws "Stack underflow" exactly when
    the history is empty, and then nothing that follows it runs: the error
    is what the whole computation returns. *)
Theorem pop_restores_or_underflows (w : world) :
  (forall s top, stack (stk w) = s ++ [top] ->
     pop w = Ok tt {| heap := heap w;
                      stk := {| stack := s; current := top |};
                      gl := gl w |}) /\
  (pop w = Throw "Stack underflow" <-> stack (stk w) = []) /\
  ((exists e, pop w = Throw e) <-> depth w = 0) /\
  (forall (B : Type) (k : unit -> M B),
     stack (stk w) = [] -> (pop ≫= k) w = Throw "Stack underflow").
Proof.
  assert (Hempty : stack (stk w) = [] -> pop w = Throw "Stack underflow").
  { intros E. unfold pop, this_stack, mbind, M_bind. by rewrite E. }
  assert (Hsnoc : forall s top, stack (stk w) = s ++ [top] ->
            pop w = Ok tt {| heap := heap w;
                             stk := {| stack := s; current := top |};
                             gl := gl w |}).
  { intros s top E. unfold pop, this_stack, mbind, M_bind.
    rewrite E, length_app, array_pop_snoc.
    replace (length s + length [top] =? 0)%nat with false
      by (symmetry; apply Nat.eqb_neq; cbn; lia).
    reflexivity. }
  split; [exact Hsnoc|]. split; [|split].
  - split; [|exact Hempty]. intros E.
    destruct (stack (stk w)) as [|top s _] eqn:Es using rev_ind; [done|].
    by rewrite (Hsnoc s top) in E.
  - unfold depth. split.
    + intros [e E].
      destruct (stack (stk w)) as [|top s _] eqn:Es using rev_ind; [done|].
      by rewrite (Hsnoc s top) in E.
    + intros E. exists "Stack underflow". apply Hempty.
      by destruct (stack (stk w)).
  - intros B k E. unfold mbind, M_bind. by rewrite (Hempty E).
Qed.

(** ** The geometry factory: how many vertices and indices *)

Lemma for_loop_count {St : Type} (f : St -> nat) (k lo : nat)
  (body : nat -> St -> St) :
  (forall i s, lo <= i -> f (body i s) = f s + k) ->
  forall n i s, lo <= i -> f (for_loop n i body s) = f s + n * k.
Proof.
  intros Hbody n. induction n as [|n IH]; intros i s Hi; cbn [for_loop].
  - lia.
  - rewrite IH by lia. rewrite Hbody by done. lia.
Qed.

Lemma for_loop_same {St A : Type} (f : St -> A) (body : nat -> St -> St) :
  (forall i s, f (body i s) = f s) ->
  forall n i s, f (for_loop n i body s) = f s.
Proof.
  intros Hbody n. induction n as [|n IH]; intros i s; cbn [for_loop]; [done|].
  by rewrite IH.
Qed.

Section GeometryCounts.
Context `{MathHost}.
Import Geometry.

Example createSphere_2_3 :
  let g := @createSphere host_sample 1%float 2 3 in
  vertex_count g = 12 /\ length (indices g) = 36 /\
  take 6 (indices g) = [0; 4; 1; 4; 5; 1]%Z.
Proof. vm_compute. done. Qed.

Example createCylinder_4_1 :
  let closed := @createCylinder host_sample 0.5 0.5 1 4 1 false in
  let opened := @createCylinder host_sample 0.5 0.5 1 4 1 true in
  vertex_count opened = 10 /\ vertex_count closed = 22 /\
  length (indices opened) = 24 /\ length (indices closed) = 48 /\
  drop 24 (indices closed) =
    [10; 11; 12; 10; 12; 13; 10; 13; 14; 10; 14; 15;
     16; 18; 17; 16; 19; 18; 16; 20; 19; 16; 21; 20]%Z.
Proof. vm_compute. done. Qed.

Lemma typed_vertices b : length (vertices (typed b)) = length (vertices b).
Proof. unfold typed, Float32Array; cbn. by rewrite length_map. Qed.

Lemma typed_indices b : length (indices (typed b)) = length (indices b).
Proof. unfold typed, Uint16Array; cbn. by rewrite length_map. Qed.

Lemma createSphere_vertices radius latBands longBands :
  length (vertices (createSphere radius latBands longBands))
  = 3 * ((latBands + 1) * (longBands + 1)).
Proof.
  unfold createSphere. rewrite typed_vertices.
  rewrite (for_loop_same vertices).
  2:{ intros i s. by apply for_loop_same. }
  rewrite (for_loop_count (fun b => length (vertices b)) (3 * (longBands + 1)) 0);
    [cbn; lia| |lia].
  intros i s _.
  rewrite (for_loop_count (fun b => length (vertices b)) 3 0); [lia| |lia].
  intros j b _. cbn. rewrite !length_app. cbn. lia.
Qed.

Lemma createSphere_indices radius latBands longBands :
  length (indices (createSphere radius latBands longBands))
  = latBands * longBands * 6.
Proof.
  unfold createSphere. rewrite typed_indices.
  rewrite (for_loop_count (fun b => length (indices b)) (longBands * 6) 0);
    [| |lia].
  - rewrite (for_loop_same indices); [cbn; lia|].
    intros i s. by apply for_loop_same.
  - intros i s _.
    rewrite (for_loop_count (fun b => length (indices b)) 6 0); [lia| |lia].
    intros j b _. cbn. rewrite !length_app. cbn. lia.
Qed.


Lemma cap_vertices top radius halfHeight thetaLength radialSegments b :
  length (vertices (cap top radius halfHeight thetaLength radialSegments b))
  = length (vertices b) + 3 * (radialSegments + 2).
Proof.
  unfold cap. cbv zeta.
  rewrite (for_loop_count (fun b => length (vertices b)) 3 0); [| |lia].
  - cbn. rewrite length_app. cbn. lia.
  - intros i s _. cbn. rewrite length_app. cbn. lia.
Qed.

Lemma cap_indices top radius halfHeight thetaLength radialSegments b :
  length (indices (cap top radius halfHeight thetaLength radialSegments b))
  = length (indices b) + radialSegments * 3.
Proof.
  unfold cap. cbv zeta. cbn [for_loop].
  rewrite (for_loop_count (fun b => length (indices b)) 3 1); [cbn; lia| |lia].
  intros i s Hi. cbn.
  destruct i as [|i]; [lia|].
  destruct top; rewrite !length_app; cbn; lia.
Qed.

Lemma createCylinder_capped rt rb h rs hs :
  length (vertices (createCylinder rt rb h rs hs false))
  = length (vertices (createCylinder rt rb h rs hs true)) + 3 * (2 * (rs + 2)) /\
  length (indices (createCylinder rt rb h rs hs false))
  = length (indices (createCylinder rt rb h rs hs true)) + 2 * rs * 3.
Proof.
  unfold createCylinder. cbv zeta. cbn [negb].
  rewrite !typed_vertices, !typed_indices, !cap_vertices, !cap_indices. lia.
Qed.

(** C8.  Geometry closure counts.  For all band and segment counts (so
    for all positive ones) [createSphere] returns
    (latBands + 1) * (longBands + 1) vertices, three coordinates each, and
    latBands * longBands * 6 index entries; [createCylinder] with end caps
    returns 2 * (radialSegments + 2) more vertices and
    2 * radialSegments * 3 more index entries than the open-ended one. *)
Theorem geometry_closure_counts (radius radiusTop radiusBottom height : float)
  (latBands longBands radialSegments heightSegments : nat) :
  let ball := createSphere radius latBands longBands in
  let closed := createCylinder radiusTop radiusBottom height radialSegments
                  heightSegments false in
  let opened := createCylinder radiusTop radiusBottom height radialSegments
                  heightSegments true in
  vertex_count ball = (latBands + 1) * (longBands + 1) /\
  length (vertices ball) = 3 * vertex_count ball /\
  length (indices ball) = latBands * longBands * 6 /\
  vertex_count closed = vertex_count opened + 2 * (radialSegments + 2) /\
  length (indices closed) = length (indices opened) + 2 * radialSegments * 3.
Proof.
  cbv zeta. unfold vertex_count.
  rewrite createSphere_vertices, createSphere_indices.
  destruct (createCylinder_capped radiusTop radiusBottom height radialSegments
              heightSegments) as [Hv Hi].
  rewrite Hv, Hi.
  rewrite (Nat.mul_comm 3 ((latBands + 1) * (longBands + 1))), Nat.div_mul by lia.
  rewrite (Nat.mul_comm 3 (2 * (radialSegments + 2))), Nat.div_add by lia.
  repeat split; lia.
Qed.

End GeometryCounts.

(** ** Comparisons of JavaScript numbers *)

Lemma SFcompare_antisym (a b : spec_float) :
  SFcompare b a = option_map CompOpp (SFcompare a b).
Proof.
  destruct a as [sa|sa| |sa ma ea], b as [sb|sb| |sb mb eb]; cbn;
    repeat match goal with s : bool |- _ => destruct s end; cbn; try done.
  - rewrite (Z.compare_antisym ea eb).
    destruct (ea ?= eb)%Z; cbn; try done.
    rewrite (Pos.compare_cont_antisym ma mb Eq). cbn.
    by destruct (Pos.compare_cont Eq ma mb).
  - rewrite (Z.compare_antisym ea eb).
    destruct (ea ?= eb)%Z; cbn; try done.
    rewrite (Pos.compare_cont_antisym ma mb Eq). cbn.
    by destruct (Pos.compare_cont Eq ma mb).
Qed.

(** [a <= b] excludes [b < a]; so does a NaN on either side. *)
Lemma leb_not_gt (a b : float) : (a <=? b)%float = true -> (b <? a)%float = false.
Proof.
  rewrite leb_spec, ltb_spec. unfold SFleb, SFltb.
  rewrite (SFcompare_antisym (Prim2SF a) (Prim2SF b)).
  by destruct (SFcompare (Prim2SF a) (Prim2SF b)) as [[]|].
Qed.

(** Exactly one of [a < b], [b <= a] holds unless one of them is NaN. *)
Lemma ltb_not_ge (a b : float) : (a <? b)%float = true -> (b <=? a)%float = false.
Proof.
  rewrite leb_spec, ltb_spec. unfold SFleb, SFltb.
  rewrite (SFcompare_antisym (Prim2SF a) (Prim2SF b)).
  by destruct (SFcompare (Prim2SF a) (Prim2SF b)) as [[]|].
Qed.

(** *** Clamping *)

Section Clamp.
Local Open Scope float_scope.

Lemma SFcompare_refl (a : spec_float) :
  a <> S754_nan -> SFcompare a a = Some Eq.
Proof.
  destruct a as [s|s| |s m e]; cbn; try done; intros _; destruct s; try done.
  - by rewrite Z.compare_refl, Pos.compare_cont_refl.
  - by rewrite Z.compare_refl, Pos.compare_cont_refl.
Qed.

Lemma SFcompare_None (a b : spec_float) :
  SFcompare a b = None -> a = S754_nan \/ b = S754_nan.
Proof.
  destruct a as [sa|sa| |sa ma ea], b as [sb|sb| |sb mb eb]; cbn; auto;
    discriminate.
Qed.

Lemma is_nan_false (x : float) :
  is_nan x = false <-> Prim2SF x <> S754_nan.
Proof.
  unfold is_nan. rewrite FloatAxioms.eqb_spec. unfold SFeqb. split.
  - intros E Hn. rewrite Hn in E. cbn in E. discriminate.
  - intros Hn. by rewrite (SFcompare_refl _ Hn).
Qed.

(** Two numbers that are not NaN compare. *)
Lemma not_nan_compare (a b : float) :
  is_nan a = false -> is_nan b = false ->
  exists c, SFcompare (Prim2SF a) (Prim2SF b) = Some c.
Proof.
  intros Ha%is_nan_false Hb%is_nan_false.
  destruct (SFcompare (Prim2SF a) (Prim2SF b)) as [c|] eqn:E; [eauto|].
  by destruct (SFcompare_None _ _ E).
Qed.

(** [Math.max] never goes below its arguments, [Math.min] never above. *)
Lemma Math_max_ge (x y : float) :
  is_nan x = false -> is_nan y = false ->
  is_nan (Number.Math_max x y) = false /\
  (y <=? Number.Math_max x y) = true.
Proof.
  intros Hx Hy. unfold Number.Math_max. rewrite Hx, Hy. cbn [orb].
  destruct (not_nan_compare x y Hx Hy) as [c Hc].
  pose proof (SFcompare_antisym (Prim2SF x) (Prim2SF y)) as Hc'.
  rewrite Hc in Hc'. cbn in Hc'.
  assert (Hyy : (y <=? y) = true).
  { rewrite leb_spec. unfold SFleb.
    rewrite SFcompare_refl; [done|by apply is_nan_false]. }
  assert (Hyx : c <> Lt -> (y <=? x) = true).
  { intros Hlt. rewrite leb_spec. unfold SFleb. rewrite Hc'. by destruct c. }
  rewrite !ltb_spec. unfold SFltb. rewrite Hc, Hc'.
  destruct c; cbv iota beta delta [CompOpp].
  - destruct (get_sign x); auto.
  - auto.
  - auto.
Qed.

Lemma Math_min_range (x lo hi : float) :
  is_nan x = false -> is_nan hi = false ->
  (lo <=? x) = true -> (lo <=? hi) = true ->
  is_nan (Number.Math_min x hi) = false /\
  (lo <=? Number.Math_min x hi) = true /\
  (Number.Math_min x hi <=? hi) = true.
Proof.
  intros Hx Hh Hlx Hlh. unfold Number.Math_min. rewrite Hx, Hh. cbn [orb].
  destruct (not_nan_compare x hi Hx Hh) as [c Hc].
  pose proof (SFcompare_antisym (Prim2SF x) (Prim2SF hi)) as Hc'.
  rewrite Hc in Hc'. cbn in Hc'.
  assert (Hhh : (hi <=? hi) = true).
  { rewrite leb_spec. unfold SFleb.
    rewrite SFcompare_refl; [done|by apply is_nan_false]. }
  assert (Hxh : c <> Gt -> (x <=? hi) = true).
  { intros Hgt. rewrite leb_spec. unfold SFleb. rewrite Hc. by destruct c. }
  rewrite !ltb_spec. unfold SFltb. rewrite Hc, Hc'.
  destruct c; cbv iota beta delta [CompOpp].
  - destruct (get_sign x); repeat split; auto.
  - repeat split; auto.
  - repeat split; auto.
Qed.

(** The argument handed to the arccosine lies in [-1, 1] whenever the dot
    product is a number. *)
Lemma clamped_dot_range (dir : array) :
  is_nan (vec3.dot Barbell.up dir) = false ->
  is_nan (Barbell.clamped_dot dir) = false /\
  (-1 <=? Barbell.clamped_dot dir) = true /\
  (Barbell.clamped_dot dir <=? 1) = true.
Proof.
  intros Hd. unfold Barbell.clamped_dot.
  destruct (Math_max_ge (vec3.dot Barbell.up dir) (-1) Hd eq_refl)
    as [Hm Hge].
  by apply Math_min_range.
Qed.

End Clamp.

(** ** The guards around the rotation [drawBarbell] applies *)

Section RotationGuards.
Context `{MathHost}.
Import Barbell.
Local Open Scope float_scope.

(** The normalized cross product is used only when its length exceeds
    1e-5, and then with the clamped arccosine; a short or undefined cross
    product with a negative dot product gives the half turn about +X; in
    every other case no rotation is applied. *)
Lemma barbell_rotation_cases (f : frame) :
  ((1e-5 <? axisLen f) = true /\
   barbell_rotation f
   = Some (Math_acos (clamped_dot (dir f)),
           vec3.scale (axis f) (1 / axisLen f))) \/
  ((1e-5 <? axisLen f) = false /\ (vec3.dot up (dir f) <? 0) = true /\
   barbell_rotation f = Some (Number.Math_PI, [1; 0; 0])) \/
  ((1e-5 <? axisLen f) = false /\ (vec3.dot up (dir f) <? 0) = false /\
   barbell_rotation f = None).
Proof.
  unfold barbell_rotation.
  destruct (1e-5 <? axisLen f); [by left|].
  destruct (vec3.dot up (dir f) <? 0); [right; left|right; right]; done.
Qed.

(** On a host whose arccosine is a number on [-1, 1], the angle of the
    rotation is a number whenever the dot product is. *)
Lemma barbell_rotation_angle (f : frame) (ang : float) (ax : array) :
  (forall x, (-1 <=? x) = true -> (x <=? 1) = true ->
             is_nan (Math_acos x) = false) ->
  is_nan (vec3.dot up (dir f)) = false ->
  barbell_rotation f = Some (ang, ax) -> is_nan ang = false.
Proof.
  intros Hacos Hdot Hrot.
  destruct (clamped_dot_range (dir f) Hdot) as (_ & Hlo & Hhi).
  destruct (barbell_rotation_cases f)
    as [[_ E]|[(_ & _ & E)|(_ & _ & E)]]; rewrite E in Hrot.
  - injection Hrot as <- _. by apply Hacos.
  - by injection Hrot as <- _.
  - discriminate.
Qed.

End RotationGuards.


(** ** The running gait: the knee follows the hip *)

Section Gait.
Context `{MathHost}.
Import Running.
Local Open Scope float_scope.

(** The knee angle as a function of the leg's phase and hip angle. *)
Definition knee_of (phase hipAngle : float) : float :=
  if 0 <? phase then - (hipAngle + Number.Math_PI / 4) else 0.

(** The hip angle as a function of the leg's phase: a small swing behind,
    a large one in front. *)
Definition hip_of (phase : float) : float :=
  if phase <? 0 then phase * (Number.Math_PI / 12)
  else phase * (Number.Math_PI / 2).

Lemma render_animations_legs (time : float) :
  let a := render_animations time in
  obj_get "leftHipAngle" a = Some (hip_of (leftLegPhase time)) /\
  obj_get "rightHipAngle" a = Some (hip_of (rightLegPhase time)) /\
  obj_get "leftKneeAngle" a
    = Some (knee_of (leftLegPhase time) (hip_of (leftLegPhase time))) /\
  obj_get "rightKneeAngle" a
    = Some (knee_of (rightLegPhase time) (hip_of (rightLegPhase time))).
Proof. repeat split. Qed.

(** C7.  Knee dependency in the cyclic gait.  At every frame time and for
    each leg, the knee angle handed to [drawCharacter] is the function
    [knee_of] of that leg's sine phase and of the hip angle of the same
    frame: minus (hip angle + pi/4) while the phase is positive, and 0
    when the phase is at or below zero. *)
Theorem knee_follows_hip (time : float) :
  let a := render_animations time in
  (exists hipL hipR,
     obj_get "leftHipAngle" a = Some hipL /\
     obj_get "rightHipAngle" a = Some hipR /\
     obj_get "leftKneeAngle" a = Some (knee_of (leftLegPhase time) hipL) /\
     obj_get "rightKneeAngle" a = Some (knee_of (rightLegPhase time) hipR)) /\
  (forall phase hip,
     ((0 <? phase) = true -> knee_of phase hip = - (hip + Number.Math_PI / 4)) /\
     ((phase <=? 0) = true -> knee_of phase hip = 0)).
Proof.
  cbv zeta. split.
  - destruct (render_animations_legs time) as (HL & HR & KL & KR).
    exists (hip_of (leftLegPhase time)), (hip_of (rightLegPhase time)).
    by rewrite HL, HR, KL, KR.
  - intros phase hip. unfold knee_of. split.
    + by intros ->.
    + intros Hle. by rewrite (leb_not_gt _ _ Hle).
Qed.

End Gait.

(** ** The pose generator on binary64 *)

Section VolleyballFloat.
Import Volleyball.
Local Open Scope float_scope.

(** The constants are the doubles the source's literals denote. *)
Lemma volleyball_constants :
  @SX_START float _ = -0.3 /\ @SX_END float _ = 0.3 /\
  @DURATION float _ = 1000 /\
  @SHOULDER_LIMIT float _ = -160 * Number.Math_PI / 180 /\
  prop (@startPose float _) "RIGHT_SHOULDER" = -80 * Number.Math_PI / 180 /\
  prop (@endPose float _) "RIGHT_SHOULDER" = -310 * Number.Math_PI / 180.
Proof. repeat split. Qed.

Lemma blend_fields (t : float) :
  blend t
  = map (fun k => (k, lerp (prop startPose k) (prop endPose k) t))
      (obj_keys (@startPose float _)).
Proof. reflexivity. Qed.

(** C6.  Conditional sub-interpolation gating.  For every [t], with [sh]
    the interpolated RIGHT_SHOULDER: while [sh] is above SHOULDER_LIMIT,
    RIGHT_ELBOW = lerp(startPose.RIGHT_ELBOW, 0, k) and
    RIGHT_ARM_SX = lerp(SX_START, SX_END, k) with the unclamped fraction
    k = (sh - startPose.RIGHT_SHOULDER)
        / (SHOULDER_LIMIT - startPose.RIGHT_SHOULDER);
    once [sh] is at or below SHOULDER_LIMIT both are held at their end
    values, RIGHT_ELBOW = 0 and RIGHT_ARM_SX = SX_END. *)
Theorem gated_secondary_interpolation (t : float) :
  let sh := lerp (prop startPose "RIGHT_SHOULDER")
              (prop endPose "RIGHT_SHOULDER") t in
  let k := (sh - prop startPose "RIGHT_SHOULDER")
           / (SHOULDER_LIMIT - prop startPose "RIGHT_SHOULDER") in
  let p := interpolatePose t in
  obj_get "RIGHT_SHOULDER" p = Some sh /\
  ((SHOULDER_LIMIT <? sh) = true ->
     obj_get "RIGHT_ELBOW" p = Some (lerp (prop startPose "RIGHT_ELBOW") 0 k) /\
     obj_get "RIGHT_ARM_SX" p = Some (lerp SX_START SX_END k)) /\
  ((sh <=? SHOULDER_LIMIT) = true ->
     obj_get "RIGHT_ELBOW" p = Some 0 /\
     obj_get "RIGHT_ARM_SX" p = Some SX_END).
Proof.
  cbv zeta.
  assert (Hsh : prop (blend t) "RIGHT_SHOULDER"
                = lerp (prop startPose "RIGHT_SHOULDER")
                    (prop endPose "RIGHT_SHOULDER") t) by reflexivity.
  unfold interpolatePose. cbv zeta. rewrite Hsh.
  change (@num_lt float float_JSNum) with PrimFloat.ltb.
  split; [|split].
  - by destruct (_ <? _).
  - intros ->. by split.
  - intros Hle. rewrite (leb_not_gt _ _ Hle). by split.
Qed.

(** A pose reproduces another when it has each of its fields, with the
    same value. *)
Definition reproduces {N : Type} (p q : obj N) : Prop :=
  forall k v, obj_get k q = Some v -> obj_get k p = Some v.

(** Fields equal as rationals. *)
Definition pose_Qeq (p q : obj Q) : Prop :=
  Forall2 (fun a b => a.1 = b.1 /\ (a.2 == b.2)%Q) p q.

(** C4 as stated fails at the end pose: in binary64,
    [deg(30) + (deg(-20) - deg(30)) * 1] is -0.34906585039886584, one unit
    in the last place above [deg(-20)] = -0.3490658503988659, and
    [pose.BODY_LEAN_Z === endPose.BODY_LEAN_Z] is false. *)
Lemma interpolatePose_1_is_not_endPose :
  prop (@interpolatePose float _ 1) "BODY_LEAN_Z" = -0.34906585039886584 /\
  prop (@endPose float _) "BODY_LEAN_Z" = -0.3490658503988659 /\
  num_seq (prop (@interpolatePose float _ 1) "BODY_LEAN_Z")
    (prop (@endPose float _) "BODY_LEAN_Z") = false /\
  ~ reproduces (@interpolatePose float _ 1) endPose.
Proof.
  split; [by vm_compute|]. split; [by vm_compute|]. split; [by vm_compute|].
  intros Hall.
  specialize (Hall "BODY_LEAN_Z" (prop (@endPose float _) "BODY_LEAN_Z") eq_refl).
  apply (f_equal (fun o => match o with
                           | Some x => x =? -0.3490658503988659
                           | None => false
                           end)) in Hall.
  vm_compute in Hall. discriminate.
Qed.

(** C4, amended.  Pose interpolation boundary.  [interpolatePose(0)] is
    the start pose, field for field, with the gated RIGHT_ELBOW at its start
    value and RIGHT_ARM_SX = SX_START.  [interpolatePose(1)] has
    RIGHT_ELBOW = 0 = endPose.RIGHT_ELBOW, RIGHT_ARM_SX = SX_END and every
    other field equal to the endPose field up to the rounding of
    [start + (end - start)]: exactly so for all fields but BODY_LEAN_Z,
    RIGHT_HIP and LEFT_KNEE, which land on the neighbouring double (one
    unit in the last place above, above and below the endPose value).
    Computed without rounding, both boundary poses are reproduced in every
    field.  The barbell lift's [interpolatePose], which has no gate,
    reproduces its start and end poses exactly in binary64, with
    RIGHT_ARM_SX and RIGHT_HIP_SX at their start and end values. *)
Theorem interpolatePose_boundary :
  @interpolatePose float _ 0 = startPose ++ [("RIGHT_ARM_SX", SX_START)] /\
  @interpolatePose float _ 1
  = obj_set "LEFT_KNEE" (next_down (prop endPose "LEFT_KNEE"))
      (obj_set "RIGHT_HIP" (next_up (prop endPose "RIGHT_HIP"))
         (obj_set "BODY_LEAN_Z" (next_up (prop endPose "BODY_LEAN_Z"))
            endPose))
    ++ [("RIGHT_ARM_SX", SX_END)] /\
  pose_Qeq (interpolatePose 0%Q) (startPose ++ [("RIGHT_ARM_SX", SX_START)]) /\
  pose_Qeq (interpolatePose 1%Q) (endPose ++ [("RIGHT_ARM_SX", SX_END)]) /\
  @Barbell.interpolatePose float _ 0
  = Barbell.startPose ++ [("RIGHT_ARM_SX", Barbell.ARM_SX_START);
                          ("RIGHT_HIP_SX", Barbell.LEG_SX_START)] /\
  @Barbell.interpolatePose float _ 1
  = Barbell.endPose ++ [("RIGHT_ARM_SX", Barbell.ARM_SX_END);
                        ("RIGHT_HIP_SX", Barbell.LEG_SX_END)].
Proof.
  split; [by vm_compute|]. split; [by vm_compute|].
  split; [|split; [|split; by vm_compute]].
  - vm_compute. repeat (constructor; [split; [reflexivity|by vm_compute] |]).
    constructor.
  - vm_compute. repeat (constructor; [split; [reflexivity|by vm_compute] |]).
    constructor.
Qed.

End VolleyballFloat.

(** ** The ping-pong time folding *)

Section PingPong.
Import Volleyball.


(** Where no rounding occurs the fold is symmetric in binary64 too. *)
Example render_t_mirror_quarter :
  @render_t float _ 250%float = 0.25%float /\
  @render_t float _ (2 * 1000 - 250)%float = 0.25%float /\
  @render_t float _ 0%float = @render_t float _ 2000%float /\
  @render_t float _ 1000%float = 1%float.
Proof. repeat split; by vm_compute. Qed.

Local Open Scope Q_scope.

Lemma Qfloor_unique (z : Z) (x : Q) :
  inject_Z z <= x -> x < inject_Z z + 1 -> Qfloor x = z.
Proof.
  intros Hlo Hhi. change 1 with (inject_Z 1) in Hhi. rewrite <- inject_Z_plus in Hhi.
  pose proof (Qfloor_le x) as Hf1. pose proof (Qlt_floor x) as Hf2.
  assert (H1 : (Qfloor x < z + 1)%Z).
  { rewrite Zlt_Qlt. eapply Qle_lt_trans; [exact Hf1|exact Hhi]. }
  assert (H2 : (z < Qfloor x + 1)%Z).
  { rewrite Zlt_Qlt. eapply Qle_lt_trans; [exact Hlo|exact Hf2]. }
  lia.
Qed.

(** The fold of an elapsed time, once the cycle it falls in is known. *)
Lemma render_t_cycle (elapsed : Q) (z : Z) :
  Qfloor (elapsed / 1000) = z ->
  @render_t Q _ elapsed
  = if Qeq_bool (Q_rem (inject_Z z) 2) 1
    then 1 - (elapsed / 1000 - inject_Z z)
    else elapsed / 1000 - inject_Z z.
Proof. intros <-. reflexivity. Qed.



(** *** Poses that are equal as rationals *)

Lemma lerp_Qeq (a a' b b' t t' : Q) :
  a == a' -> b == b' -> t == t' -> lerp a b t == lerp a' b' t'.
Proof.
  intros Ha Hb Ht. unfold lerp. cbn [num_add num_sub num_mul Q_JSNum].
  by rewrite Ha, Hb, Ht.
Qed.

Lemma pose_Qeq_refl (p : obj Q) : pose_Qeq p p.
Proof. induction p as [|[k v] p IH]; constructor; [by split|done]. Qed.






End PingPong.


(** ** The derived-prop placer on two hands one unit either side of x = 0 *)

(** The image of [v] under the right-handed rotation about the unit vector
    [u] by an angle of cosine [c] and sine [s] (Rodrigues' formula, the
    matrix [mat4.rotate] multiplies by). *)
Definition turned (c s : float) (u v : array) : array :=
  let x := idx u 0 in let y := idx u 1 in let z := idx u 2 in
  let t := (1 - c)%float in
  [ ((x * x * t + c) * idx v 0 + (x * y * t - z * s) * idx v 1
     + (x * z * t + y * s) * idx v 2)%float;
    ((y * x * t + z * s) * idx v 0 + (y * y * t + c) * idx v 1
     + (y * z * t - x * s) * idx v 2)%float;
    ((z * x * t - y * s) * idx v 0 + (z * y * t + x * s) * idx v 1
     + (z * z * t + c) * idx v 2)%float ].

Section BarbellScenario.
Context `{GlMatrix} `{MathHost}.
Import Barbell.
Local Open Scope float_scope.

Lemma barbellFrame_hands (L R : array) :
  idx L 12 = -1 -> idx L 13 = 1 -> idx L 14 = 0 ->
  idx R 12 = 1 -> idx R 13 = 1 -> idx R 14 = 0 ->
  barbellFrame L R
  = {| mid := [0; 1; 0]; len := 2; dir := [1; 0; 0];
       axis := [0; 0; -1]; axisLen := 1 |}.
Proof.
  intros L12 L13 L14 R12 R13 R14. unfold barbellFrame.
  rewrite L12, L13, L14, R12, R13, R14. by vm_compute.
Qed.

(** C9.  Derived-prop placer, concrete scenario.  Given a left-hand world
    transform whose translation column is (-1, 1, 0) and a right-hand one
    whose translation column is (1, 1, 0), on a host whose arccosine of 0 is
    pi/2, [drawBarbell] computes mid = (0, 1, 0), length = 2 and
    dir = (1, 0, 0); the cross product of +Y and dir is (0, 0, -1), of
    length 1, so it rotates by pi/2 = 90 degrees about the unit axis
    (0, 0, -1), the Z axis in the sense that carries +Y onto +X; and it
    applies that rotation after the translation to mid and before the
    scale by (1, 2, 1) under which the bar is drawn. *)
Theorem barbell_between_level_hands (L R : array) (w : world) :
  idx L 12 = -1 -> idx L 13 = 1 -> idx L 14 = 0 ->
  idx R 12 = 1 -> idx R 13 = 1 -> idx R 14 = 0 ->
  Math_acos 0 = Number.Math_PI / 2 ->
  wf w ->
  let f := barbellFrame L R in
  let quarter := Number.Math_PI / 2 in
  mid f = [0; 1; 0] /\ len f = 2 /\ dir f = [1; 0; 0] /\
  axis f = [0; 0; -1] /\ axisLen f = 1 /\
  barbell_rotation f = Some (quarter, [0; 0; -1]) /\
  quarter = 90 * Number.Math_PI / 180 /\
  turned 0 1 [0; 0; -1] up = dir f /\
  exists w',
    drawBarbell L R w = Ok tt w' /\
    gl w' = gl w ++
      [ Draw "barVAO"
          (scaled (rotated (translated (current_matrix w) [0; 1; 0])
                     quarter [0; 0; -1])
             [1; 2; 1]);
        Draw "plateVAO"
          (translated (rotated (translated (current_matrix w) [0; 1; 0])
                         quarter [0; 0; -1])
             [0; 1.95; 0]);
        Draw "plateVAO"
          (translated (rotated (translated (current_matrix w) [0; 1; 0])
                         quarter [0; 0; -1])
             [0; -1.95; 0]) ].
Proof.
  intros L12 L13 L14 R12 R13 R14 Hacos Hw. cbv zeta.
  pose proof (barbellFrame_hands L R L12 L13 L14 R12 R13 R14) as Hf.
  assert (Hrot : barbell_rotation (barbellFrame L R)
                 = Some (Number.Math_PI / 2, [0; 0; -1])).
  { rewrite Hf. unfold barbell_rotation. cbn [axisLen dir axis].
    change (1e-5 <? 1) with true. cbv iota.
    change (clamped_dot [1; 0; 0]) with 0. rewrite Hacos.
    change (vec3.scale [0; 0; -1] (1 / 1)) with [0; 0; -1]. reflexivity. }
  rewrite Hf at 1 2 3 4 5. cbn [mid len dir axis axisLen].
  do 5 (split; [reflexivity|]). split; [exact Hrot|].
  split; [by vm_compute|]. split; [rewrite Hf; by vm_compute|].
  destruct (drawBarbell_spec _ _ _ L R w (at_view_here w Hw))
    as ([] & w' & E & _ & _ & _ & HT).
  exists w'. split; [exact E|]. rewrite HT. f_equal.
  unfold barbell_draws, oriented. rewrite Hrot, Hf. cbn [mid len].
  repeat f_equal; by vm_compute.
Qed.

End BarbellScenario.

(** Two hand matrices of the scenario: pure translations. *)
Definition left_hand_sample : array :=
  [1; 0; 0; 0;  0; 1; 0; 0;  0; 0; 1; 0;  -1; 1; 0; 1]%float.
Definition right_hand_sample : array :=
  [1; 0; 0; 0;  0; 1; 0; 0;  0; 0; 1; 0;  1; 1; 0; 1]%float.

Lemma barbell_between_level_hands_witness :
  wf MatrixStack_new /\
  @Math_acos host_sample 0%float = (Number.Math_PI / 2)%float /\
  @barbell_rotation host_sample
    (@Barbell.barbellFrame host_sample left_hand_sample right_hand_sample)
  = Some ((Number.Math_PI / 2)%float, [0; 0; -1]%float).
Proof.
  split; [apply wf_new|]. split; [reflexivity|].
  refine (proj1 (proj2 (proj2 (proj2 (proj2 (proj2
            (@barbell_between_level_hands gl_matrix_sample host_sample
               left_hand_sample right_hand_sample MatrixStack_new
               _ _ _ _ _ _ _ wf_new)))))));
    reflexivity.
Defined.

(* ================================================================== *)
(** * Part III. Further properties of the code                          *)
(* ================================================================== *)

(** ** Scopes *)

(** Client code of the stack: a transform of the current matrix, a draw,
    or a scope, [push()], a body, [pop()]. *)
#[local] Unset Elimination Schemes.
Inductive scoped : Type :=
| Transform (c : call)
| Shape (vao : string)
| Scope (body : list scoped).
#[local] Set Elimination Schemes.

Section Scoped.
Context `{GlMatrix}.

Fixpoint run_scoped (p : scoped) : M unit :=
  match p with
  | Transform c => run_call c
  | Shape vao => drawGeometry vao
  | Scope body =>
      push;;
      (fix block (l : list scoped) : M unit :=
         match l with
         | [] => mret tt
         | q :: r => run_scoped q;; block r
         end) body;;
      pop
  end.

Fixpoint run_block (l : list scoped) : M unit :=
  match l with
  | [] => mret tt
  | q :: r => run_scoped q;; run_block r
  end.

(** The transforms of a block that are outside every scope of it. *)
Fixpoint outer_calls (l : list scoped) : list call :=
  match l with
  | [] => []
  | Transform c :: r => c :: outer_calls r
  | _ :: r => outer_calls r
  end.

Lemma run_scoped_scope body :
  run_scoped (Scope body) = (push;; run_block body;; pop).
Proof.
  reflexivity.
Qed.

Lemma calls_value_cons k cs c :
  calls_value (k :: cs) c = calls_value cs (call_value k c).
Proof. reflexivity. Qed.

Lemma run_scoped_spec :
  forall p S c T, exists T',
    hoare (at_view S c T) (run_scoped p)
      (fun _ => at_view S (calls_value (outer_calls [p]) c) T').
Proof.
  fix IH 1. intros [k|vao|body] S c T.
  - exists T. cbn [run_scoped outer_calls].
    destruct k; cbn [run_call]; unfold translate, rotate, scale; hoare_rule.
  - exists (T ++ [Draw vao c]). cbn [run_scoped outer_calls]. hoare_rule.
  - rewrite run_scoped_scope. cbn [outer_calls].
    assert (Hblock : forall l c' T0, exists T',
              hoare (at_view (S ++ [c]) c' T0) (run_block l)
                (fun _ => at_view (S ++ [c]) (calls_value (outer_calls l) c') T')).
    { clear -IH. induction l as [|q r IHr]; intros c' T0.
      - exists T0. apply hoare_ret_view.
      - destruct (IH q (S ++ [c]) c' T0) as [T1 H1].
        destruct (IHr (calls_value (outer_calls [q]) c') T1) as [T2 H2].
        exists T2. cbn [run_block]. eapply hoare_bind; [exact H1|].
        intros ?. eapply hoare_consequence; [exact H2|done|].
        intros ? w Hw. destruct q; exact Hw. }
    destruct (Hblock body c T) as [T' Hb]. exists T'.
    eapply hoare_bind; [apply push_spec|]. intros ?.
    eapply hoare_bind; [exact Hb|]. intros ?. apply pop_spec.
Qed.

Lemma run_block_spec l S c T :
  exists T',
    hoare (at_view S c T) (run_block l)
      (fun _ => at_view S (calls_value (outer_calls l) c) T').
Proof.
  revert c T. induction l as [|q r IHr]; intros c T.
  - exists T. apply hoare_ret_view.
  - destruct (run_scoped_spec q S c T) as [T1 H1].
    destruct (IHr (calls_value (outer_calls [q]) c) T1) as [T2 H2].
    exists T2. cbn [run_block]. eapply hoare_bind; [exact H1|].
    intros ?. eapply hoare_consequence; [exact H2|done|].
    intros ? w Hw. destruct q; exact Hw.
Qed.

(** X1.  Scopes do not leak.  Any client code made of transforms of the
    current matrix, draws and scopes ([push()], a body of the same kind,
    [pop()]), nested to any depth, runs to its end on a well-formed stack
    without throwing; it leaves the saved history as it was, and the
    current matrix is the one before with only the transforms that stand
    outside every scope applied to it, in order. *)
Theorem scopes_do_not_leak (w : world) (l : list scoped) :
  wf w ->
  exists w',
    run_block l w = Ok tt w' /\ wf w' /\
    saved w' = saved w /\ depth w' = depth w /\
    current_matrix w' = calls_value (outer_calls l) (current_matrix w).
Proof.
  intros Hw. destruct (run_block_spec l (saved w) (current_matrix w) (gl w))
    as [T' Hl].
  destruct (Hl w (at_view_here w Hw)) as ([] & w' & E & Hw' & HS & Hc & _).
  exists w'. do 3 (split; [done|]). split; [|done].
  apply (f_equal length) in HS. unfold saved in HS.
  by rewrite !length_map in HS.
Qed.

End Scoped.

Lemma scopes_do_not_leak_witness :
  wf MatrixStack_new /\
  exists w',
    @run_block gl_matrix_sample
      [Transform (CallTranslate [1; 0; 0]%float);
       Scope [Transform (CallScale [2; 2; 2]%float); Shape "cubeVAO";
              Scope [Transform CallLoadIdentity; Shape "sphereVAO"]];
       Shape "cubeVAO"] MatrixStack_new = Ok tt w' /\
    depth w' = 0 /\
    current_matrix w'
    = @translated gl_matrix_sample mat4_identity_value [1; 0; 0]%float.
Proof.
  split; [apply wf_new|].
  destruct (@scopes_do_not_leak gl_matrix_sample MatrixStack_new
    [Transform (CallTranslate [1; 0; 0]%float);
       Scope [Transform (CallScale [2; 2; 2]%float); Shape "cubeVAO";
              Scope [Transform CallLoadIdentity; Shape "sphereVAO"]];
       Shape "cubeVAO"] wf_new) as (w' & E & _ & _ & Hd & Hc).
  exists w'. split; [exact E|]. split; [exact Hd|exact Hc].
Defined.

(** ** Pushes and pops in any order *)

Inductive stack_op : Type :=
| OpPush
| OpPop
| OpCall (c : call).

Section StackOps.
Context `{GlMatrix}.

Definition run_op (o : stack_op) : M unit :=
  match o with
  | OpPush => push
  | OpPop => pop
  | OpCall c => run_call c
  end.

(** The depth a run of operations ends at when started at depth [d], if no
    [pop] in it meets an empty history. *)
Fixpoint depth_after (d : nat) (ops : list stack_op) : option nat :=
  match ops with
  | [] => Some d
  | OpPush :: r => depth_after (S d) r
  | OpPop :: r => match d with O => None | S d' => depth_after d' r end
  | OpCall _ :: r => depth_after d r
  end.

Lemma pop_empty (w : world) :
  depth w = 0 -> pop w = Throw "Stack underflow".
Proof.
  unfold depth, pop, this_stack, mbind, M_bind. intros E.
  destruct (stack (stk w)); [done|discriminate].
Qed.

Lemma op_keeps_wf (o : stack_op) (w : world) :
  wf w -> (o = OpPop -> depth w <> 0) ->
  exists w', run_op o w = Ok tt w' /\ wf w' /\
    depth w' = match o with
               | OpPush => S (depth w)
               | OpPop => pred (depth w)
               | OpCall _ => depth w
               end.
Proof.
  intros Hw Hpop. pose proof (at_view_here w Hw) as Hv.
  assert (Hlen : forall w' S', saved w' = S' -> depth w' = length S').
  { intros w' S' <-. unfold saved, depth. by rewrite length_map. }
  destruct o as [| |k]; cbn [run_op].
  - destruct (push_spec _ _ _ w Hv) as ([] & w' & E & Hw' & HS & _).
    exists w'. split; [done|]. split; [done|].
    rewrite (Hlen _ _ HS), length_app, (Hlen w _ eq_refl). cbn. lia.
  - destruct (saved w) as [|x S _] eqn:ES using rev_ind.
    { exfalso. apply Hpop; [done|]. by rewrite (Hlen w _ ES). }
    destruct (pop_spec _ _ _ _ w Hv) as ([] & w' & E & Hw' & HS & _).
    exists w'. split; [done|]. split; [done|].
    rewrite (Hlen _ _ HS), (Hlen w _ ES), length_app. cbn. lia.
  - destruct (run_calls_spec _ _ _ [k] w Hv) as ([] & w' & E & Hw' & HS & _).
    exists w'. split.
    + rewrite <- E. cbn [run_calls]. unfold mbind, M_bind.
      by destruct (run_call k w) as [[] ?|].
    + split; [done|]. by rewrite (Hlen _ _ HS), (Hlen w _ eq_refl).
Qed.

(** X2.  The stack fails exactly as a depth counter does.  A run of
    [push()], [pop()] and transform calls, in any order, from a
    well-formed stack of depth [d]: if every [pop()] finds the count of
    pushes so far plus [d] above the count of pops before it, the run
    returns and the depth is [d] + pushes - pops; otherwise it throws
    "Stack underflow". *)
Theorem underflow_iff_pops_outnumber_pushes (w : world) (ops : list stack_op) :
  wf w ->
  match depth_after (depth w) ops with
  | Some d =>
      exists w', forEach ops run_op w = Ok tt w' /\ wf w' /\ depth w' = d
  | None => forEach ops run_op w = Throw "Stack underflow"
  end.
Proof.
  revert w. induction ops as [|o r IH]; intros w Hw; cbn [depth_after forEach].
  - by exists w.
  - destruct o as [| |k].
    + destruct (op_keeps_wf OpPush w Hw) as (w1 & E & Hw1 & Hd); [done|].
      unfold mbind, M_bind. rewrite E, <- Hd.
      by apply IH.
    + destruct (depth w) as [|d] eqn:Ed.
      * unfold mbind, M_bind. cbn [run_op]. by rewrite pop_empty.
      * destruct (op_keeps_wf OpPop w Hw) as (w1 & E & Hw1 & Hd); [lia|].
        unfold mbind, M_bind. rewrite E.
        rewrite Ed in Hd. cbn in Hd. rewrite <- Hd. by apply IH.
    + destruct (op_keeps_wf (OpCall k) w Hw) as (w1 & E & Hw1 & Hd); [done|].
      unfold mbind, M_bind. rewrite E, <- Hd.
      by apply IH.
Qed.

End StackOps.

Lemma underflow_iff_pops_outnumber_pushes_witness :
  wf MatrixStack_new /\
  @forEach stack_op [OpPush; OpPop; OpPop; OpPush] (@run_op gl_matrix_sample)
    MatrixStack_new = Throw "Stack underflow".
Proof.
  split; [apply wf_new|].
  exact (@underflow_iff_pops_outnumber_pushes gl_matrix_sample MatrixStack_new
           [OpPush; OpPop; OpPop; OpPush] wf_new).
Defined.

(** ** References and copies *)

Section Aliasing.
Context `{GlMatrix}.

Lemma run_call_world (k : call) (w : world) :
  run_call k w
  = Ok tt {| heap := <[current (stk w)
                       := call_value k (deref w (current (stk w)))]> (heap w);
             stk := stk w; gl := gl w |}.
Proof. by destruct k. Qed.

Lemma run_calls_world (cs : list call) (w : world) :
  current (stk w) < length (heap w) ->
  exists w',
    run_calls cs w = Ok tt w' /\ stk w' = stk w /\ gl w' = gl w /\
    length (heap w') = length (heap w) /\
    deref w' (current (stk w))
    = calls_value cs (deref w (current (stk w))) /\
    forall r, r <> current (stk w) -> deref w' r = deref w r.
Proof.
  revert w. induction cs as [|k cs IH]; intros w Hcur.
  - exists w. by repeat split.
  - cbn [run_calls]. unfold mbind, M_bind. rewrite run_call_world.
    set (w1 := {| heap := _; stk := stk w; gl := gl w |}).
    destruct (IH w1) as (w' & E & Hs & Hg & Hl & Hc & Ho).
    { subst w1; cbn. by rewrite length_insert. }
    exists w'. split; [exact E|]. split; [exact Hs|]. split; [exact Hg|].
    split; [|split].
    + rewrite Hl. subst w1; cbn. by rewrite length_insert.
    + change (current (stk w1)) with (current (stk w)) in Hc. rewrite Hc.
      rewrite calls_value_cons. f_equal. subst w1. unfold deref; cbn.
      by apply lookup_write_same.
    + intros r Hr. rewrite (Ho r Hr). subst w1. unfold deref; cbn.
      apply lookup_write_other. congruence.
Qed.

(** X3.  [getCurrentMatrix()] hands out the live matrix:
    read after later [translate] / [rotate] / [scale] / [loadIdentity] calls
    it shows their result, whereas [mat4.clone(stk.getCurrentMatrix())]
    still reads the matrix of the moment it was taken (which is why [arm]
    clones the hand's matrix before it pops). *)
Theorem getCurrentMatrix_is_live_and_clone_is_not (w : world) (cs : list call) :
  wf w ->
  (exists w',
     (r ← getCurrentMatrix; run_calls cs;; read r) w
     = Ok (calls_value cs (current_matrix w)) w') /\
  (exists w',
     (r ← mat4_clone getCurrentMatrix; run_calls cs;; read r) w
     = Ok (current_matrix w) w').
Proof.
  intros [_ Hin]. apply Forall_cons in Hin as [Hcur _]. split.
  - destruct (run_calls_world cs w Hcur) as (w' & E & _ & _ & _ & Hc & _).
    exists w'. unfold mbind, M_bind, getCurrentMatrix, this_current, read.
    by rewrite E, Hc.
  - set (w1 := {| heap := heap w ++ [current_matrix w];
                  stk := stk w; gl := gl w |}).
    destruct (run_calls_world cs w1) as (w' & E & _ & _ & _ & _ & Ho).
    { subst w1; cbn. rewrite length_app. lia. }
    exists w'.
    assert (Hrun : (r ← mat4_clone getCurrentMatrix; run_calls cs;; read r) w
                   = match run_calls cs w1 with
                     | Ok _ w2 => Ok (deref w2 (length (heap w))) w2
                     | Throw e => Throw e
                     end) by reflexivity.
    rewrite Hrun, E. f_equal.
    rewrite Ho by (subst w1; cbn; lia).
    subst w1. unfold deref; cbn. by rewrite lookup_alloc_new.
Qed.

End Aliasing.

Lemma getCurrentMatrix_is_live_and_clone_is_not_witness :
  wf MatrixStack_new /\
  exists w',
    (r ← @mat4_clone getCurrentMatrix;
     @run_calls gl_matrix_sample [CallTranslate [1; 2; 3]%float];; read r)
      MatrixStack_new
    = Ok mat4_identity_value w'.
Proof.
  split; [apply wf_new|].
  exact (proj2 (@getCurrentMatrix_is_live_and_clone_is_not gl_matrix_sample
                  MatrixStack_new [CallTranslate [1; 2; 3]%float] wf_new)).
Defined.

(** ** What a routine draws, as a function of the matrix it is entered with *)

(** A stack that holds [c] as its current matrix and nothing else. *)
Definition entered (c : array) : world :=
  {| heap := [c]; stk := {| stack := []; current := 0 |}; gl := [] |}.

(** The calls [m] issues when it is entered with [c], and what it
    returns. *)
Definition draws {A : Type} (m : M A) (c : array) : list event :=
  match m (entered c) with
  | Ok _ w => gl w
  | Throw _ => []
  end.

Definition returned {A : Type} (m : M A) (c : array) : option A :=
  match m (entered c) with
  | Ok a _ => Some a
  | Throw _ => None
  end.

(** The names of the geometries drawn, in order. *)
Definition drawn (T : list event) : list string :=
  flat_map (fun e => match e with Draw vao _ => [vao] | Warn _ => [] end) T.

Lemma at_view_entered (c : array) : at_view [] c [] (entered c).
Proof.
  split; [|done]. split; cbn.
  - apply NoDup_singleton.
  - apply Forall_singleton. lia.
Qed.

Lemma draws_intro {A : Type} (m : M A) (c : array) (D : list event) :
  hoare (at_view [] c []) m (fun _ => at_view [] c ([] ++ D)) ->
  draws m c = D.
Proof.
  intros Hm. destruct (Hm _ (at_view_entered c)) as (a & w & E & _ & _ & _ & HT).
  unfold draws. by rewrite E.
Qed.

Lemma hoare_post_trace {A : Type} (P : world -> Prop) (m : M A) S c T T' :
  hoare P m (fun _ => at_view S c T) -> T = T' ->
  hoare P m (fun _ => at_view S c T').
Proof. by intros Hm <-. Qed.

(** The last step of a routine whose draws are to be named. *)
Ltac hoare_draws :=
  eapply hoare_post_trace;
  [ hoare_rule
  | rewrite <- ?(assoc_L (++)); try reflexivity; f_equal; reflexivity ].

Section FencerDraws.
Context `{GlMatrix}.
Import Fencing.
Local Open Scope float_scope.

Lemma drawBody_draws S c T :
  hoare (at_view S c T) drawBody (fun _ => at_view S c (T ++ draws drawBody c)).
Proof. unfold drawBody, drawCylinder. hoare_run. hoare_draws. Qed.

Lemma drawHead_draws S c T tilt :
  hoare (at_view S c T) (drawHead tilt)
    (fun _ => at_view S c (T ++ draws (drawHead tilt) c)).
Proof. unfold drawHead, drawSphere. hoare_run. hoare_draws. Qed.

Lemma drawArm_draws S c T side shoulder elbow :
  hoare (at_view S c T) (drawArm side shoulder elbow)
    (fun _ => at_view S c (T ++ draws (drawArm side shoulder elbow) c)).
Proof.
  unfold draws, drawArm, drawSphere, drawCylinder. cbv zeta.
  destruct (String.eqb side "right"); hoare_run; hoare_draws.
Qed.

Lemma drawLeg_draws S c T side hip knee :
  hoare (at_view S c T) (drawLeg side hip knee)
    (fun _ => at_view S c (T ++ draws (drawLeg side hip knee) c)).
Proof.
  unfold drawLeg, drawSphere, drawCylinder. cbv zeta. hoare_run. hoare_draws.
Qed.

#[local] Hint Resolve drawBody_draws drawHead_draws drawArm_draws
  drawLeg_draws : stack_rules.

Lemma drawCharacter_draws S c T animations :
  let angle k := Number.or_else (obj_get k animations) 0 in
  hoare (at_view S c T) (drawCharacter animations)
    (fun _ => at_view S c
       (T ++ draws drawBody c
          ++ draws (drawHead (angle "headTilt")) c
          ++ draws (drawArm "left" (angle "leftShoulderAngle")
                      (angle "leftElbowAngle")) c
          ++ draws (drawArm "right" (angle "rightShoulderAngle")
                      (angle "rightElbowAngle")) c
          ++ draws (drawLeg "left" (angle "leftHipAngle")
                      (angle "leftKneeAngle")) c
          ++ draws (drawLeg "right" (angle "rightHipAngle")
                      (angle "rightKneeAngle")) c)).
Proof. unfold drawCharacter. cbv zeta. hoare_run. hoare_draws. Qed.

(** Running a routine on a well-formed world, given its rule. *)
Lemma hoare_run_here {A : Type} (m : M A) (D : array -> list event)
  (w : world) :
  (forall S c T, hoare (at_view S c T) m (fun _ => at_view S c (T ++ D c))) ->
  wf w ->
  exists a w', m w = Ok a w' /\ wf w' /\ saved w' = saved w /\
    current_matrix w' = current_matrix w /\
    gl w' = gl w ++ D (current_matrix w).
Proof.
  intros Hm Hw.
  destruct (Hm _ _ _ w (at_view_here w Hw)) as (a & w' & E & Hw' & HS & Hc & HT).
  by exists a, w'.
Qed.

(** X4.  The parts of the fencer are drawn from one parent frame.  On a
    well-formed stack with current matrix [c], [drawBody], [drawHead],
    [drawArm] and [drawLeg] each issue exactly the draws they issue when
    entered with [c] on an empty stack, whatever is saved below; and
    [drawCharacter] issues the draws of body, head, left arm, right arm,
    left leg, right leg, each as entered with that same [c]: no part sees
    the transforms of the part drawn before it. *)
Theorem fencer_parts_share_the_parent_frame (w : world)
  (animations : obj float) :
  wf w ->
  let c := current_matrix w in
  let angle k := Number.or_else (obj_get k animations) 0 in
  (exists w', drawBody w = Ok tt w' /\ gl w' = gl w ++ draws drawBody c) /\
  (forall tilt, exists w',
     drawHead tilt w = Ok tt w' /\ gl w' = gl w ++ draws (drawHead tilt) c) /\
  (forall side shoulder elbow, exists w',
     drawArm side shoulder elbow w = Ok tt w' /\
     gl w' = gl w ++ draws (drawArm side shoulder elbow) c) /\
  (forall side hip knee, exists w',
     drawLeg side hip knee w = Ok tt w' /\
     gl w' = gl w ++ draws (drawLeg side hip knee) c) /\
  (exists w',
     drawCharacter animations w = Ok tt w' /\
     gl w' = gl w
       ++ draws drawBody c
       ++ draws (drawHead (angle "headTilt")) c
       ++ draws (drawArm "left" (angle "leftShoulderAngle")
                   (angle "leftElbowAngle")) c
       ++ draws (drawArm "right" (angle "rightShoulderAngle")
                   (angle "rightElbowAngle")) c
       ++ draws (drawLeg "left" (angle "leftHipAngle")
                   (angle "leftKneeAngle")) c
       ++ draws (drawLeg "right" (angle "rightHipAngle")
                   (angle "rightKneeAngle")) c).
Proof.
  intros Hw c angle. split; [|split; [|split; [|split]]].
  - destruct (hoare_run_here drawBody (draws drawBody) w)
      as ([] & w' & E & _ & _ & _ & HT); [|done|by eauto].
    intros S c' T. apply drawBody_draws.
  - intros tilt.
    destruct (hoare_run_here (drawHead tilt) (draws (drawHead tilt)) w)
      as ([] & w' & E & _ & _ & _ & HT); [|done|by eauto].
    intros S c' T. apply drawHead_draws.
  - intros side shoulder elbow.
    destruct (hoare_run_here (drawArm side shoulder elbow)
                (draws (drawArm side shoulder elbow)) w)
      as ([] & w' & E & _ & _ & _ & HT); [|done|by eauto].
    intros S c' T. apply drawArm_draws.
  - intros side hip knee.
    destruct (hoare_run_here (drawLeg side hip knee)
                (draws (drawLeg side hip knee)) w)
      as ([] & w' & E & _ & _ & _ & HT); [|done|by eauto].
    intros S c' T. apply drawLeg_draws.
  - destruct (drawCharacter_draws _ _ _ animations w (at_view_here w Hw))
      as ([] & w' & E & _ & _ & _ & HT).
    by exists w'.
Qed.

(** X5.  What [drawArm] of the fencer draws.  Entered with [c]: the
    shoulder sphere, the upper arm, the elbow sphere and the lower arm, each
    scaled inside a scope of its own, so that the frame of the elbow holds
    the two translations and rotations only; and, between elbow and lower
    arm, for the side "right" and no other, the hand sphere and the sword,
    the sword in the hand's frame moved down by jointSize + lowerArmLength
    and free of the hand sphere's scale. *)
Theorem fencer_arm_draws_hand_and_sword (c : array) (side : string)
  (shoulderAngle elbowAngle : float) :
  let sign := if String.eqb side "left" then -1 else 1 in
  let shoulder :=
    rotated (translated c [sign * 0.3; 0.5; sign * 0.3]) shoulderAngle
      [0; 0; 1] in
  let elbow :=
    rotated (translated shoulder [0; - (0.1 + 0.6 + 0.1); 0]) elbowAngle
      [0; 0; 1] in
  let forearm := translated elbow [0; - (0.1 + 0.6 / 2); 0] in
  let hand := translated forearm [0; - (0.6 / 2 + 0.1); 0] in
  draws (drawArm side shoulderAngle elbowAngle) c
  = [ Draw "sphereVAO" (scaled shoulder [0.2; 0.2; 0.2]);
      Draw "cylinderVAO"
        (scaled (translated shoulder [0; - (0.1 + 0.6 / 2); 0])
           [0.15; 0.6; 0.15]);
      Draw "sphereVAO" (scaled elbow [0.18; 0.18; 0.18]) ]
    ++ (if String.eqb side "right" then
          [ Draw "sphereVAO" (scaled hand [HAND_RADIUS; HAND_RADIUS; HAND_RADIUS]);
            Draw "swordVAO" (translated hand [0; - (0.1 + 0.6); 0]) ]
        else [])
    ++ [ Draw "cylinderVAO" (scaled forearm [0.12; 0.6; 0.12]) ].
Proof.
  cbv zeta. unfold draws, drawArm, drawSphere, drawCylinder. cbv zeta.
  destruct (String.eqb side "right"); reflexivity.
Qed.

End FencerDraws.


Lemma fencer_parts_share_the_parent_frame_witness :
  wf MatrixStack_new /\
  exists w',
    @Fencing.drawBody gl_matrix_sample MatrixStack_new = Ok tt w' /\
    gl w' = gl MatrixStack_new
            ++ draws (@Fencing.drawBody gl_matrix_sample)
                 (current_matrix MatrixStack_new).
Proof.
  split; [apply wf_new|].
  exact (proj1 (@fencer_parts_share_the_parent_frame gl_matrix_sample
                  MatrixStack_new [] wf_new)).
Defined.

(** ** A frame of the lunge *)

Section LungeFrame.
Context `{GlMatrix}.
Import Lunge.
Local Open Scope float_scope.

#[local] Hint Resolve drawCharacter_draws : stack_rules.

Lemma lunge_render_spec S c T startTime time :
  let t := render_t startTime time in
  let lean := rotated mat4_identity_value (render_bodyLean t) [1; 0; 0] in
  hoare (at_view S c T) (snd (render startTime time))
    (fun _ => at_view S lean
       (T ++ draws (Fencing.drawCharacter (render_animations t)) lean)).
Proof.
  cbv zeta. unfold render. cbv zeta. cbn [snd]. hoare_run.
  eapply hoare_post_trace; [apply drawCharacter_draws|].
  cbv zeta. rewrite <- ?(assoc_L (++)). f_equal.
Qed.

(** X6.  A frame of the lunge.  Whatever the stack's current matrix was,
    [render(time)] of fencing.js draws the fencer under the identity turned
    about X by the blended body lean: the same 22 draws in the same order
    at every frame (the sword once, after the right hand), the saved
    history untouched, the lean left as the current matrix. *)
Theorem lunge_frame_starts_afresh (w : world) (startTime : option float)
  (time : float) :
  wf w ->
  let t := render_t startTime time in
  let lean := rotated mat4_identity_value (render_bodyLean t) [1; 0; 0] in
  let D := draws (Fencing.drawCharacter (render_animations t)) lean in
  exists w',
    snd (render startTime time) w = Ok tt w' /\
    gl w' = gl w ++ D /\
    drawn D
    = [ "cylinderVAO"; "sphereVAO";
        "sphereVAO"; "cylinderVAO"; "sphereVAO"; "cylinderVAO";
        "sphereVAO"; "cylinderVAO"; "sphereVAO"; "sphereVAO"; "swordVAO";
        "cylinderVAO";
        "sphereVAO"; "cylinderVAO"; "sphereVAO"; "cylinderVAO"; "sphereVAO";
        "sphereVAO"; "cylinderVAO"; "sphereVAO"; "cylinderVAO"; "sphereVAO" ] /\
    length D = 22%nat /\
    saved w' = saved w /\ current_matrix w' = lean.
Proof.
  intros Hw t lean D.
  destruct (lunge_render_spec _ _ _ startTime time w (at_view_here w Hw))
    as ([] & w' & E & _ & HS & Hc & HT).
  exists w'. split; [exact E|]. split; [exact HT|].
  split; [reflexivity|]. split; [reflexivity|]. done.
Qed.

End LungeFrame.


Lemma lunge_frame_starts_afresh_witness :
  wf MatrixStack_new /\
  exists w',
    snd (@Lunge.render gl_matrix_sample None 0%float) MatrixStack_new
    = Ok tt w'.
Proof.
  split; [apply wf_new|].
  destruct (@lunge_frame_starts_afresh gl_matrix_sample MatrixStack_new None
              0%float wf_new) as (w' & E & _).
  exists w'. exact E.
Defined.

(** ** The lifter: the hands and the frame *)

Lemma hoare_ret_value {A : Type} (a v : A) S c T T' :
  a = v -> T = T' ->
  hoare (at_view S c T) (mret a) (fun x w => x = v /\ at_view S c T' w).
Proof. intros <- <- w Hw. by exists a, w. Qed.

Section LifterDraws.
Context `{GlMatrix} `{MathHost}.
Import Barbell.
Local Open Scope float_scope.

(** The frame of a hand: down the arm from the shoulder, with the scale of
    the hand's sphere. *)
Definition hand_frame (c : array) (side : string)
  (shoulder elbow customSX : float) : array :=
  let sg := if String.eqb side "left" then -1 else 1 in
  let atShoulder :=
    rotated (translated c [customSX; 0.5; sg * 0.5]) shoulder [0; 0; 1] in
  let atElbow :=
    rotated (translated atShoulder [0; - (0.1 + 0.6 + 0.1); 0]) elbow
      [0; 0; 1] in
  scaled (translated atElbow [0; - (0.1 + 0.6 + 0.1 * 0.8); 0])
    [0.15; 0.15; 0.15].

Lemma body_draws S c T :
  hoare (at_view S c T) body (fun _ => at_view S c (T ++ draws body c)).
Proof. unfold body, drawCylinder. hoare_run. hoare_draws. Qed.

Lemma head_draws S c T tilt :
  hoare (at_view S c T) (head tilt)
    (fun _ => at_view S c (T ++ draws (head tilt) c)).
Proof. unfold head, drawSphere. hoare_run. hoare_draws. Qed.

Lemma arm_draws S c T side shoulder elbow customSX :
  hoare (at_view S c T) (arm side shoulder elbow customSX)
    (fun hand w =>
       hand = hand_frame c side shoulder elbow customSX /\
       at_view S c (T ++ draws (arm side shoulder elbow customSX) c) w).
Proof.
  unfold arm, drawSphere, drawCylinder. cbv zeta. hoare_run.
  apply hoare_ret_value; [reflexivity|].
  rewrite <- ?(assoc_L (++)). f_equal.
Qed.

Lemma leg_draws S c T side hip knee customSX :
  hoare (at_view S c T) (leg side hip knee customSX)
    (fun _ => at_view S c (T ++ draws (leg side hip knee customSX) c)).
Proof.
  unfold leg, drawSphere, drawCylinder. cbv zeta. hoare_run. hoare_draws.
Qed.

#[local] Hint Resolve body_draws head_draws arm_draws leg_draws : stack_rules.

(** What [character(p)] draws: its parts, each from the matrix the
    character is entered with. *)
Definition character_draws (p : obj float) (c : array) : list event :=
  draws body c
  ++ draws (head (prop p "HEAD_TILT")) c
  ++ draws (arm "left" (prop p "LEFT_SHOULDER") (prop p "LEFT_ELBOW")
              (prop p "RIGHT_ARM_SX")) c
  ++ draws (arm "right" (prop p "RIGHT_SHOULDER") (prop p "RIGHT_ELBOW")
              (prop p "RIGHT_ARM_SX")) c
  ++ draws (leg "left" (prop p "LEFT_HIP") (prop p "LEFT_KNEE")
              (Some (- prop p "RIGHT_HIP_SX"))) c
  ++ draws (leg "right" (prop p "RIGHT_HIP") (prop p "RIGHT_KNEE")
              (obj_get "RIGHT_HIP_SX" p)) c.

(** A pose without [RIGHT_HIP_SX], such as [startPose], leaves the fourth
    argument of the right leg [undefined]: the leg is drawn with the default
    offset 0, its hip at (0, -0.75, 0.25) of the character's frame. *)
Lemma right_leg_default_offset (p : obj float) (c : array) :
  obj_get "RIGHT_HIP_SX" p = None ->
  draws (leg "right" (prop p "RIGHT_HIP") (prop p "RIGHT_KNEE")
           (obj_get "RIGHT_HIP_SX" p)) c
  = draws (leg "right" (prop p "RIGHT_HIP") (prop p "RIGHT_KNEE") (Some 0)) c
  /\ hd_error (draws (leg "right" (prop p "RIGHT_HIP") (prop p "RIGHT_KNEE")
                        (obj_get "RIGHT_HIP_SX" p)) c)
     = Some (Draw "sphereVAO"
               (scaled (rotated (translated c [0; -0.75; 1 * 0.25])
                          (prop p "RIGHT_HIP") [0; 0; 1])
                  [0.25; 0.25; 0.25])).
Proof. intros ->. split; reflexivity. Qed.

Lemma character_spec S c T p :
  hoare (at_view S c T) (character p)
    (fun hands w =>
       hands = (hand_frame c "left" (prop p "LEFT_SHOULDER")
                  (prop p "LEFT_ELBOW") (prop p "RIGHT_ARM_SX"),
                hand_frame c "right" (prop p "RIGHT_SHOULDER")
                  (prop p "RIGHT_ELBOW") (prop p "RIGHT_ARM_SX")) /\
       at_view S c (T ++ character_draws p c) w).
Proof.
  unfold character, character_draws. hoare_run.
  apply hoare_ret_value; [reflexivity|].
  by rewrite <- ?(assoc_L (++)).
Qed.

(** X7.  The hands of the lifter.  [arm] returns the model matrix under
    which it has just drawn the hand sphere, its last draw: the frame
    reached from the matrix it is entered with by the shoulder and elbow
    translations and rotations, the offset of the hand and the hand
    sphere's scale 0.15, and none of the scales of the parts drawn on the
    way; [character] returns that matrix for the left and for the right
    arm, both taken from the matrix [character] is entered with, and draws
    its parts from that matrix; for a pose without [RIGHT_HIP_SX] the right
    leg starts at the default offset 0, its hip sphere at (0, -0.75, 0.25). *)
Theorem lifter_hands_are_the_drawn_hand_spheres (w : world) (p : obj float) :
  wf w ->
  let c := current_matrix w in
  (forall side shoulder elbow customSX,
     let hand := hand_frame c side shoulder elbow customSX in
     exists w',
       arm side shoulder elbow customSX w = Ok hand w' /\
       gl w' = gl w ++ draws (arm side shoulder elbow customSX) c /\
       last (draws (arm side shoulder elbow customSX) c)
       = Some (Draw "sphereVAO" hand) /\
       saved w' = saved w /\ current_matrix w' = c) /\
  (exists w',
     character p w
     = Ok (hand_frame c "left" (prop p "LEFT_SHOULDER") (prop p "LEFT_ELBOW")
             (prop p "RIGHT_ARM_SX"),
           hand_frame c "right" (prop p "RIGHT_SHOULDER")
             (prop p "RIGHT_ELBOW") (prop p "RIGHT_ARM_SX")) w' /\
     gl w' = gl w ++ character_draws p c /\
     saved w' = saved w /\ current_matrix w' = c) /\
  (obj_get "RIGHT_HIP_SX" p = None ->
   hd_error (draws (leg "right" (prop p "RIGHT_HIP") (prop p "RIGHT_KNEE")
                      (obj_get "RIGHT_HIP_SX" p)) c)
   = Some (Draw "sphereVAO"
             (scaled (rotated (translated c [0; -0.75; 1 * 0.25])
                        (prop p "RIGHT_HIP") [0; 0; 1])
                [0.25; 0.25; 0.25]))).
Proof.
  intros Hw c. split; [|split].
  - intros side shoulder elbow customSX hand.
    destruct (arm_draws _ _ _ side shoulder elbow customSX w
                (at_view_here w Hw)) as (a & w' & E & -> & _ & HS & Hc & HT).
    exists w'. split; [exact E|]. split; [exact HT|]. split; [|done].
    reflexivity.
  - destruct (character_spec _ _ _ p w (at_view_here w Hw))
      as (a & w' & E & -> & _ & HS & Hc & HT).
    by exists w'.
  - intros Hn. exact (proj2 (right_leg_default_offset p c Hn)).
Qed.

End LifterDraws.


Lemma lifter_hands_are_the_drawn_hand_spheres_witness :
  wf MatrixStack_new /\
  exists w',
    @Barbell.arm gl_matrix_sample "left" 0%float 0%float 0.2%float
      MatrixStack_new
    = Ok (@hand_frame gl_matrix_sample (current_matrix MatrixStack_new)
            "left" 0%float 0%float 0.2%float) w'.
Proof.
  split; [apply wf_new|].
  destruct (proj1 (@lifter_hands_are_the_drawn_hand_spheres gl_matrix_sample
                     MatrixStack_new [] wf_new)
              "left" 0%float 0%float 0.2%float) as (w' & E & _).
  exists w'. exact E.
Defined.

Section LiftFrame.
Context `{GlMatrix} `{MathHost}.
Import Barbell.
Local Open Scope float_scope.

(** The matrix a frame of the lift or of the spike leaves the stack with:
    the identity, leaned about X, Y and Z. *)
Definition leaned (p : obj float) : array :=
  rotated
    (rotated
       (rotated mat4_identity_value (prop p "BODY_LEAN_X") [1; 0; 0])
       (prop p "BODY_LEAN_Y") [0; 1; 0])
    (prop p "BODY_LEAN_Z") [0; 0; 1].

#[local] Hint Resolve character_spec drawBarbell_spec : stack_rules.

Lemma lift_render_frame_spec S c T t :
  let pose := interpolatePose t in
  let L := hand_frame (leaned pose) "left" (prop pose "LEFT_SHOULDER")
             (prop pose "LEFT_ELBOW") (prop pose "RIGHT_ARM_SX") in
  let R := hand_frame (leaned pose) "right" (prop pose "RIGHT_SHOULDER")
             (prop pose "RIGHT_ELBOW") (prop pose "RIGHT_ARM_SX") in
  hoare (at_view S c T) (Lift.render_frame t)
    (fun _ => at_view S (leaned pose)
       (T ++ character_draws pose (leaned pose)
          ++ barbell_draws (leaned pose) (barbellFrame L R))).
Proof.
  cbv zeta. unfold Lift.render_frame. cbv zeta. hoare_run.
  cbv beta iota. eapply hoare_post_trace; [apply drawBarbell_spec|].
  by rewrite <- ?(assoc_L (++)).
Qed.

(** X8.  A frame of the lift.  Whatever the stack's current matrix was,
    the frame draws the 20 parts of the character under the lean of the
    pose and then the bar and the two plates, placed from the two hand
    matrices of that same frame; nothing but draws is issued (no stack-leak
    warning), 23 in all; the saved history is untouched and the lean is left
    as the current matrix. *)
Theorem lift_frame_starts_afresh (w : world) (t : float) :
  wf w ->
  let pose := interpolatePose t in
  let L := hand_frame (leaned pose) "left" (prop pose "LEFT_SHOULDER")
             (prop pose "LEFT_ELBOW") (prop pose "RIGHT_ARM_SX") in
  let R := hand_frame (leaned pose) "right" (prop pose "RIGHT_SHOULDER")
             (prop pose "RIGHT_ELBOW") (prop pose "RIGHT_ARM_SX") in
  let D := character_draws pose (leaned pose)
           ++ barbell_draws (leaned pose) (barbellFrame L R) in
  exists w',
    Lift.render_frame t w = Ok tt w' /\
    gl w' = gl w ++ D /\
    drawn D = drawn (character_draws pose (leaned pose))
              ++ ["barVAO"; "plateVAO"; "plateVAO"] /\
    length (drawn D) = length D /\ length D = 23%nat /\
    saved w' = saved w /\ current_matrix w' = leaned pose.
Proof.
  intros Hw pose L R D.
  destruct (lift_render_frame_spec _ _ _ t w (at_view_here w Hw))
    as ([] & w' & E & _ & HS & Hc & HT).
  exists w'. split; [exact E|]. split; [exact HT|].
  split; [reflexivity|]. split; [reflexivity|]. split; [reflexivity|]. done.
Qed.

End LiftFrame.

Lemma lift_frame_starts_afresh_witness :
  wf MatrixStack_new /\
  exists w',
    @Lift.render_frame gl_matrix_sample host_sample 0%float MatrixStack_new
    = Ok tt w'.
Proof.
  split; [apply wf_new|].
  destruct (@lift_frame_starts_afresh gl_matrix_sample host_sample
              MatrixStack_new 0%float wf_new) as (w' & E & _).
  exists w'. exact E.
Defined.

(** ** The spiker: the character and the ball *)

Section SpikeDraws.
Context `{GlMatrix}.
Import Spike.
Local Open Scope float_scope.

Lemma spike_body_draws S c T :
  hoare (at_view S c T) body (fun _ => at_view S c (T ++ draws body c)).
Proof. unfold body, drawCylinder. hoare_run. hoare_draws. Qed.

Lemma spike_head_draws S c T tilt :
  hoare (at_view S c T) (head tilt)
    (fun _ => at_view S c (T ++ draws (head tilt) c)).
Proof. unfold head, drawSphere. hoare_run. hoare_draws. Qed.

Lemma spike_arm_draws S c T side shoulder elbow customSX :
  hoare (at_view S c T) (arm side shoulder elbow customSX)
    (fun _ => at_view S c (T ++ draws (arm side shoulder elbow customSX) c)).
Proof.
  unfold arm, drawSphere, drawCylinder. cbv zeta. hoare_run. hoare_draws.
Qed.

Lemma spike_leg_draws S c T side hip knee :
  hoare (at_view S c T) (leg side hip knee)
    (fun _ => at_view S c (T ++ draws (leg side hip knee) c)).
Proof.
  unfold leg, drawSphere, drawCylinder. cbv zeta. hoare_run. hoare_draws.
Qed.

#[local] Hint Resolve spike_body_draws spike_head_draws spike_arm_draws
  spike_leg_draws : stack_rules.

Lemma spike_character_draws S c T p :
  hoare (at_view S c T) (character p)
    (fun _ => at_view S c (T ++ draws (character p) c)).
Proof.
  unfold character. hoare_run. eapply hoare_post_trace; [hoare_rule|].
  rewrite <- ?(assoc_L (++)). f_equal.
Qed.

#[local] Hint Resolve spike_character_draws : stack_rules.

Lemma spike_render_frame_spec S c T t :
  let pose := Volleyball.interpolatePose t in
  hoare (at_view S c T) (render_frame t)
    (fun _ => at_view S (leaned pose)
       (T ++ draws (character pose) (leaned pose)
          ++ [Draw "ballVAO"
                (translated mat4_identity_value (interpolateBall t))])).
Proof.
  cbv zeta. unfold render_frame, drawBall. cbv zeta. hoare_run.
  eapply hoare_post_trace; [hoare_rule|].
  by rewrite <- ?(assoc_L (++)).
Qed.

(** X9.  A frame of the spike.  The 18 parts of the character are drawn
    under the lean of the pose; the ball is drawn last, in the world frame:
    its model matrix is the identity moved by [interpolateBall(t)], with no
    trace of the lean, and after it the lean is the current matrix again;
    the saved history is untouched. *)
Theorem spike_ball_is_drawn_in_world_frame (w : world) (t : float) :
  wf w ->
  let pose := Volleyball.interpolatePose t in
  exists w',
    render_frame t w = Ok tt w' /\
    gl w' = gl w ++ draws (character pose) (leaned pose)
              ++ [Draw "ballVAO"
                    (translated mat4_identity_value (interpolateBall t))] /\
    length (draws (character pose) (leaned pose)) = 18%nat /\
    saved w' = saved w /\ current_matrix w' = leaned pose.
Proof.
  intros Hw pose.
  destruct (spike_render_frame_spec _ _ _ t w (at_view_here w Hw))
    as ([] & w' & E & _ & HS & Hc & HT).
  exists w'. split; [exact E|]. split; [exact HT|]. split; [|done].
  reflexivity.
Qed.

End SpikeDraws.

Lemma spike_ball_is_drawn_in_world_frame_witness :
  wf MatrixStack_new /\
  exists w',
    @Spike.render_frame gl_matrix_sample 1%float MatrixStack_new = Ok tt w'.
Proof.
  split; [apply wf_new|].
  destruct (@spike_ball_is_drawn_in_world_frame gl_matrix_sample
              MatrixStack_new 1%float wf_new) as (w' & E & _).
  exists w'. exact E.
Defined.

(** ** The runner's frame *)

Section RunnerFrame.
Context `{GlMatrix} `{MathHost}.
Import Runner.
Local Open Scope float_scope.

Lemma runner_drawArm_draws S c T side shoulder elbow :
  hoare (at_view S c T) (drawArm side shoulder elbow)
    (fun _ => at_view S c (T ++ draws (drawArm side shoulder elbow) c)).
Proof.
  unfold drawArm, Fencing.drawSphere, Fencing.drawCylinder. cbv zeta.
  hoare_run. hoare_draws.
Qed.

#[local] Hint Resolve drawBody_draws drawHead_draws runner_drawArm_draws
  drawLeg_draws : stack_rules.

Lemma runner_drawCharacter_draws S c T animations :
  hoare (at_view S c T) (drawCharacter animations)
    (fun _ => at_view S c (T ++ draws (drawCharacter animations) c)).
Proof.
  unfold drawCharacter, drawBody, drawHead, drawLeg. cbv zeta. hoare_run.
  eapply hoare_post_trace; [hoare_rule|].
  rewrite <- ?(assoc_L (++)). f_equal.
Qed.

#[local] Hint Resolve runner_drawCharacter_draws : stack_rules.

(** The matrix the runner is drawn under. *)
Definition running_lean : array :=
  translated
    (rotated mat4_identity_value (- Number.Math_PI / 4) [0; 0; 1])
    [0; 0; 0].

Lemma runner_render_spec S c T time :
  hoare (at_view S c T) (render time)
    (fun _ => at_view S running_lean
       (T ++ draws (drawCharacter (Running.render_animations time))
               running_lean)).
Proof.
  unfold render. cbv zeta. hoare_run. hoare_rule.
Qed.

(** X10.  A frame of the run.  Whatever the stack's current matrix was,
    [render(time)] of the runner draws the character under the identity
    turned by -pi/4 about Z (and moved by nothing): 20 draws, the fencer's without hand and sword,
    in the same order at every frame; the saved history is untouched. *)
Theorem runner_frame_starts_afresh (w : world) (time : float) :
  wf w ->
  let D := draws (drawCharacter (Running.render_animations time))
             running_lean in
  exists w',
    render time w = Ok tt w' /\
    gl w' = gl w ++ D /\
    drawn D
    = [ "cylinderVAO"; "sphereVAO";
        "sphereVAO"; "cylinderVAO"; "sphereVAO"; "cylinderVAO";
        "sphereVAO"; "cylinderVAO"; "sphereVAO"; "cylinderVAO";
        "sphereVAO"; "cylinderVAO"; "sphereVAO"; "cylinderVAO"; "sphereVAO";
        "sphereVAO"; "cylinderVAO"; "sphereVAO"; "cylinderVAO"; "sphereVAO" ] /\
    length D = 20%nat /\
    saved w' = saved w /\ current_matrix w' = running_lean.
Proof.
  intros Hw D.
  destruct (runner_render_spec _ _ _ time w (at_view_here w Hw))
    as ([] & w' & E & _ & HS & Hc & HT).
  exists w'. split; [exact E|]. split; [exact HT|].
  split; [reflexivity|]. split; [reflexivity|]. done.
Qed.

End RunnerFrame.


Lemma runner_frame_starts_afresh_witness :
  wf MatrixStack_new /\
  exists w',
    @Runner.render gl_matrix_sample host_sample 16%float MatrixStack_new
    = Ok tt w'.
Proof.
  split; [apply wf_new|].
  destruct (@runner_frame_starts_afresh gl_matrix_sample host_sample
              MatrixStack_new 16%float wf_new) as (w' & E & _).
  exists w'. exact E.
Defined.

(** ** Binary64 facts the time and camera code rests on *)

Section FloatFacts.
Local Open Scope float_scope.

(** A finite number is a zero or has a mantissa and an exponent. *)
Lemma is_finite_SF (x : float) :
  is_finite x = true ->
  (exists s, Prim2SF x = S754_zero s) \/
  (exists s m e, Prim2SF x = S754_finite s m e).
Proof.
  unfold is_finite, is_nan, is_infinity.
  rewrite !FloatAxioms.eqb_spec, abs_spec.
  destruct (Prim2SF x) as [s|s| |s m e]; eauto.
  - by destruct s.
  - cbn. discriminate.
Qed.

Lemma SF_is_finite (x : float) :
  match Prim2SF x with
  | S754_zero _ | S754_finite _ _ _ => is_finite x = true
  | _ => is_finite x = false
  end.
Proof.
  unfold is_finite, is_nan, is_infinity.
  rewrite !FloatAxioms.eqb_spec, abs_spec.
  pose proof (Prim2SF_valid x) as Hv.
  destruct (Prim2SF x) as [s|s| |s m e] eqn:E; try done.
  - by destruct s.
  - unfold SFeqb. by rewrite SFcompare_refl.
Qed.

Lemma is_finite_not_nan (x : float) : is_finite x = true -> is_nan x = false.
Proof. unfold is_finite. by destruct (is_nan x). Qed.

(** [x - x] is +0 for every finite [x]. *)
Lemma sub_diag_finite (x : float) : is_finite x = true -> x - x = 0.
Proof.
  intros Hx. apply Prim2SF_inj. rewrite sub_spec.
  destruct (is_finite_SF x Hx) as [[s ->]|(s & m & e & ->)].
  - by destruct s.
  - unfold SF64sub, SFsub. cbv zeta. by rewrite Z.sub_diag.
Qed.

(** Rounding never produces NaN. *)
Lemma iter_pos_keeps {A : Type} (P : A -> Prop) (f : A -> A) :
  (forall a, P a -> P (f a)) ->
  forall p a, P a -> P (SpecFloat.iter_pos f p a).
Proof.
  intros Hf. induction p as [p IH|p IH|]; intros a Ha; cbn; auto.
Qed.

Lemma shr_1_nonneg (mrs : shr_record) :
  (0 <= shr_m mrs)%Z -> (0 <= shr_m (shr_1 mrs))%Z.
Proof.
  destruct mrs as [m r s]. cbn [shr_m]. intros Hm.
  destruct m as [|[p|p|]|p]; cbn; lia.
Qed.

Lemma shr_fexp_nonneg (m e : Z) (l : location) :
  (0 <= m)%Z -> (0 <= shr_m (fst (shr_fexp prec emax m e l)))%Z.
Proof.
  intros Hm. unfold shr_fexp, shr.
  assert (H0 : (0 <= shr_m (shr_record_of_loc m l))%Z).
  { by destruct l as [|[]]. }
  destruct (fexp prec emax (Zdigits2 m + e) - e)%Z; cbn [fst]; try done.
  by apply iter_pos_keeps; [apply shr_1_nonneg|].
Qed.

Lemma round_nearest_even_nonneg (m : Z) (l : location) :
  (0 <= m)%Z -> (0 <= round_nearest_even m l)%Z.
Proof.
  intros Hm. destruct l as [|[]]; cbn; try done; [|lia].
  destruct (Z.even m); lia.
Qed.

Lemma binary_round_aux_not_nan (sx : bool) (mx ex : Z) (lx : location) :
  (0 <= mx)%Z -> binary_round_aux prec emax sx mx ex lx <> S754_nan.
Proof.
  intros Hm. unfold binary_round_aux.
  pose proof (shr_fexp_nonneg mx ex lx Hm) as H1.
  destruct (shr_fexp prec emax mx ex lx) as [mrs' e']. cbn [fst] in H1.
  pose proof (shr_fexp_nonneg _ e' loc_Exact
                (round_nearest_even_nonneg _ (loc_of_shr_record mrs') H1)) as H2.
  destruct (shr_fexp prec emax _ e' loc_Exact) as [mrs'' e'']. cbn [fst] in H2.
  destruct (shr_m mrs'') as [|p|p]; [done| |lia].
  by destruct (e'' <=? emax - prec)%Z.
Qed.

Lemma binary_normalize_not_nan (m e : Z) (s : bool) :
  binary_normalize prec emax m e s <> S754_nan.
Proof.
  destruct m as [|p|p]; cbn [binary_normalize]; [done| |];
    unfold binary_round;
    destruct (shl_align _ _ _) as [mz ez];
    by apply binary_round_aux_not_nan.
Qed.

(** The difference of two finite numbers is a number. *)
Lemma sub_finite_not_nan (x y : float) :
  is_finite x = true -> is_finite y = true -> is_nan (x - y) = false.
Proof.
  intros Hx Hy. apply is_nan_false. rewrite sub_spec.
  destruct (is_finite_SF x Hx) as [[sx ->]|(sx & mx & ex & ->)],
           (is_finite_SF y Hy) as [[sy ->]|(sy & my & ey & ->)];
    cbn [SF64sub SFsub]; try done.
  - by destruct sx, sy.
  - unfold SF64sub, SFsub. apply binary_normalize_not_nan.
Qed.

(** A number times a finite non-zero constant is a number. *)
Lemma mul_finite_not_nan (x k : float) :
  is_nan x = false ->
  (exists s m e, Prim2SF k = S754_finite s m e) ->
  is_nan (x * k) = false.
Proof.
  intros Hx%is_nan_false (sk & mk & ek & Hk). apply is_nan_false.
  rewrite mul_spec, Hk.
  destruct (Prim2SF x) as [s|s| |s m e]; cbn [SF64mul SFmul]; try done.
  unfold SF64mul, SFmul. by apply binary_round_aux_not_nan.
Qed.

(** A finite number plus a number is a number. *)
Lemma add_finite_not_nan (x y : float) :
  is_finite x = true -> is_nan y = false -> is_nan (x + y) = false.
Proof.
  intros Hx Hy%is_nan_false. apply is_nan_false. rewrite add_spec.
  destruct (is_finite_SF x Hx) as [[sx ->]|(sx & mx & ex & ->)];
    destruct (Prim2SF y) as [sy|sy| |sy my ey]; cbn [SF64add SFadd]; try done.
  - by destruct sx, sy.
  - unfold SF64add, SFadd. apply binary_normalize_not_nan.
Qed.

End FloatFacts.

(** ** The camera's pitch stays within a quarter turn *)

Section CameraPitch.
Import Camera.
Local Open Scope float_scope.

Lemma ltb_leb (a b : float) : (a <? b) = true -> (a <=? b) = true.
Proof.
  rewrite leb_spec, ltb_spec. unfold SFleb, SFltb.
  by destruct (SFcompare (Prim2SF a) (Prim2SF b)) as [[]|].
Qed.

(** Of two numbers, [Math.max] is the one not below the other. *)
Lemma Math_max_cases (x y : float) :
  is_nan x = false -> is_nan y = false ->
  (Number.Math_max x y = x /\ (y <=? x) = true) \/
  (Number.Math_max x y = y /\ (x <=? y) = true).
Proof.
  intros Hx Hy. unfold Number.Math_max. rewrite Hx, Hy. cbn [orb].
  destruct (x <? y) eqn:Hxy; [right; split; [done|by apply ltb_leb]|].
  destruct (y <? x) eqn:Hyx; [left; split; [done|by apply ltb_leb]|].
  destruct (not_nan_compare x y Hx Hy) as [c Hc].
  pose proof (SFcompare_antisym (Prim2SF x) (Prim2SF y)) as Hc'.
  rewrite Hc in Hc'. cbn in Hc'.
  rewrite ltb_spec in Hxy, Hyx. unfold SFltb in Hxy, Hyx.
  rewrite Hc in Hxy. rewrite Hc' in Hyx.
  assert (c = Eq) as -> by (by destruct c).
  destruct (get_sign x); [right|left]; split; try done;
    rewrite leb_spec; unfold SFleb; by rewrite ?Hc, ?Hc'.
Qed.

Lemma Math_min_cases (x y : float) :
  is_nan x = false -> is_nan y = false ->
  (Number.Math_min x y = x /\ (x <=? y) = true) \/
  (Number.Math_min x y = y /\ (y <=? x) = true).
Proof.
  intros Hx Hy. unfold Number.Math_min. rewrite Hx, Hy. cbn [orb].
  destruct (x <? y) eqn:Hxy; [left; split; [done|by apply ltb_leb]|].
  destruct (y <? x) eqn:Hyx; [right; split; [done|by apply ltb_leb]|].
  destruct (not_nan_compare x y Hx Hy) as [c Hc].
  pose proof (SFcompare_antisym (Prim2SF x) (Prim2SF y)) as Hc'.
  rewrite Hc in Hc'. cbn in Hc'.
  rewrite ltb_spec in Hxy, Hyx. unfold SFltb in Hxy, Hyx.
  rewrite Hc in Hxy. rewrite Hc' in Hyx.
  assert (c = Eq) as -> by (by destruct c).
  destruct (get_sign x); [left|right]; split; try done;
    rewrite leb_spec; unfold SFleb; by rewrite ?Hc, ?Hc'.
Qed.

Lemma leb_refl_not_nan (x : float) : is_nan x = false -> (x <=? x) = true.
Proof.
  intros Hx%is_nan_false. rewrite leb_spec. unfold SFleb.
  by rewrite SFcompare_refl.
Qed.

(** [Math.max(lo, Math.min(hi, x))] lies between [lo] and [hi]. *)
Lemma clamp_range (lo hi x : float) :
  is_nan lo = false -> is_nan hi = false -> is_nan x = false ->
  (lo <=? hi) = true ->
  let r := Number.Math_max lo (Number.Math_min hi x) in
  (lo <=? r) = true /\ (r <=? hi) = true.
Proof.
  intros Hlo Hhi Hx Hlh r. subst r.
  destruct (Math_min_cases hi x Hhi Hx) as [[-> _]|[-> Hxh]].
  - destruct (Math_max_cases lo hi Hlo Hhi) as [[-> _]|[-> _]].
    + split; [by apply leb_refl_not_nan|done].
    + split; [done|by apply leb_refl_not_nan].
  - destruct (Math_max_cases lo x Hlo Hx) as [[-> _]|[-> Hlx]].
    + split; [by apply leb_refl_not_nan|done].
    + by split.
Qed.

(** What lies between two finite numbers is finite. *)
Lemma between_finite (lo hi x : float) :
  is_finite lo = true -> is_finite hi = true ->
  (lo <=? x) = true -> (x <=? hi) = true -> is_finite x = true.
Proof.
  intros Hlo Hhi. rewrite !leb_spec. unfold SFleb.
  pose proof (SF_is_finite x) as Hx.
  destruct (is_finite_SF lo Hlo) as [[sl ->]|(sl & ml & el & ->)],
           (is_finite_SF hi Hhi) as [[sh ->]|(sh & mh & eh & ->)];
    destruct (Prim2SF x) as [s|[]| |s m e]; cbn; try done.
Qed.

Definition pitch_lo : float := - Number.Math_PI / 2.
Definition pitch_hi : float := Number.Math_PI / 2.

(** An event whose pointer coordinates are finite numbers. *)
Definition finite_event (e : mouse) : bool :=
  match e with
  | mousedown clientX clientY | mousemove clientX clientY =>
      is_finite clientX && is_finite clientY
  | mouseup | mouseleave => true
  end.

Definition pitch_kept (s : state) : Prop :=
  is_finite (mouseX s) = true /\ is_finite (mouseY s) = true /\
  (pitch_lo <=? cameraRotationX s) = true /\
  (cameraRotationX s <=? pitch_hi) = true.

Lemma listener_keeps_pitch (e : mouse) (s : state) :
  finite_event e = true -> pitch_kept s -> pitch_kept (listener e s).
Proof.
  intros He (HX & HY & Hlo & Hhi).
  destruct e as [x y|x y| |]; cbn [listener finite_event] in *;
    try (by repeat split).
  - apply andb_prop in He as [Hx Hy]. by repeat split.
  - apply andb_prop in He as [Hx Hy].
    destruct (isDragging s); [|by repeat split].
    cbv zeta. split; [done|]. split; [done|]. cbn [cameraRotationX].
    apply (clamp_range pitch_lo pitch_hi); try done.
    apply add_finite_not_nan.
    + by apply (between_finite pitch_lo pitch_hi).
    + apply mul_finite_not_nan; [by apply sub_finite_not_nan|].
      by eexists _, _, _.
Qed.

(** X13.  The pitch of the camera.  After any sequence of mousedown,
    mousemove, mouseup and mouseleave events whose pointer coordinates are
    finite numbers, [cameraRotationX] is a number between -pi/2 and pi/2. *)
Theorem camera_pitch_stays_within_a_quarter_turn (events : list mouse) :
  forallb finite_event events = true ->
  (- Number.Math_PI / 2 <=? cameraRotationX (after events)) = true /\
  (cameraRotationX (after events) <=? Number.Math_PI / 2) = true /\
  is_nan (cameraRotationX (after events)) = false.
Proof.
  intros Hev.
  assert (Hkept : forall s, pitch_kept s ->
            pitch_kept (fold_left (fun s e => listener e s) events s)).
  { induction events as [|e r IH]; intros s Hs; [done|].
    cbn [forallb] in Hev. apply andb_prop in Hev as [He Hr].
    cbn [fold_left]. apply IH; [done|]. by apply listener_keeps_pitch. }
  destruct (Hkept initial) as (_ & _ & Hlo & Hhi); [by repeat split|].
  split; [exact Hlo|]. split; [exact Hhi|].
  apply is_finite_not_nan. by apply (between_finite pitch_lo pitch_hi).
Qed.

End CameraPitch.

Lemma camera_pitch_stays_within_a_quarter_turn_witness :
  forallb finite_event
    [Camera.mousedown 10 10; Camera.mousemove 10 400;
     Camera.mouseup; Camera.mousemove 10 0] = true /\
  (Camera.cameraRotationX
     (Camera.after [Camera.mousedown 10 10; Camera.mousemove 10 400;
                    Camera.mouseup; Camera.mousemove 10 0])
   <=? Number.Math_PI / 2)%float = true.
Proof.
  split; [reflexivity|].
  exact (proj1 (proj2 (camera_pitch_stays_within_a_quarter_turn
    [Camera.mousedown 10 10; Camera.mousemove 10 400;
     Camera.mouseup; Camera.mousemove 10 0] eq_refl))).
Defined.

(** ** The barbell for every pair of hands *)

Section FloatAdd.
Local Open Scope float_scope.

Lemma SFadd_comm (x y : spec_float) :
  SFadd prec emax x y = SFadd prec emax y x.
Proof.
  destruct x as [sx|sx| |sx mx ex], y as [sy|sy| |sy my ey]; cbn [SFadd];
    try done; try (by destruct sx, sy).
  cbv zeta. by rewrite (Z.min_comm ex ey), Z.add_comm.
Qed.

Lemma add_comm_float (x y : float) : x + y = y + x.
Proof. apply Prim2SF_inj. rewrite !add_spec. apply SFadd_comm. Qed.

End FloatAdd.

Section BarbellAlways.
Context `{GlMatrix} `{MathHost}.
Import Barbell.
Local Open Scope float_scope.

Lemma mid_barbellFrame (L R : array) :
  mid (barbellFrame L R)
  = vec3.scale
      (vec3.add (vec3.fromValues (idx L 12) (idx L 13) (idx L 14))
         (vec3.fromValues (idx R 12) (idx R 13) (idx R 14))) 0.5.
Proof. reflexivity. Qed.

Lemma mid_barbellFrame_sym (L R : array) :
  mid (barbellFrame R L) = mid (barbellFrame L R).
Proof.
  rewrite !mid_barbellFrame. unfold vec3.add, vec3.fromValues.
  change (idx [?a; ?b; ?c] 0) with a.
  change (idx [?a; ?b; ?c] 1) with b.
  change (idx [?a; ?b; ?c] 2) with c.
  by rewrite !(add_comm_float (Number.Math_fround (idx R _))).
Qed.

Lemma drawBarbell_here (w : world) (L R : array) :
  wf w ->
  exists w',
    drawBarbell L R w = Ok tt w' /\
    gl w' = gl w ++ barbell_draws (current_matrix w) (barbellFrame L R) /\
    saved w' = saved w /\ current_matrix w' = current_matrix w.
Proof.
  intros Hw.
  destruct (drawBarbell_spec _ _ _ L R w (at_view_here w Hw))
    as ([] & w' & E & _ & HS & Hc & HT).
  exists w'. split; [exact E|]. split; [exact HT|]. split; [exact HS|exact Hc].
Qed.

Lemma barbell_rotation_guarded (f : frame) (ang : float) (ax : array) :
  barbell_rotation f = Some (ang, ax) ->
  (ang = Number.Math_PI /\ ax = [1; 0; 0]) \/
  (ang = Math_acos (clamped_dot (dir f)) /\
   ax = vec3.scale (axis f) (1 / axisLen f) /\
   (is_nan (vec3.dot up (dir f)) = false ->
    (-1 <=? clamped_dot (dir f)) = true /\
    (clamped_dot (dir f) <=? 1) = true)).
Proof.
  intros Hrot.
  destruct (barbell_rotation_cases f)
    as [[_ E]|[(_ & _ & E)|(_ & _ & E)]]; rewrite E in Hrot.
  - injection Hrot as <- <-. right. split; [done|]. split; [done|].
    intros Hdot. by destruct (clamped_dot_range (dir f) Hdot) as (_ & ? & ?).
  - injection Hrot as <- <-. by left.
  - discriminate.
Qed.

(** X11.  The plates sit on the bar.  For every pair of hand matrices
    and from every well-formed stack, [drawBarbell] returns, issues three
    draws and nothing else, and restores the stack.  The bar and the two
    plates are drawn in one frame, the current matrix moved to the midpoint
    and turned by the rotation of the bar (the plates reuse the axis the bar
    normalized in place): the bar scaled by (1, len, 1), the plates moved by
    +(len - 0.05) and -(len - 0.05) along Y.  The midpoint is the same
    whichever hand is passed first.  The rotation, when there is one, is the
    half turn about +X or the arccosine of the clamped dot product about the
    normalized axis, and the clamped value lies in [-1, 1] whenever the dot
    product is a number. *)
Theorem barbell_plates_share_the_bar_frame (w : world) (L R : array) :
  wf w ->
  let f := barbellFrame L R in
  let c := current_matrix w in
  let placed := oriented c f in
  (exists w',
     drawBarbell L R w = Ok tt w' /\
     gl w' = gl w ++
       [ Draw "barVAO" (scaled placed [1; len f; 1]);
         Draw "plateVAO" (translated placed [0; 1 * (len f - 0.05); 0]);
         Draw "plateVAO" (translated placed [0; -1 * (len f - 0.05); 0]) ] /\
     saved w' = saved w /\ current_matrix w' = c) /\
  (placed = match barbell_rotation f with
            | Some (ang, ax) => rotated (translated c (mid f)) ang ax
            | None => translated c (mid f)
            end) /\
  mid (barbellFrame R L) = mid f /\
  (forall ang ax,
     barbell_rotation f = Some (ang, ax) ->
     (ang = Number.Math_PI /\ ax = [1; 0; 0]) \/
     (ang = Math_acos (clamped_dot (dir f)) /\
      ax = vec3.scale (axis f) (1 / axisLen f) /\
      (is_nan (vec3.dot up (dir f)) = false ->
       (-1 <=? clamped_dot (dir f)) = true /\
       (clamped_dot (dir f) <=? 1) = true))).
Proof.
  intros Hw. cbv zeta. split; [|split; [|split]].
  - exact (drawBarbell_here w L R Hw).
  - reflexivity.
  - exact (mid_barbellFrame_sym L R).
  - exact (barbell_rotation_guarded (barbellFrame L R)).
Qed.

(** With both hands at one place the direction is undefined: *)
Lemma barbellFrame_coincident (L R : array) :
  (forall i, (i = 12 \/ i = 13 \/ i = 14)%nat ->
     idx R i = idx L i /\ is_finite (Number.Math_fround (idx L i)) = true) ->
  len (barbellFrame L R) = 0 /\
  dir (barbellFrame L R) = [nan; nan; nan] /\
  axisLen (barbellFrame L R) = nan.
Proof.
  intros Hsame.
  destruct (Hsame 12%nat) as [E12 F12]; [by left|].
  destruct (Hsame 13%nat) as [E13 F13]; [by right; left|].
  destruct (Hsame 14%nat) as [E14 F14]; [by right; right|].
  assert (Hd : vec3.subtract
                 (vec3.fromValues (idx R 12) (idx R 13) (idx R 14))
                 (vec3.fromValues (idx L 12) (idx L 13) (idx L 14))
               = [0; 0; 0]).
  { unfold vec3.subtract, vec3.fromValues.
    change (idx [?a; ?b; ?c] 0) with a.
    change (idx [?a; ?b; ?c] 1) with b.
    change (idx [?a; ?b; ?c] 2) with c.
    by rewrite E12, E13, E14, !sub_diag_finite. }
  assert (Hlen : len (barbellFrame L R) = vec3.length [0; 0; 0]).
  { change (len (barbellFrame L R))
      with (vec3.length
              (vec3.subtract
                 (vec3.fromValues (idx R 12) (idx R 13) (idx R 14))
                 (vec3.fromValues (idx L 12) (idx L 13) (idx L 14)))).
    by rewrite Hd. }
  assert (Hdir : dir (barbellFrame L R)
                 = vec3.scale [0; 0; 0] (1 / vec3.length [0; 0; 0])).
  { change (dir (barbellFrame L R))
      with (vec3.scale
              (vec3.subtract
                 (vec3.fromValues (idx R 12) (idx R 13) (idx R 14))
                 (vec3.fromValues (idx L 12) (idx L 13) (idx L 14)))
              (1 / vec3.length
                     (vec3.subtract
                        (vec3.fromValues (idx R 12) (idx R 13) (idx R 14))
                        (vec3.fromValues (idx L 12) (idx L 13) (idx L 14))))).
    by rewrite Hd. }
  assert (Hax : axisLen (barbellFrame L R)
                = vec3.length (vec3.cross up (dir (barbellFrame L R))))
    by reflexivity.
  rewrite Hax, Hdir, Hlen. by vm_compute.
Qed.

(** X12.  Both hands at one place.  When the two hand matrices carry the
    same finite position, the length is 0, the direction 0 * (1 / 0) is NaN
    in every component, and so is the length of the cross product: neither
    guard holds, [drawBarbell] applies no rotation (no NaN reaches
    [mat4.rotate]) and draws the bar flattened by the scale (1, 0, 1) at the
    midpoint, with the plates 0.05 either side of it. *)
Theorem barbell_between_coincident_hands (w : world) (L R : array) :
  wf w ->
  (forall i, (i = 12 \/ i = 13 \/ i = 14)%nat ->
     idx R i = idx L i /\ is_finite (Number.Math_fround (idx L i)) = true) ->
  let f := barbellFrame L R in
  let c := current_matrix w in
  len f = 0 /\ barbell_rotation f = None /\
  exists w',
    drawBarbell L R w = Ok tt w' /\
    gl w' = gl w ++
      [ Draw "barVAO" (scaled (translated c (mid f)) [1; 0; 1]);
        Draw "plateVAO" (translated (translated c (mid f)) [0; -0.05; 0]);
        Draw "plateVAO" (translated (translated c (mid f)) [0; 0.05; 0]) ].
Proof.
  intros Hw Hsame f c.
  destruct (barbellFrame_coincident L R Hsame) as (Hlen & Hdir & HaxisLen).
  fold f in Hlen, Hdir, HaxisLen.
  assert (Hrot : barbell_rotation f = None).
  { unfold barbell_rotation. rewrite HaxisLen, Hdir. by vm_compute. }
  split; [exact Hlen|]. split; [exact Hrot|].
  destruct (drawBarbell_spec _ _ _ L R w (at_view_here w Hw))
    as ([] & w' & E & _ & _ & _ & HT).
  exists w'. split; [exact E|]. rewrite HT. f_equal.
  unfold barbell_draws, oriented. fold f. rewrite Hrot, Hlen.
  change (1 * (0 - 0.05)) with (-0.05).
  change (-1 * (0 - 0.05)) with 0.05.
  reflexivity.
Qed.

End BarbellAlways.

Lemma barbell_plates_share_the_bar_frame_witness :
  wf MatrixStack_new /\
  Barbell.mid (@Barbell.barbellFrame host_sample right_hand_sample
                 left_hand_sample)
  = Barbell.mid (@Barbell.barbellFrame host_sample left_hand_sample
                   right_hand_sample).
Proof.
  split; [apply wf_new|].
  exact (proj1 (proj2 (proj2 (@barbell_plates_share_the_bar_frame
            gl_matrix_sample host_sample MatrixStack_new left_hand_sample
            right_hand_sample wf_new)))).
Defined.

Lemma barbell_between_coincident_hands_witness :
  wf MatrixStack_new /\
  @barbell_rotation host_sample
    (@Barbell.barbellFrame host_sample left_hand_sample left_hand_sample)
  = None.
Proof.
  split; [apply wf_new|].
  refine (proj1 (proj2 (@barbell_between_coincident_hands gl_matrix_sample
            host_sample MatrixStack_new left_hand_sample left_hand_sample
            wf_new _))).
  intros i [->|[->| ->]]; split; reflexivity.
Defined.

(** ** The lunge: first frame, last pose *)

Section LungeFloat.
Import Lunge.
Local Open Scope float_scope.

Lemma SFcompare_Eq_finite (a : spec_float) (s : bool) (m : positive) (e : Z) :
  SFcompare a (S754_finite s m e) = Some Eq -> a = S754_finite s m e.
Proof.
  destruct a as [sa|sa| |sa ma ea]; try destruct sa; destruct s; cbn;
    try done;
    (destruct (ea ?= e)%Z eqn:Ee; try done;
     apply Z.compare_eq in Ee as ->;
     destruct (Pos.compare_cont Eq ma m) eqn:Em; try done;
     by apply Pos.compare_eq in Em as ->).
Qed.

(** [Math.min(x, 1.0)] is 1 from [x = 1] on. *)
Lemma Math_min_saturates (x : float) :
  (1 <=? x) = true -> Number.Math_min x 1 = 1.
Proof.
  intros H1.
  assert (Hx : is_nan x = false).
  { apply is_nan_false. intros Hn. rewrite leb_spec, Hn in H1. discriminate. }
  destruct (Math_min_cases x 1 Hx eq_refl) as [[E Hle]|[E _]]; [|done].
  rewrite E. apply Prim2SF_inj.
  rewrite leb_spec in Hle, H1. unfold SFleb in Hle, H1.
  pose proof (SFcompare_antisym (Prim2SF x) (Prim2SF 1)) as Ha.
  destruct (SFcompare (Prim2SF x) (Prim2SF 1)) as [[]|] eqn:Ec; try done.
  - by apply SFcompare_Eq_finite in Ec.
  - rewrite Ha in H1. discriminate.
Qed.

(** X14.  The ends of the lunge, in binary64.  On the first frame, at
    any finite timestamp, [t] is 0, and the angles handed to [drawCharacter]
    are exactly those of [startPose]; on every frame at which
    [sec / duration] has reached 1, [t] is 1 and the angles are exactly
    those of [lungePose]. *)
Theorem lunge_starts_at_startPose_and_holds_lungePose :
  (forall time, is_finite time = true ->
     render_startTime None time = time /\
     @render_t float _ None time = 0) /\
  (forall s time,
     (1 <=? (time - s) / 1000 / duration) = true ->
     render_startTime (Some s) time = s /\
     @render_t float _ (Some s) time = 1) /\
  (@render_bodyLean float _ 0 = prop startPose "bodyLean" /\
   @render_animations float _ 0
   = [ ("leftShoulderAngle", prop startPose "leftShoulder");
       ("rightShoulderAngle", prop startPose "rightShoulder");
       ("leftElbowAngle", prop startPose "leftElbow");
       ("rightElbowAngle", prop startPose "rightElbow");
       ("leftHipAngle", prop startPose "leftHip");
       ("rightHipAngle", prop startPose "rightHip");
       ("leftKneeAngle", prop startPose "leftKnee");
       ("rightKneeAngle", prop startPose "rightKnee");
       ("headTilt", prop startPose "headTilt") ]) /\
  (@render_bodyLean float _ 1 = prop lungePose "bodyLean" /\
   @render_animations float _ 1
   = [ ("leftShoulderAngle", prop lungePose "leftShoulder");
       ("rightShoulderAngle", prop lungePose "rightShoulder");
       ("leftElbowAngle", prop lungePose "leftElbow");
       ("rightElbowAngle", prop lungePose "rightElbow");
       ("leftHipAngle", prop lungePose "leftHip");
       ("rightHipAngle", prop lungePose "rightHip");
       ("leftKneeAngle", prop lungePose "leftKnee");
       ("rightKneeAngle", prop lungePose "rightKnee");
       ("headTilt", prop lungePose "headTilt") ]).
Proof.
  split; [|split; [|split]].
  - intros time Hfin. split; [done|].
    unfold render_t. cbv zeta. cbn [render_startTime].
    change (@num_sub float _) with PrimFloat.sub.
    by rewrite (sub_diag_finite time Hfin).
  - intros s time Hge. split; [done|].
    unfold render_t. cbv zeta. cbn [render_startTime].
    by apply Math_min_saturates.
  - split; by vm_compute.
  - split; by vm_compute.
Qed.

End LungeFloat.

(** The lunge without rounding: the parameter rises with the time since
    the first frame and stops at 1; no angle overshoots. *)
Section LungeExact.
Import Lunge.
Local Open Scope Q_scope.

Lemma lerp_between (a b t : Q) :
  0 <= t <= 1 ->
  (a <= b -> a <= @lerp Q _ a b t <= b) /\
  (b <= a -> b <= @lerp Q _ a b t <= a).
Proof.
  intros [H0 H1]. unfold lerp. cbn [num_add num_sub num_mul Q_JSNum].
  split; intros Hab; nra.
Qed.

(** X15.  The lunge, computed without rounding.  With [s] the start time
    and [time >= s]: [t] is (time - s) / 800 up to 800 ms and 1 from then
    on, so 0 <= t <= 1, and every angle lerp(a, b, t) lies between its start
    value [a] and its lunge value [b]. *)
Theorem lunge_blend_is_clamped (s time : Q) :
  s <= time ->
  let t := @render_t Q _ (Some s) time in
  0 <= t <= 1 /\
  (time - s <= 800 -> t == (time - s) / 800) /\
  (800 <= time - s -> t == 1) /\
  (forall a b,
     (a <= b -> a <= lerp a b t <= b) /\ (b <= a -> b <= lerp a b t <= a)).
Proof.
  intros Hs t.
  assert (Ht : t == if Qle_bool ((time - s) / 800) 1
                    then (time - s) / 800 else 1).
  { subst t. unfold render_t. cbv zeta.
    cbn [render_startTime num_min num_sub num_div num_of_Z Q_JSNum].
    change (@duration Q _) with (8 / 10).
    assert (Hd : (time - s) / inject_Z 1000 / (8 / 10) == (time - s) / 800)
      by (unfold inject_Z; field).
    change (inject_Z 1) with 1.
    destruct (Qle_bool ((time - s) / inject_Z 1000 / (8 / 10)) 1) eqn:E1;
      destruct (Qle_bool ((time - s) / 800) 1) eqn:E2.
    - exact Hd.
    - apply Qle_bool_iff in E1. rewrite Hd in E1.
      apply Qle_bool_iff in E1. congruence.
    - apply Qle_bool_iff in E2. rewrite <- Hd in E2.
      apply Qle_bool_iff in E2. congruence.
    - reflexivity. }
  assert (Hx : 0 <= (time - s) / 800).
  { apply Qle_shift_div_l; [done|]. lra. }
  assert (Hrange : 0 <= t <= 1).
  { rewrite Ht. destruct (Qle_bool _ 1) eqn:E; [|lra].
    apply Qle_bool_iff in E. lra. }
  split; [exact Hrange|]. split; [|split].
  - intros Hle. rewrite Ht.
    assert (E : Qle_bool ((time - s) / 800) 1 = true).
    { apply Qle_bool_iff. apply Qle_shift_div_r; [done|]. lra. }
    by rewrite E.
  - intros Hge. rewrite Ht. destruct (Qle_bool _ 1) eqn:E; [|done].
    apply Qle_bool_iff in E.
    assert (1 <= (time - s) / 800) by (apply Qle_shift_div_l; [done|]; lra).
    lra.
  - intros a b. by apply lerp_between.
Qed.

End LungeExact.

Lemma lunge_blend_is_clamped_witness :
  (100 <= 1000)%Q /\ (0 <= @Lunge.render_t Q _ (Some 100%Q) 1000 <= 1)%Q.
Proof.
  split; [done|].
  refine (proj1 (lunge_blend_is_clamped 100%Q 1000%Q _)). done.
Defined.

(** ** The index buffers: every triangle is made of vertices that exist *)

Lemma for_loop_app {St A : Type} (f : St -> list A) (g : nat -> list A)
  (body : nat -> St -> St) :
  (forall i s, f (body i s) = f s ++ g i) ->
  forall n i s, f (for_loop n i body s) = f s ++ flat_map g (seq i n).
Proof.
  intros Hbody n. induction n as [|n IH]; intros i s; cbn [for_loop seq flat_map].
  - by rewrite app_nil_r.
  - by rewrite IH, Hbody, <- (assoc_L (++)).
Qed.

(** [Uint16Array] keeps the entries that fit sixteen bits. *)
Lemma Uint16Array_small (a : list Z) :
  Forall (fun i => 0 <= i < 65536)%Z a -> Geometry.Uint16Array a = a.
Proof.
  intros Ha. unfold Geometry.Uint16Array.
  induction Ha as [|i r Hi _ IH]; [done|]. cbn [map].
  by rewrite IH, Z.mod_small.
Qed.

Lemma Uint16Array_range (a : list Z) (n : Z) :
  Forall (fun i => 0 <= i < n)%Z a ->
  Forall (fun i => 0 <= i < n)%Z (Geometry.Uint16Array a).
Proof.
  intros Ha. unfold Geometry.Uint16Array. apply Forall_map.
  eapply Forall_impl; [exact Ha|]. cbn. intros i Hi.
  pose proof (Z.mod_pos_bound i 65536 eq_refl).
  assert (i mod 65536 <= i)%Z by (apply Z.mod_le; lia). lia.
Qed.

Lemma Forall_flat_map_seq {A : Type} (P : A -> Prop) (g : nat -> list A)
  (i n : nat) :
  (forall k, i <= k < i + n -> Forall P (g k)) ->
  Forall P (flat_map g (seq i n)).
Proof.
  intros Hg. apply Forall_flat_map, Forall_forall.
  intros k Hk%list_elem_of_In%in_seq. by apply Hg.
Qed.

Section IndexBuffers.
Context `{MathHost}.
Import Geometry.

(** The two triangles of the patch between band [a] and band [a + 1], at
    segment [b], of a grid with [n + 1] vertices a band. *)
Definition patch (n a b : nat) : list Z :=
  let first := (Z.of_nat a * (Z.of_nat n + 1) + Z.of_nat b)%Z in
  let second := (first + Z.of_nat n + 1)%Z in
  [first; second; first + 1; second; second + 1; first + 1]%Z.

Definition grid (bands n : nat) : list Z :=
  flat_map (fun a => flat_map (patch n a) (seq 0 n)) (seq 0 bands).

Lemma grid_range (bands n : nat) :
  Forall (fun i => 0 <= i < Z.of_nat ((bands + 1) * (n + 1)))%Z (grid bands n).
Proof.
  apply Forall_flat_map_seq. intros a Ha.
  apply Forall_flat_map_seq. intros b Hb.
  unfold patch. cbv zeta. repeat (apply Forall_cons; split); [..|done]; nia.
Qed.

Lemma length_flat_map_seq {A : Type} (g : nat -> list A) (c i n : nat) :
  (forall k, length (g k) = c) -> length (flat_map g (seq i n)) = n * c.
Proof.
  intros Hg. revert i. induction n as [|n IH]; intros i; [done|].
  cbn [seq flat_map]. rewrite length_app, Hg, IH. lia.
Qed.

Lemma grid_length (bands n : nat) : length (grid bands n) = bands * n * 6.
Proof.
  unfold grid. rewrite (length_flat_map_seq _ (n * 6)); [lia|].
  intros a. by apply length_flat_map_seq.
Qed.

Lemma createSphere_raw_indices radius latBands longBands :
  indices (createSphere radius latBands longBands)
  = Uint16Array (grid latBands longBands).
Proof.
  unfold createSphere, typed. cbn [indices]. f_equal.
  rewrite (for_loop_app indices
             (fun a => flat_map (patch longBands a) (seq 0 longBands))).
  - rewrite (for_loop_same indices); [done|].
    intros i s. by apply for_loop_same.
  - intros a s. by rewrite (for_loop_app indices (patch longBands a)).
Qed.

Lemma createSphere_normals radius latBands longBands :
  length (normals (createSphere radius latBands longBands))
  = 3 * ((latBands + 1) * (longBands + 1)).
Proof.
  unfold createSphere, typed, Float32Array. cbn [normals]. rewrite length_map.
  rewrite (for_loop_same normals).
  2:{ intros i s. by apply for_loop_same. }
  rewrite (for_loop_count (fun b => length (normals b)) (3 * (longBands + 1)) 0);
    [cbn; lia| |lia].
  intros i s _.
  rewrite (for_loop_count (fun b => length (normals b)) 3 0); [lia| |lia].
  intros j b _. cbn. rewrite !length_app. cbn. lia.
Qed.

(** X16.  The index buffer of [createSphere].  Every vertex has a
    normal; every index entry refers to a vertex of the buffer; and when
    the vertices number at most 65536 the [Uint16Array] holds what the loop
    pushed: for each band [a] and segment [b] in order, the triangles
    (first, second, first + 1) and (second, second + 1, first + 1) with
    first = a * (longBands + 1) + b and second = first + longBands + 1. *)
Theorem createSphere_triangles_use_its_vertices (radius : float)
  (latBands longBands : nat) :
  let ball := createSphere radius latBands longBands in
  length (normals ball) = length (vertices ball) /\
  Forall (fun i => 0 <= i < Z.of_nat (vertex_count ball))%Z (indices ball) /\
  ((Z.of_nat (vertex_count ball) <= 65536)%Z ->
   indices ball = grid latBands longBands).
Proof.
  cbv zeta. unfold vertex_count.
  rewrite createSphere_vertices, createSphere_normals, createSphere_raw_indices.
  rewrite (Nat.mul_comm 3), Nat.div_mul by lia.
  split; [lia|]. split.
  - apply Uint16Array_range, grid_range.
  - intros Hsmall. apply Uint16Array_small.
    eapply Forall_impl; [apply grid_range|]. cbn. lia.
Qed.

(** The fan of an end cap about the centre vertex [base]: one triangle a
    segment, turned the other way round on the bottom cap. *)
Definition fan (top : bool) (base : Z) (radialSegments : nat) : list Z :=
  flat_map (fun i =>
    if (0 <? i)%nat then
      if top then [base; base + Z.of_nat i; base + Z.of_nat i + 1]%Z
      else [base; base + Z.of_nat i + 1; base + Z.of_nat i]%Z
    else []) (seq 0 (S radialSegments)).

Lemma fan_range (top : bool) (base : Z) (radialSegments : nat) (n : Z) :
  (0 <= base)%Z -> (base + Z.of_nat radialSegments + 1 < n)%Z ->
  Forall (fun i => 0 <= i < n)%Z (fan top base radialSegments).
Proof.
  intros Hb Hn. apply Forall_flat_map_seq. intros i Hi.
  destruct i as [|i]; [done|]. cbn [Nat.ltb Nat.leb].
  destruct top; repeat (apply Forall_cons; split); try done; lia.
Qed.

Lemma cap_raw_indices top radius halfHeight thetaLength radialSegments b :
  indices (cap top radius halfHeight thetaLength radialSegments b)
  = indices b ++ fan top (Z.of_nat (length (vertices b)) / 3) radialSegments.
Proof.
  unfold cap, fan. cbv zeta.
  rewrite (for_loop_app indices
    (fun i =>
       if (0 <? i)%nat then
         if top
         then [Z.of_nat (length (vertices b)) / 3;
               Z.of_nat (length (vertices b)) / 3 + Z.of_nat i;
               Z.of_nat (length (vertices b)) / 3 + Z.of_nat i + 1]%Z
         else [Z.of_nat (length (vertices b)) / 3;
               Z.of_nat (length (vertices b)) / 3 + Z.of_nat i + 1;
               Z.of_nat (length (vertices b)) / 3 + Z.of_nat i]%Z
       else [])); [done|].
  intros i s. cbn [indices].
  destruct (0 <? i)%nat; [|by rewrite app_nil_r]. by destruct top.
Qed.

Lemma cap_normals top radius halfHeight thetaLength radialSegments b :
  length (normals (cap top radius halfHeight thetaLength radialSegments b))
  = length (normals b) + 3 * (radialSegments + 2).
Proof.
  unfold cap. cbv zeta.
  rewrite (for_loop_count (fun b => length (normals b)) 3 0); [| |lia].
  - cbn. rewrite length_app. cbn. lia.
  - intros i s _. cbn. rewrite length_app. cbn. lia.
Qed.

Lemma createCylinder_open rt rb h rs hs :
  let opened := createCylinder rt rb h rs hs true in
  length (vertices opened) = 3 * ((hs + 1) * (rs + 1)) /\
  length (normals opened) = 3 * ((hs + 1) * (rs + 1)) /\
  indices opened = Uint16Array (grid hs rs).
Proof.
  cbv zeta. unfold createCylinder, typed, Float32Array. cbv zeta.
  cbn [negb vertices normals indices]. rewrite !length_map.
  split; [|split].
  - rewrite (for_loop_same vertices).
    2:{ intros i s. by apply for_loop_same. }
    rewrite (for_loop_count (fun b => length (vertices b)) (3 * (rs + 1)) 0);
      [cbn; lia| |lia].
    intros i s _.
    rewrite (for_loop_count (fun b => length (vertices b)) 3 0); [lia| |lia].
    intros j b _. cbn. rewrite !length_app. cbn. lia.
  - rewrite (for_loop_same normals).
    2:{ intros i s. by apply for_loop_same. }
    rewrite (for_loop_count (fun b => length (normals b)) (3 * (rs + 1)) 0);
      [cbn; lia| |lia].
    intros i s _.
    rewrite (for_loop_count (fun b => length (normals b)) 3 0); [lia| |lia].
    intros j b _. cbn. rewrite !length_app. cbn. lia.
  - f_equal.
    rewrite (for_loop_app indices (fun a => flat_map (patch rs a) (seq 0 rs))).
    + rewrite (for_loop_same indices); [done|].
      intros i s. by apply for_loop_same.
    + intros a s. by rewrite (for_loop_app indices (patch rs a)).
Qed.

(** The index entries [createCylinder] pushes. *)
Definition cylinder_triangles (rs hs : nat) (openEnded : bool) : list Z :=
  grid hs rs
  ++ (if openEnded then []
      else fan true (Z.of_nat ((hs + 1) * (rs + 1))) rs
           ++ fan false (Z.of_nat ((hs + 1) * (rs + 1) + (rs + 2))) rs).

Lemma createCylinder_shape rt rb h rs hs (openEnded : bool) :
  let cyl := createCylinder rt rb h rs hs openEnded in
  let n := (hs + 1) * (rs + 1) + (if openEnded then 0 else 2 * (rs + 2)) in
  length (vertices cyl) = 3 * n /\
  length (normals cyl) = 3 * n /\
  indices cyl = Uint16Array (cylinder_triangles rs hs openEnded).
Proof.
  cbv zeta. destruct (createCylinder_open rt rb h rs hs) as (Hv & Hn & Hi).
  destruct openEnded.
  { unfold cylinder_triangles. rewrite app_nil_r, Hv, Hn, Hi.
    repeat split; lia. }
  revert Hv Hn Hi. unfold createCylinder, typed, Float32Array. cbv zeta.
  cbn [negb vertices normals indices]. rewrite !length_map.
  set (indexed := for_loop hs 0 _ _). intros Hv Hn Hi.
  rewrite !cap_vertices, !cap_normals, !cap_raw_indices, cap_vertices, Hv, Hn.
  split; [lia|]. split; [lia|]. f_equal.
  unfold cylinder_triangles. rewrite <- (assoc_L (++)).
  assert (Hgrid : indices indexed = grid hs rs).
  { subst indexed.
    rewrite (for_loop_app indices (fun a => flat_map (patch rs a) (seq 0 rs))).
    - rewrite (for_loop_same indices); [done|].
      intros i s. by apply for_loop_same.
    - intros a s. by rewrite (for_loop_app indices (patch rs a)). }
  rewrite Hgrid. do 2 f_equal; f_equal.
  - rewrite Nat2Z.inj_mul, (Z.mul_comm (Z.of_nat 3)). by rewrite Z.div_mul.
  - replace (3 * ((hs + 1) * (rs + 1)) + 3 * (rs + 2))
      with (((hs + 1) * (rs + 1) + (rs + 2)) * 3) by lia.
    rewrite Nat2Z.inj_mul. by rewrite Z.div_mul.
Qed.

Lemma cylinder_triangles_range (rs hs : nat) (openEnded : bool) :
  Forall (fun i => 0 <= i
                   < Z.of_nat ((hs + 1) * (rs + 1)
                               + (if openEnded then 0 else 2 * (rs + 2)))%nat)%Z
    (cylinder_triangles rs hs openEnded).
Proof.
  unfold cylinder_triangles. apply Forall_app. split.
  - eapply Forall_impl; [apply grid_range|]. cbn. lia.
  - destruct openEnded; [done|]. apply Forall_app.
    split; apply fan_range; lia.
Qed.

(** X17.  The index buffer of [createCylinder].  The cylinder has
    (heightSegments + 1) * (radialSegments + 1) vertices, and
    2 * (radialSegments + 2) more when it is closed; every vertex has a
    normal; every index entry refers to a vertex of the buffer; and when
    the vertices number at most 65536 the buffer holds the wall's patches
    followed, when closed, by the fan of the top cap about its centre
    vertex and the fan of the bottom cap about its own, the latter wound
    the other way. *)
Theorem createCylinder_triangles_use_its_vertices
  (radiusTop radiusBottom height : float)
  (radialSegments heightSegments : nat) (openEnded : bool) :
  let cyl := createCylinder radiusTop radiusBottom height radialSegments
               heightSegments openEnded in
  vertex_count cyl
  = (heightSegments + 1) * (radialSegments + 1)
    + (if openEnded then 0 else 2 * (radialSegments + 2)) /\
  length (normals cyl) = length (vertices cyl) /\
  Forall (fun i => 0 <= i < Z.of_nat (vertex_count cyl))%Z (indices cyl) /\
  ((Z.of_nat (vertex_count cyl) <= 65536)%Z ->
   indices cyl = cylinder_triangles radialSegments heightSegments openEnded).
Proof.
  cbv zeta. unfold vertex_count.
  destruct (createCylinder_shape radiusTop radiusBottom height radialSegments
              heightSegments openEnded) as (Hv & Hn & Hi).
  rewrite Hv, Hn, Hi. rewrite (Nat.mul_comm 3), Nat.div_mul by lia.
  split; [done|]. split; [lia|]. split.
  - apply Uint16Array_range, cylinder_triangles_range.
  - intros Hsmall. apply Uint16Array_small.
    eapply Forall_impl; [apply cylinder_triangles_range|].
    intros i Hi'. cbv beta in Hi'. lia.
Qed.

End IndexBuffers.

Lemma createSphere_triangles_use_its_vertices_witness :
  (Z.of_nat (Geometry.vertex_count (@Geometry.sphere host_sample))
   <= 65536)%Z /\
  Geometry.indices (@Geometry.sphere host_sample) = grid 16 32.
Proof.
  split; [by vm_compute|].
  refine (proj2 (proj2 (@createSphere_triangles_use_its_vertices host_sample
                          0.5%float 16 32)) _). by vm_compute.
Defined.

Lemma createCylinder_triangles_use_its_vertices_witness :
  (Z.of_nat (Geometry.vertex_count (@Geometry.cylinder host_sample))
   <= 65536)%Z /\
  Geometry.indices (@Geometry.cylinder host_sample)
  = cylinder_triangles 16 1 false.
Proof.
  split; [by vm_compute|].
  refine (proj2 (proj2 (proj2 (@createCylinder_triangles_use_its_vertices
            host_sample 0.5%float 0.5%float 1%float 16 1 false))) _).
  by vm_compute.
Defined.

(** ** The bar and the plate of the lift *)

Section LiftGeometry.
Context `{MathHost}.
Import Geometry Lift.

Lemma land_1_odd (a : Z) : negb (Z.land a 1 =? 0)%Z = Z.odd a.
Proof.
  change 1%Z with (Z.ones 1). rewrite Z.land_ones by lia.
  change (2 ^ 1)%Z with 2%Z. rewrite Zmod_odd. by destruct (Z.odd a).
Qed.

(** The triangles of a strip of [count] vertices from [start] on: vertex
    [i], [i + 1], [i + 2], the first two swapped at odd [i]. *)
Definition strip (start : Z) (count : nat) : list Z :=
  flat_map (fun i =>
    let i' := Z.of_nat i in
    if Z.odd i' then [start + i' + 1; start + i'; start + i' + 2]%Z
    else [start + i'; start + i' + 1; start + i' + 2]%Z)
    (seq 0 (count - 2)).

Lemma strip_range (start : Z) (count : nat) :
  Forall (fun i => start <= i < start + Z.of_nat count)%Z (strip start count).
Proof.
  apply Forall_flat_map_seq. intros i Hi. cbv zeta.
  destruct (Z.odd (Z.of_nat i));
    repeat (apply Forall_cons; split); try done; lia.
Qed.

Lemma strip_length (start : Z) (count : nat) :
  length (strip start count) = 3 * (count - 2).
Proof.
  unfold strip. generalize 0 at 1. induction (count - 2) as [|n IH]; intros k.
  - done.
  - cbn [seq flat_map]. rewrite length_app, IH.
    destruct (Z.odd (Z.of_nat k)); cbn; lia.
Qed.

Lemma pushStrip_spec (start : Z) (count : nat) (b : buffers) :
  vertices (pushStrip start count b) = vertices b /\
  normals (pushStrip start count b) = normals b /\
  indices (pushStrip start count b) = indices b ++ strip start count.
Proof.
  unfold pushStrip. split; [|split].
  - by apply for_loop_same.
  - by apply for_loop_same.
  - unfold strip. apply for_loop_app. intros i s. cbn [indices].
    rewrite land_1_odd. by destruct (Z.odd (Z.of_nat i)).
Qed.

(** The index entries [plate] pushes: four strips, one after the other,
    of [2 * (seg + 1)] vertices each. *)
Definition plate_triangles (seg : nat) : list Z :=
  let count := (seg + 1) * 2 in
  strip 0 count ++ strip (Z.of_nat count) count
  ++ strip (Z.of_nat count + Z.of_nat count) count
  ++ strip (Z.of_nat count + Z.of_nat count + Z.of_nat count) count.

Lemma plate_shape rOut rIn t seg :
  let disc := plate rOut rIn t seg in
  length (vertices disc) = 3 * (8 * (seg + 1)) /\
  length (normals disc) = 3 * (8 * (seg + 1)) /\
  indices disc = Uint16Array (plate_triangles seg).
Proof.
  cbv zeta. unfold plate, typed, Float32Array. cbv zeta.
  cbn [vertices normals indices]. rewrite !length_map.
  repeat match goal with
  | |- context [pushStrip ?s ?c ?b] =>
      let Hv := fresh "Hv" in let Hn := fresh "Hn" in let Hi := fresh "Hi" in
      destruct (pushStrip_spec s c b) as (Hv & Hn & Hi);
      rewrite ?Hv, ?Hn, ?Hi; clear Hv Hn Hi
  end.
  assert (Hring : forall (f : buffers -> list float) body b,
            (forall i s, length (f (body i s)) = length (f s) + 6) ->
            length (f (for_loop (S seg) 0 body b))
            = length (f b) + (seg + 1) * 6).
  { intros f body b Hb.
    rewrite (for_loop_count (fun b => length (f b)) 6 0); [lia| |lia].
    intros i s _. apply Hb. }
  split; [|split].
  - rewrite !Hring; [cbn; lia|..]; intros i s; cbn;
      rewrite !length_app; cbn; lia.
  - rewrite !Hring; [cbn; lia|..]; intros i s; cbn;
      rewrite !length_app; cbn; lia.
  - f_equal. rewrite !(for_loop_same indices) by done. cbn [indices].
    unfold plate_triangles. cbv zeta.
    by rewrite <- !(assoc_L (++)).
Qed.

(** X18.  The plate of the barbell.  [plate] has four rings of
    2 * (seg + 1) vertices, every vertex with a normal, and 4 * 2 * seg
    triangles; every index entry refers to a vertex of the buffer; when the
    vertices number at most 65536 the buffer holds the four strips one after
    the other, and the triangles of a strip use only the vertices of its own
    ring. *)
Theorem plate_strips_use_their_own_vertices (rOut rIn t : float) (seg : nat) :
  let disc := plate rOut rIn t seg in
  let count := (seg + 1) * 2 in
  vertex_count disc = 4 * count /\
  length (normals disc) = length (vertices disc) /\
  length (indices disc) = 4 * (3 * (2 * seg)) /\
  Forall (fun i => 0 <= i < Z.of_nat (vertex_count disc))%Z (indices disc) /\
  ((Z.of_nat (vertex_count disc) <= 65536)%Z ->
   indices disc = plate_triangles seg) /\
  (forall k, k < 4 ->
     Forall (fun i => Z.of_nat (k * count) <= i < Z.of_nat ((k + 1) * count))%Z
       (strip (Z.of_nat (k * count)) count)).
Proof.
  cbv zeta. unfold vertex_count.
  destruct (plate_shape rOut rIn t seg) as (Hv & Hn & Hi).
  rewrite Hv, Hn, Hi. rewrite (Nat.mul_comm 3), Nat.div_mul by lia.
  assert (Hrange : Forall (fun i => 0 <= i < Z.of_nat (8 * (seg + 1)))%Z
                     (plate_triangles seg)).
  { unfold plate_triangles. cbv zeta.
    repeat (apply Forall_app; split);
      (eapply Forall_impl; [apply strip_range|]);
      intros i Hi'; cbv beta in Hi'; lia. }
  split; [lia|]. split; [lia|]. split; [|split; [|split]].
  - unfold Uint16Array. rewrite length_map. unfold plate_triangles. cbv zeta.
    rewrite !length_app, !strip_length. lia.
  - by apply Uint16Array_range.
  - intros Hsmall. apply Uint16Array_small.
    eapply Forall_impl; [exact Hrange|]. intros i Hi'. cbv beta in Hi'. lia.
  - intros k Hk. eapply Forall_impl; [apply strip_range|].
    intros i Hi'. cbv beta in Hi'. lia.
Qed.

Lemma cylinder_shape rt rb h radSeg hSeg open :
  let tube := cylinder rt rb h radSeg hSeg open in
  length (vertices tube) = 3 * ((hSeg + 1) * (radSeg + 1)) /\
  length (normals tube) = 3 * ((hSeg + 1) * (radSeg + 1)) /\
  indices tube = Uint16Array (grid hSeg radSeg).
Proof.
  cbv zeta. unfold cylinder, typed, Float32Array. cbv zeta.
  cbn [vertices normals indices]. rewrite !length_map.
  split; [|split].
  - rewrite (for_loop_same vertices).
    2:{ intros i s. by apply for_loop_same. }
    rewrite (for_loop_count (fun b => length (vertices b)) (3 * (radSeg + 1)) 0);
      [cbn; lia| |lia].
    intros i s _.
    rewrite (for_loop_count (fun b => length (vertices b)) 3 0); [lia| |lia].
    intros j b _. cbn. rewrite !length_app. cbn. lia.
  - rewrite (for_loop_same normals).
    2:{ intros i s. by apply for_loop_same. }
    rewrite (for_loop_count (fun b => length (normals b)) (3 * (radSeg + 1)) 0);
      [cbn; lia| |lia].
    intros i s _.
    rewrite (for_loop_count (fun b => length (normals b)) 3 0); [lia| |lia].
    intros j b _. cbn. rewrite !length_app. cbn. lia.
  - f_equal.
    rewrite (for_loop_app indices
               (fun a => flat_map (patch radSeg a) (seq 0 radSeg))).
    + rewrite (for_loop_same indices); [done|].
      intros i s. by apply for_loop_same.
    + intros a s. by rewrite (for_loop_app indices (patch radSeg a)).
Qed.

(** X19.  The bar of the barbell.  [cylinder] of the lift never reads
    [open]: with either value it returns the wall alone,
    (hSeg + 1) * (radSeg + 1) vertices with a normal each and
    hSeg * radSeg * 6 index entries, every one of them a vertex of the
    buffer, and (when the vertices number at most 65536) the patches of the
    wall in order. *)
Theorem lift_cylinder_is_an_open_tube (rt rb h : float) (radSeg hSeg : nat)
  (open : bool) :
  let tube := cylinder rt rb h radSeg hSeg open in
  tube = cylinder rt rb h radSeg hSeg true /\
  vertex_count tube = (hSeg + 1) * (radSeg + 1) /\
  length (normals tube) = length (vertices tube) /\
  length (indices tube) = hSeg * radSeg * 6 /\
  Forall (fun i => 0 <= i < Z.of_nat (vertex_count tube))%Z (indices tube) /\
  ((Z.of_nat (vertex_count tube) <= 65536)%Z ->
   indices tube = grid hSeg radSeg).
Proof.
  cbv zeta. unfold vertex_count.
  destruct (cylinder_shape rt rb h radSeg hSeg open) as (Hv & Hn & Hi).
  rewrite Hv, Hn, Hi. rewrite (Nat.mul_comm 3), Nat.div_mul by lia.
  split; [done|]. split; [done|]. split; [lia|]. split; [|split].
  - unfold Uint16Array. by rewrite length_map, grid_length.
  - apply Uint16Array_range. eapply Forall_impl; [apply grid_range|].
    intros i Hi'. cbv beta in Hi'. lia.
  - intros Hsmall. apply Uint16Array_small.
    eapply Forall_impl; [apply grid_range|]. intros i Hi'. cbv beta in Hi'. lia.
Qed.

End LiftGeometry.

(** ** The ping-pong fold is a triangle wave *)

Section TriangleWave.
Import Volleyball.
Local Open Scope Q_scope.

Lemma Qfloor_bounds (x : Q) : inject_Z (Qfloor x) <= x < inject_Z (Qfloor x) + 1.
Proof.
  split; [apply Qfloor_le|].
  pose proof (Qlt_floor x) as Hf. rewrite inject_Z_plus in Hf. exact Hf.
Qed.

(** The parity test [cycle % 2 === 1] on a whole cycle that is not
    negative. *)
Lemma cycle_parity (z : Z) :
  (0 <= z)%Z -> Qeq_bool (Q_rem (inject_Z z) 2) 1 = Z.odd z.
Proof.
  intros Hz. unfold Q_rem.
  assert (Hq : Qle_bool 0 (inject_Z z / 2) = true).
  { apply Qle_bool_iff. apply Qle_shift_div_l; [done|].
    rewrite Qmult_0_l. change 0 with (inject_Z 0). by rewrite <- Zle_Qle. }
  rewrite Hq.
  assert (Hf : Qfloor (inject_Z z / 2) = (z / 2)%Z).
  { unfold Qfloor, Qdiv, Qmult, Qinv, inject_Z; cbn. by rewrite Z.mul_1_r. }
  rewrite Hf.
  assert (Hm : inject_Z z - 2 * inject_Z (z / 2) == inject_Z (z mod 2)).
  { rewrite (Z.mod_eq z 2) by lia. unfold Z.sub.
    rewrite inject_Z_plus, inject_Z_opp, inject_Z_mult. reflexivity. }
  rewrite Zmod_odd in Hm.
  destruct (Z.odd z).
  - apply Qeq_bool_iff. by rewrite Hm.
  - destruct (Qeq_bool _ 1) eqn:E; [|done].
    apply Qeq_bool_iff in E. rewrite Hm in E. discriminate.
Qed.

Lemma render_t_cases (elapsed : Q) :
  0 <= elapsed ->
  let z := Qfloor (elapsed / 1000) in
  (0 <= z)%Z /\
  @render_t Q _ elapsed
  = if Z.odd z then 1 - (elapsed / 1000 - inject_Z z)
    else elapsed / 1000 - inject_Z z.
Proof.
  intros He z.
  assert (Hz : (0 <= z)%Z).
  { subst z. change 0%Z with (Qfloor 0). apply Qfloor_resp_le.
    apply Qle_shift_div_l; [done|]. by rewrite Qmult_0_l. }
  split; [done|].
  rewrite (render_t_cycle elapsed z eq_refl). by rewrite cycle_parity.
Qed.

(** X20.  The ping-pong fold, computed without rounding, is a triangle
    wave.  For every elapsed time that is not negative the parameter lies
    in [0, 1] and repeats with period 2 * DURATION; it is elapsed / DURATION
    on the first cycle and 2 - elapsed / DURATION on the second. *)
Theorem ping_pong_is_a_triangle_wave (elapsed : Q) :
  0 <= elapsed ->
  0 <= @render_t Q _ elapsed <= 1 /\
  @render_t Q _ (elapsed + 2 * DURATION) == @render_t Q _ elapsed /\
  (elapsed < DURATION -> @render_t Q _ elapsed == elapsed / DURATION) /\
  (DURATION <= elapsed < 2 * DURATION ->
   @render_t Q _ elapsed == 2 - elapsed / DURATION).
Proof.
  intros He. change (@DURATION Q _) with 1000.
  destruct (render_t_cases elapsed He) as [Hz Ht]. cbv zeta in Hz, Ht.
  pose proof (Qfloor_bounds (elapsed / 1000)) as [Hlo Hhi].
  split; [|split; [|split]].
  - rewrite Ht. destruct (Z.odd _); lra.
  - assert (He2 : 0 <= elapsed + 2 * 1000) by lra.
    destruct (render_t_cases _ He2) as [_ Ht2]. cbv zeta in Ht2.
    assert (Hf : Qfloor ((elapsed + 2 * 1000) / 1000)
                 = (Qfloor (elapsed / 1000) + 2)%Z).
    { apply Qfloor_unique; rewrite inject_Z_plus;
        change (inject_Z 2) with 2;
        assert (Hd : (elapsed + 2 * 1000) / 1000 == elapsed / 1000 + 2)
          by (field; done);
        rewrite Hd; lra. }
    rewrite Ht2, Ht, Hf.
    replace (Z.odd (Qfloor (elapsed / 1000) + 2))
      with (Z.odd (Qfloor (elapsed / 1000))).
    2:{ rewrite Z.odd_add. by destruct (Z.odd _). }
    rewrite inject_Z_plus. change (inject_Z 2) with 2.
    destruct (Z.odd _); field.
  - intros Hlt.
    assert (Hf : Qfloor (elapsed / 1000) = 0%Z).
    { apply Qfloor_unique; unfold inject_Z;
        [apply Qle_shift_div_l|apply Qlt_shift_div_r]; lra. }
    rewrite Ht, Hf. cbn [Z.odd]. unfold inject_Z. field.
  - intros [Hge Hlt].
    assert (Hf : Qfloor (elapsed / 1000) = 1%Z).
    { apply Qfloor_unique; unfold inject_Z;
        [apply Qle_shift_div_l|apply Qlt_shift_div_r]; lra. }
    rewrite Ht, Hf. cbn [Z.odd]. unfold inject_Z. field.
Qed.

End TriangleWave.

Lemma ping_pong_is_a_triangle_wave_witness :
  (0 <= 1250)%Q /\
  (@Volleyball.render_t Q _ (1250 + 2 * Volleyball.DURATION)
   == @Volleyball.render_t Q _ 1250)%Q.
Proof.
  split; [done|].
  refine (proj1 (proj2 (ping_pong_is_a_triangle_wave 1250%Q _))). done.
Defined.

(** ** Where the gate of the spike closes *)

Section Gate.
Import Volleyball.
Local Open Scope Q_scope.

(** The interpolated shoulder and the fraction [k], in degrees of the
    unrounded pi. *)
Lemma shoulder_Q (t : Q) :
  prop (@blend Q _ t) "RIGHT_SHOULDER" == (-80 - 230 * t) * Q_PI / 180.
Proof.
  change (prop (@blend Q _ t) "RIGHT_SHOULDER")
    with (@lerp Q _ (deg (-80)) (deg (-310)) t).
  unfold lerp, deg. cbn [num_add num_sub num_mul num_div Q_JSNum num_PI num_of_Z].
  unfold inject_Z. field.
Qed.

Lemma Q_PI_pos : 0 < Q_PI.
Proof. done. Qed.

Lemma deg_le (x y : Q) : x * Q_PI / 180 <= y * Q_PI / 180 <-> x <= y.
Proof.
  unfold Qdiv. rewrite <- !Qmult_assoc. by apply Qmult_le_r.
Qed.

Lemma gate_open_iff (t : Q) :
  num_lt SHOULDER_LIMIT (prop (@blend Q _ t) "RIGHT_SHOULDER") = true
  <-> t < 8 # 23.
Proof.
  cbn [num_lt Q_JSNum]. rewrite negb_true_iff.
  rewrite <- not_true_iff_false, Qle_bool_iff, shoulder_Q.
  change (@SHOULDER_LIMIT Q _) with (-160 * Q_PI / 180).
  rewrite deg_le. split.
  - intros Hn. apply Qnot_le_lt. intros Hge. apply Hn. lra.
  - intros Hlt Hle. lra.
Qed.

(** X21.  The gate of the spike, computed without rounding, closes at
    t = 8/23.  Before it the fraction is k = 23 t / 8, below 1 (and not
    negative once t is not): RIGHT_ELBOW and RIGHT_ARM_SX are the lerps at
    that k, never past their end values.  From t = 8/23 on they are held at
    0 and SX_END, the values the lerps reach at k = 1: the two fields are
    continuous across the gate. *)
Theorem spike_gate_closes_at_8_23 (t : Q) :
  let p := @interpolatePose Q _ t in
  let k := (23 # 8) * t in
  (t < 8 # 23 ->
     k < 1 /\ (0 <= t -> 0 <= k) /\
     prop p "RIGHT_ELBOW" == lerp (prop startPose "RIGHT_ELBOW") 0 k /\
     prop p "RIGHT_ARM_SX" == lerp SX_START SX_END k) /\
  (8 # 23 <= t ->
     prop p "RIGHT_ELBOW" == 0 /\ prop p "RIGHT_ARM_SX" == SX_END) /\
  (lerp (prop (@startPose Q _) "RIGHT_ELBOW") 0 1 == 0 /\
   @lerp Q _ SX_START SX_END 1 == SX_END).
Proof.
  cbv zeta. split; [|split].
  - intros Hlt. split; [lra|]. split; [lra|].
    pose proof (proj2 (gate_open_iff t) Hlt) as Hopen.
    unfold interpolatePose. cbv zeta. rewrite Hopen.
    assert (Hk : (prop (blend t) "RIGHT_SHOULDER" - prop startPose "RIGHT_SHOULDER")
                 / (SHOULDER_LIMIT - prop startPose "RIGHT_SHOULDER")
                 == (23 # 8) * t).
    { rewrite shoulder_Q.
      change (prop (@startPose Q _) "RIGHT_SHOULDER") with (-80 * Q_PI / 180).
      change (@SHOULDER_LIMIT Q _) with (-160 * Q_PI / 180).
      unfold Q_PI. field. }
    split.
    + change (prop (obj_set "RIGHT_ARM_SX" ?v (obj_set "RIGHT_ELBOW" ?e _))
                "RIGHT_ELBOW") with e.
      apply lerp_Qeq; [reflexivity|reflexivity|exact Hk].
    + change (prop (obj_set "RIGHT_ARM_SX" ?v (obj_set "RIGHT_ELBOW" ?e _))
                "RIGHT_ARM_SX") with v.
      apply lerp_Qeq; [reflexivity|reflexivity|exact Hk].
  - intros Hge.
    assert (Hclosed : num_lt SHOULDER_LIMIT (prop (@blend Q _ t) "RIGHT_SHOULDER")
                      = false).
    { destruct (num_lt _ _) eqn:E; [|done].
      apply gate_open_iff in E. lra. }
    unfold interpolatePose. cbv zeta. rewrite Hclosed. by split.
  - split; reflexivity.
Qed.

End Gate.

Lemma spike_gate_closes_at_8_23_witness :
  (1 # 4 < 8 # 23)%Q /\
  (prop (@Volleyball.interpolatePose Q _ (1 # 4)) "RIGHT_ARM_SX"
   == Volleyball.lerp Volleyball.SX_START Volleyball.SX_END ((23 # 8) * (1 # 4)))%Q.
Proof.
  split; [done|].
  refine (proj2 (proj2 (proj2 (proj1 (spike_gate_closes_at_8_23 (1 # 4)) _)))).
  done.
Defined.

(** ** The path of the ball *)

Section BallPath.
Import Spike.

(** X22.  The path of the ball.  In binary64: before HIT_T the ball is at
    BALL_START, at HIT_T it is still exactly there, and at t = 1 it is
    exactly at BALL_END.  Without rounding: between t = 1/2 and t = 1 each
    coordinate is the lerp of its start and end value at s = 2 t - 1, and
    stays between the two. *)
Theorem ball_waits_then_flies_to_BALL_END :
  (forall t : float,
     (t <? HIT_T)%float = true -> interpolateBall t = BALL_START) /\
  @interpolateBall float _ HIT_T = BALL_START /\
  @interpolateBall float _ 1%float = BALL_END /\
  (forall t : Q,
     (t < 1 # 2)%Q -> @interpolateBall Q _ t = BALL_START) /\
  (forall t : Q,
     (1 # 2 <= t <= 1)%Q ->
     let s := (2 * t - 1)%Q in
     let b := @interpolateBall Q _ t in
     (0 <= s <= 1)%Q /\
     (elt b 0 == (6 # 10) + (8 - (6 # 10)) * s)%Q /\
     (elt b 1 == (24 # 10) + (1 - (24 # 10)) * s)%Q /\
     (elt b 2 == (4 # 10) + ((2 # 10) - (4 # 10)) * s)%Q /\
     (6 # 10 <= elt b 0 <= 8)%Q /\ (1 <= elt b 1 <= 24 # 10)%Q /\
     (2 # 10 <= elt b 2 <= 4 # 10)%Q).
Proof.
  split; [|split; [|split; [|split]]].
  - intros t Ht. unfold interpolateBall.
    change (@num_lt float _) with PrimFloat.ltb. by rewrite Ht.
  - by vm_compute.
  - by vm_compute.
  - intros t Ht. unfold interpolateBall. cbn [num_lt Q_JSNum].
    assert (E : Qle_bool HIT_T t = false).
    { destruct (Qle_bool HIT_T t) eqn:E; [|done].
      apply Qle_bool_iff in E. change (@HIT_T Q _) with (5 / 10)%Q in E.
      assert (5 / 10 == 1 # 2)%Q by done. lra. }
    by rewrite E.
  - intros t [Hlo Hhi]. cbv zeta.
    assert (E : Qle_bool HIT_T t = true).
    { apply Qle_bool_iff. change (@HIT_T Q _) with (5 / 10)%Q.
      assert (5 / 10 == 1 # 2)%Q by done. lra. }
    unfold interpolateBall. cbn [num_lt Q_JSNum]. rewrite E. cbn [negb].
    cbn [elt nth BALL_START BALL_END num_add num_sub num_mul num_div
         num_of_Z Q_JSNum].
    change (@HIT_T Q _) with (5 / 10)%Q.
    assert (Hs : ((t - 5 / 10) / (inject_Z 1 - 5 / 10) == 2 * t - 1)%Q)
      by (unfold inject_Z; field).
    assert (H6 : (inject_Z 6 / inject_Z 10 == 6 # 10)%Q) by done.
    assert (H24 : (inject_Z 24 / inject_Z 10 == 24 # 10)%Q) by done.
    assert (H4 : (inject_Z 4 / inject_Z 10 == 4 # 10)%Q) by done.
    assert (H2 : (inject_Z 2 / inject_Z 10 == 2 # 10)%Q) by done.
    rewrite !Hs, !H6, !H24, !H4, !H2.
    change (inject_Z 8) with 8%Q. change (inject_Z 1) with 1%Q.
    repeat split; try reflexivity; lra.
Qed.

End BallPath.


(* ================================================================== *)
(** * Part IV. No NaN reaches the rotation of the barbell               *)
(* ================================================================== *)

(** The direction [drawBarbell] normalizes is a vector scaled by the
    reciprocal of its length, and every component is stored in a
    [Float32Array].  What follows bounds the magnitude of such rounded
    products and quotients on the decomposition of a float into mantissa
    and exponent, and derives that the guards of [drawBarbell] keep NaN
    away from [mat4.rotate]. *)

(** ** Magnitudes of rounded results *)

Section Digits.
Local Open Scope Z_scope.

Lemma digits2_pos_spec (p : positive) :
  2 ^ (Z.pos (digits2_pos p) - 1) <= Z.pos p < 2 ^ Z.pos (digits2_pos p).
Proof.
  induction p as [p IH|p IH|]; cbn [digits2_pos].
  - rewrite Pos2Z.inj_succ.
    replace (Z.succ (Z.pos (digits2_pos p)) - 1)
      with (Z.succ (Z.pos (digits2_pos p) - 1)) by lia.
    rewrite !Z.pow_succ_r by lia. lia.
  - rewrite Pos2Z.inj_succ.
    replace (Z.succ (Z.pos (digits2_pos p)) - 1)
      with (Z.succ (Z.pos (digits2_pos p) - 1)) by lia.
    rewrite !Z.pow_succ_r by lia. lia.
  - cbn. lia.
Qed.

Lemma Zdigits2_nonneg (m : Z) : 0 <= m -> 0 <= Zdigits2 m.
Proof. destruct m; cbn; lia. Qed.

(** [m < 2^k] bounds the number of binary digits of [m] by [k]. *)
Lemma Zdigits2_le (m k : Z) : 0 <= k -> 0 <= m < 2 ^ k -> Zdigits2 m <= k.
Proof.
  intros Hk [Hm Hlt]. destruct m as [|p|p]; cbn; [lia| |lia].
  destruct (Z_le_gt_dec (Z.pos (digits2_pos p)) k) as [|Hgt]; [done|].
  pose proof (digits2_pos_spec p) as [Hlo _].
  pose proof (Z.pow_le_mono_r 2 k (Z.pos (digits2_pos p) - 1)). lia.
Qed.

Lemma Zdigits2_lt_pow (m : Z) : 0 <= m -> m < 2 ^ Zdigits2 m.
Proof.
  intros Hm. destruct m as [|p|p]; cbn; [lia| |lia].
  apply digits2_pos_spec.
Qed.

Lemma Zdigits2_mono (a b : Z) : 0 <= a <= b -> Zdigits2 a <= Zdigits2 b.
Proof.
  intros [Ha Hab]. apply Zdigits2_le; [apply Zdigits2_nonneg; lia|].
  pose proof (Zdigits2_lt_pow b). lia.
Qed.

Lemma Zdigits2_succ (m : Z) : 0 <= m -> Zdigits2 (m + 1) <= Zdigits2 m + 1.
Proof.
  intros Hm. pose proof (Zdigits2_nonneg m Hm).
  apply Zdigits2_le; [lia|].
  pose proof (Zdigits2_lt_pow m Hm). rewrite Z.pow_add_r by lia. lia.
Qed.

Lemma Zdigits2_mul (a b : Z) :
  0 <= a -> 0 <= b -> Zdigits2 (a * b) <= Zdigits2 a + Zdigits2 b.
Proof.
  intros Ha Hb.
  pose proof (Zdigits2_nonneg a Ha). pose proof (Zdigits2_nonneg b Hb).
  apply Zdigits2_le; [lia|]. rewrite Z.pow_add_r by lia.
  pose proof (Zdigits2_lt_pow a Ha). pose proof (Zdigits2_lt_pow b Hb). nia.
Qed.

(** Dropping [n] low bits drops [n] digits. *)
Lemma Zdigits2_div_pow (m n : Z) :
  0 <= m -> 0 <= n -> Zdigits2 (m / 2 ^ n) <= Z.max 0 (Zdigits2 m - n).
Proof.
  intros Hm Hn. pose proof (Zdigits2_nonneg m Hm) as Hd.
  pose proof (Zdigits2_lt_pow m Hm) as Hlt.
  assert (H2 : 0 < 2 ^ n) by (apply Z.pow_pos_nonneg; lia).
  apply Zdigits2_le; [lia|]. split; [apply Z.div_pos; lia|].
  apply Z.div_lt_upper_bound; [lia|].
  destruct (Z_le_gt_dec n (Zdigits2 m)) as [Hle|Hgt].
  - rewrite Z.max_r by lia. rewrite <- Z.pow_add_r by lia.
    by replace (n + (Zdigits2 m - n)) with (Zdigits2 m) by lia.
  - rewrite Z.max_l by lia. rewrite Z.pow_0_r, Z.mul_1_r.
    pose proof (Z.pow_lt_mono_r 2 (Zdigits2 m) n). lia.
Qed.

End Digits.

Section Shift.
Local Open Scope Z_scope.

Lemma shr_1_m (mrs : shr_record) :
  0 <= shr_m mrs -> shr_m (shr_1 mrs) = shr_m mrs / 2.
Proof.
  destruct mrs as [m r s]. cbn [shr_m]. intros Hm.
  destruct m as [|[p|p|]|p]; cbn [shr_1 shr_m]; try lia.
  - done.
  - rewrite Pos2Z.inj_xI. apply Z.div_unique with 1; lia.
  - rewrite Pos2Z.inj_xO. apply Z.div_unique with 0; lia.
  - done.
Qed.

Lemma iter_shr_1_m (n : positive) (mrs : shr_record) :
  0 <= shr_m mrs ->
  shr_m (SpecFloat.iter_pos shr_1 n mrs) = shr_m mrs / 2 ^ Z.pos n.
Proof.
  revert mrs. induction n as [n IH|n IH|]; intros mrs Hm; cbn [SpecFloat.iter_pos].
  - assert (H1 : 0 <= shr_m (shr_1 mrs)).
    { rewrite shr_1_m by done. apply Z.div_pos; lia. }
    assert (H2 : 0 <= shr_m (SpecFloat.iter_pos shr_1 n (shr_1 mrs))).
    { rewrite IH by done. apply Z.div_pos; [done|]. apply Z.pow_pos_nonneg; lia. }
    rewrite IH, IH, shr_1_m by done.
    assert (Hp : 0 < 2 ^ Z.pos n) by (apply Z.pow_pos_nonneg; lia).
    rewrite !Z.div_div by lia. f_equal.
    replace (Z.pos n~1) with (1 + Z.pos n + Z.pos n) by lia.
    rewrite !Z.pow_add_r by lia. change (2 ^ 1) with 2. lia.
  - assert (H2 : 0 <= shr_m (SpecFloat.iter_pos shr_1 n mrs)).
    { rewrite IH by done. apply Z.div_pos; [done|]. apply Z.pow_pos_nonneg; lia. }
    rewrite IH, IH by done.
    assert (Hp : 0 < 2 ^ Z.pos n) by (apply Z.pow_pos_nonneg; lia).
    rewrite !Z.div_div by lia. f_equal.
    replace (Z.pos n~0) with (Z.pos n + Z.pos n) by lia.
    rewrite !Z.pow_add_r by lia. lia.
  - by rewrite shr_1_m.
Qed.

Context (p em : Z) (Hp : 0 < p).

Lemma shr_record_of_loc_m (m : Z) (l : location) :
  shr_m (shr_record_of_loc m l) = m.
Proof. by destruct l as [|[]]. Qed.

(** What [shr_fexp] returns: a mantissa of at most [p] digits at the
    exponent of the format, and not a greater magnitude. *)
Lemma shr_fexp_bound (m e : Z) (l : location) :
  0 <= m ->
  let r := shr_fexp p em m e l in
  0 <= shr_m (fst r) /\
  snd r = Z.max e (fexp p em (Zdigits2 m + e)) /\
  Zdigits2 (shr_m (fst r)) + snd r <= Z.max (Zdigits2 m + e) (snd r) /\
  Zdigits2 (shr_m (fst r)) <= p.
Proof using Hp.
  intros Hm. cbv zeta. unfold shr_fexp, shr.
  pose proof (Zdigits2_nonneg m Hm) as Hd.
  assert (Hf : Zdigits2 m + e - p <= fexp p em (Zdigits2 m + e)).
  { unfold fexp. lia. }
  destruct (fexp p em (Zdigits2 m + e) - e) as [|n|n] eqn:En;
    cbn [fst snd].
  - rewrite shr_record_of_loc_m. lia.
  - rewrite iter_shr_1_m by (rewrite shr_record_of_loc_m; done).
    rewrite shr_record_of_loc_m.
    assert (H2 : 0 < 2 ^ Z.pos n) by (apply Z.pow_pos_nonneg; lia).
    pose proof (Zdigits2_div_pow m (Z.pos n) Hm ltac:(lia)) as Hdiv.
    split; [apply Z.div_pos; lia|]. lia.
  - rewrite shr_record_of_loc_m. lia.
Qed.

Lemma round_nearest_even_range (m : Z) (l : location) :
  m <= round_nearest_even m l <= m + 1.
Proof.
  destruct l as [|[]]; cbn; try lia. destruct (Z.even m); lia.
Qed.

(** The magnitude of a number: [below K x] when [x] is a zero or a finite
    number less than [2^K] in absolute value. *)
Definition below (K : Z) (x : spec_float) : Prop :=
  match x with
  | S754_zero _ => True
  | S754_finite _ m e => Z.pos (digits2_pos m) + e <= K
  | _ => False
  end.

(** The same bound, asked of finite numbers only; and the width of the
    mantissa. *)
Definition at_most (K : Z) (x : spec_float) : Prop :=
  match x with
  | S754_finite _ m e => Z.pos (digits2_pos m) + e <= K
  | _ => True
  end.

Definition narrow (x : spec_float) : Prop :=
  match x with
  | S754_finite _ m e => Z.pos (digits2_pos m) <= p
  | _ => True
  end.

(** Rounding a mantissa and exponent of magnitude at most [K] gives a
    magnitude of at most [K + 1], and a finite number when that fits the
    format. *)
Lemma binary_round_aux_bound (s : bool) (m e : Z) (l : location) (K : Z) :
  0 <= m -> Zdigits2 m + e <= K -> SpecFloat.emin p em <= K ->
  let r := binary_round_aux p em s m e l in
  at_most (K + 1) r /\ narrow r /\ r <> S754_nan /\
  (K <= em - p -> below (K + 1) r).
Proof using Hp.
  intros Hm HD HK. cbv zeta. unfold binary_round_aux.
  pose proof (shr_fexp_bound m e l Hm) as H1. cbv zeta in H1.
  destruct (shr_fexp p em m e l) as [mrs1 e1]. cbn [fst snd] in H1.
  destruct H1 as (Hm1 & He1 & HD1 & _).
  pose proof (round_nearest_even_range (shr_m mrs1) (loc_of_shr_record mrs1))
    as Hr.
  set (m2 := round_nearest_even (shr_m mrs1) (loc_of_shr_record mrs1)) in *.
  assert (Hm2 : 0 <= m2) by lia.
  pose proof (shr_fexp_bound m2 e1 loc_Exact Hm2) as H2. cbv zeta in H2.
  destruct (shr_fexp p em m2 e1 loc_Exact) as [mrs3 e3]. cbn [fst snd] in H2.
  destruct H2 as (Hm3 & He3 & HD3 & Hn3).
  pose proof (Zdigits2_nonneg m Hm) as Hd.
  pose proof (Zdigits2_nonneg _ Hm1) as Hd1.
  assert (Hd2 : Zdigits2 m2 <= Zdigits2 (shr_m mrs1) + 1).
  { etrans; [apply (Zdigits2_mono m2 (shr_m mrs1 + 1)); lia|].
    by apply Zdigits2_succ. }
  assert (He1K : e1 <= K) by (unfold fexp in He1; lia).
  assert (HD2 : Zdigits2 m2 + e1 <= K + 1) by lia.
  assert (He3K : e3 <= K) by (unfold fexp in He3; lia).
  destruct (shr_m mrs3) as [|q|q] eqn:Eq; [done| |lia].
  cbn [Zdigits2] in HD3, Hn3.
  destruct (e3 <=? em - p) eqn:Ele; cbn [at_most narrow below].
  - repeat split; try done; lia.
  - repeat split; try done. intros HKem. apply Z.leb_gt in Ele. lia.
Qed.

Lemma digits2_pos_iter_xO (m d : positive) :
  Z.pos (digits2_pos (Pos.iter xO m d)) = Z.pos (digits2_pos m) + Z.pos d.
Proof.
  induction d as [|d IH] using Pos.peano_ind.
  - cbn. lia.
  - rewrite Pos.iter_succ. cbn [digits2_pos]. lia.
Qed.

Lemma shl_align_magnitude (m : positive) (e e' : Z) :
  let r := shl_align m e e' in
  Z.pos (digits2_pos (fst r)) + snd r = Z.pos (digits2_pos m) + e.
Proof.
  cbv zeta. unfold shl_align.
  destruct (e' - e) as [|d|d] eqn:Ed; cbn [fst snd]; try done.
  rewrite digits2_pos_iter_xO. lia.
Qed.

Lemma binary_round_bound (s : bool) (m : positive) (e K : Z) :
  Z.pos (digits2_pos m) + e <= K -> SpecFloat.emin p em <= K ->
  let r := binary_round p em s m e in
  at_most (K + 1) r /\ narrow r /\ r <> S754_nan /\
  (K <= em - p -> below (K + 1) r).
Proof using Hp.
  intros HD HK. cbv zeta. unfold binary_round.
  pose proof (shl_align_magnitude m e
                (fexp p em (Z.pos (digits2_pos m) + e))) as Hs.
  cbv zeta in Hs. destruct (shl_align m e _) as [mz ez]. cbn [fst snd] in Hs.
  apply binary_round_aux_bound; cbn [Zdigits2]; lia.
Qed.

End Shift.

Section Operations.
Local Open Scope Z_scope.
Context (p em : Z) (Hp : 0 < p).

Lemma below_mono (K K' : Z) (x : spec_float) :
  K <= K' -> below K x -> below K' x.
Proof. destruct x; cbn; try done. lia. Qed.

Lemma below_at_most (K : Z) (x : spec_float) : below K x -> at_most K x.
Proof. by destruct x. Qed.

(** The product of two finite numbers. *)
Lemma SFmul_bound (sx sy : bool) (mx my : positive) (ex ey K : Z) :
  Z.pos (digits2_pos mx) + ex + (Z.pos (digits2_pos my) + ey) <= K ->
  SpecFloat.emin p em <= K -> K <= em - p ->
  below (K + 1)
    (SFmul p em (S754_finite sx mx ex) (S754_finite sy my ey)).
Proof using Hp.
  intros HD HK HKem. cbn [SFmul].
  pose proof (Zdigits2_mul (Z.pos mx) (Z.pos my) ltac:(lia) ltac:(lia))
    as Hd.
  rewrite <- Pos2Z.inj_mul in Hd. cbn [Zdigits2] in Hd.
  destruct (binary_round_aux_bound p em Hp (xorb sx sy) (Z.pos (mx * my))
              (ex + ey) loc_Exact K) as (_ & _ & _ & H);
    [lia|cbn [Zdigits2]; lia|done|]. by apply H.
Qed.

(** The quotient of two finite numbers. *)
Lemma SFdiv_bound (sx sy : bool) (mx my : positive) (ex ey : Z) :
  let K := Z.max (Z.pos (digits2_pos mx) + ex
                  - (Z.pos (digits2_pos my) + ey) + 1)
             (SpecFloat.emin p em) in
  let r := SFdiv p em (S754_finite sx mx ex) (S754_finite sy my ey) in
  at_most (K + 1) r /\ r <> S754_nan /\ (K <= em - p -> below (K + 1) r).
Proof using Hp.
  cbv zeta. cbn [SFdiv]. unfold SFdiv_core_binary. cbv zeta. cbn [Zdigits2].
  set (d1 := Z.pos (digits2_pos mx)). set (d2 := Z.pos (digits2_pos my)).
  set (e' := Z.min (fexp p em (d1 + ex - (d2 + ey))) (ex - ey)).
  set (s := ex - ey - e').
  set (m' := match s with
             | 0 => Z.pos mx
             | Z.pos _ => Z.shiftl (Z.pos mx) s
             | Z.neg _ => 0
             end).
  pose proof (digits2_pos_spec mx) as [_ Hmx]. fold d1 in Hmx.
  pose proof (digits2_pos_spec my) as [Hmy _]. fold d2 in Hmy.
  assert (Hs : 0 <= s) by (unfold s, e'; lia).
  assert (Hm' : 0 <= m' < 2 ^ (d1 + s)).
  { unfold m'. destruct s as [|q|q] eqn:Es.
    - rewrite Z.add_0_r. lia.
    - rewrite Z.shiftl_mul_pow2 by lia. rewrite Z.pow_add_r by lia.
      assert (0 < 2 ^ Z.pos q) by (apply Z.pow_pos_nonneg; lia). nia.
    - lia. }
  pose proof (Z.div_eucl_eq m' (Z.pos my) ltac:(lia)) as Heq.
  pose proof (Z.mod_pos_bound m' (Z.pos my) ltac:(lia)) as Hmod.
  unfold Z.modulo in Hmod.
  destruct (Z.div_eucl m' (Z.pos my)) as [q r] eqn:Eqr.
  assert (Hq : 0 <= q) by nia.
  assert (Hdq : Zdigits2 q <= Z.max 0 (d1 + s - d2 + 1)).
  { apply Zdigits2_le; [lia|]. split; [done|].
    destruct (Z_lt_ge_dec (d1 + s - d2 + 1) 0) as [Hneg|Hpos].
    - rewrite Z.max_l by lia. rewrite Z.pow_0_r.
      pose proof (Z.pow_le_mono_r 2 (d1 + s) (d2 - 1)). nia.
    - rewrite Z.max_r by lia.
      destruct (Z_lt_ge_dec q (2 ^ (d1 + s - d2 + 1))) as [|Hge]; [done|].
      assert (2 ^ (d1 + s) <= q * 2 ^ (d2 - 1)); [|nia].
      replace (d1 + s) with ((d1 + s - d2 + 1) + (d2 - 1)) at 1 by lia.
      rewrite Z.pow_add_r by lia.
      assert (0 < 2 ^ (d2 - 1)) by (apply Z.pow_pos_nonneg; lia). nia. }
  set (K := Z.max (d1 + ex - (d2 + ey) + 1) (SpecFloat.emin p em)).
  destruct (binary_round_aux_bound p em Hp (xorb sx sy) q e'
              (new_location (Z.pos my) r) K)
    as (H1 & _ & H2 & H3); [done| |unfold K; lia|done].
  unfold K, s, e', fexp in *. lia.
Qed.

(** A valid finite number has at most [p] digits, exactly [p] above the
    least exponent. *)
Lemma valid_finite (s : bool) (m : positive) (e : Z) :
  SpecFloat.valid_binary p em (S754_finite s m e) = true ->
  Z.pos (digits2_pos m) <= p /\ e <= em - p /\ SpecFloat.emin p em <= e /\
  (SpecFloat.emin p em < e -> Z.pos (digits2_pos m) = p).
Proof.
  cbn [SpecFloat.valid_binary]. unfold bounded, canonical_mantissa, fexp.
  intros [H1 H2]%andb_prop. apply Z.eqb_eq in H1. apply Z.leb_le in H2. lia.
Qed.

(** Between valid numbers, the order bounds the magnitude. *)
Lemma SFleb_magnitude (ma mb : positive) (ea eb : Z) (sb : bool) :
  SpecFloat.valid_binary p em (S754_finite false ma ea) = true ->
  SpecFloat.valid_binary p em (S754_finite sb mb eb) = true ->
  SFleb (S754_finite false ma ea) (S754_finite sb mb eb) = true ->
  sb = false /\
  Z.pos (digits2_pos ma) + ea <= Z.pos (digits2_pos mb) + eb.
Proof.
  intros Ha%valid_finite Hb%valid_finite. unfold SFleb. cbn [SFcompare].
  destruct sb; [done|]. intros Hc. split; [done|].
  destruct (Z.compare_spec ea eb) as [->|Hlt|Hgt]; [| |done].
  - assert (Hm : (ma <= mb)%positive).
    { change (Pos.compare_cont Eq ma mb) with (ma ?= mb)%positive in Hc.
      destruct (Pos.compare_spec ma mb); try lia; done. }
    pose proof (Zdigits2_mono (Z.pos ma) (Z.pos mb) ltac:(lia)) as Hd.
    cbn [Zdigits2] in Hd. lia.
  - lia.
Qed.

End Operations.

Section SmallFloats.
Local Open Scope Z_scope.

(** [small K x]: [x] is a zero or a finite number below [2^K] in absolute
    value. *)
Definition small (K : Z) (x : float) : Prop := below K (Prim2SF x).

Lemma small_mono (K K' : Z) (x : float) : K <= K' -> small K x -> small K' x.
Proof. apply below_mono. Qed.

Lemma small_is_finite (K : Z) (x : float) : small K x -> is_finite x = true.
Proof.
  unfold small. pose proof (SF_is_finite x) as H.
  by destruct (Prim2SF x).
Qed.

Lemma below_opp (K : Z) (x : spec_float) : below K x -> below K (SFopp x).
Proof. by destruct x. Qed.

(** Reading back a number written with a short mantissa. *)
Lemma SF2Prim_small (K : Z) (r : spec_float) :
  below K r -> narrow 24 r -> -1074 <= K -> K <= 900 ->
  small (K + 2) (SF2Prim r).
Proof.
  unfold small. destruct r as [s|s| |s m e]; try done.
  - intros _ _ _ _. by destruct s.
  - cbn [below narrow]. intros HK Hn Hlo Hhi.
    assert (Hf : below (K + 2)
                   (Prim2SF (Z.ldexp (of_uint63 (Uint63Axioms.of_Z (Z.pos m))) e))).
    { rewrite FloatLemmas.Z_ldexp_spec, of_uint63_spec, Uint63.of_Z_spec.
      pose proof (digits2_pos_spec m) as [_ Hm].
      assert (Hw : Z.pos m < Uint63Axioms.wB).
      { eapply Z.lt_le_trans; [exact Hm|].
        change Uint63Axioms.wB with (2 ^ 63). apply Z.pow_le_mono_r; lia. }
      rewrite Z.mod_small by lia. cbn [binary_normalize].
      destruct (binary_round_bound prec emax eq_refl false m 0
                  (Z.pos (digits2_pos m)))
        as (_ & _ & _ & H1); [lia|unfold SpecFloat.emin, prec, emax; lia|].
      specialize (H1 ltac:(unfold prec, emax; lia)).
      destruct (binary_round prec emax false m 0) as [s1|s1| |s1 m1 e1];
        try done.
      cbn [below] in H1. cbn [SFldexp].
      destruct (binary_round_bound prec emax eq_refl s1 m1 (e1 + e) (K + 1))
        as (_ & _ & _ & H2); [lia|unfold SpecFloat.emin, prec, emax; lia|].
      replace (K + 2) with (K + 1 + 1) by lia. apply H2.
      unfold prec, emax. lia. }
    cbn [SF2Prim]. destruct s; [|done].
    rewrite FloatAxioms.opp_spec. by apply below_opp.
Qed.

(** A [Float32Array] keeps a small number small. *)
Lemma fround_small (K : Z) (x : float) :
  small K x -> -149 <= K -> K <= 100 ->
  small (K + 3) (Number.Math_fround x).
Proof.
  unfold small, Number.Math_fround. intros Hx Hlo Hhi.
  destruct (Prim2SF x) as [s|s| |s m e] eqn:E; try done.
  - by rewrite E.
  - cbn [below] in Hx.
    destruct (binary_round_bound 24 128 eq_refl s m e K)
      as (_ & Hn & _ & H1); [done|unfold SpecFloat.emin; lia|].
    specialize (H1 ltac:(lia)).
    replace (K + 3) with (K + 1 + 2) by lia.
    apply SF2Prim_small; [done|done|lia|lia].
Qed.

(** A [Float32Array] keeps NaN and the infinities. *)
Lemma fround_not_finite (x : float) :
  is_finite x = false -> Number.Math_fround x = x.
Proof.
  intros Hx. unfold Number.Math_fround.
  pose proof (SF_is_finite x) as H. rewrite Hx in H.
  by destruct (Prim2SF x).
Qed.

End SmallFloats.

Section Shapes.
Local Open Scope float_scope.

(** The four tests of a number read off its decomposition. *)
Lemma float_cases (x : float) :
  match Prim2SF x with
  | S754_zero _ =>
      is_zero x = true /\ is_nan x = false /\ is_infinity x = false /\
      is_finite x = true
  | S754_finite _ _ _ =>
      is_zero x = false /\ is_nan x = false /\ is_infinity x = false /\
      is_finite x = true
  | S754_infinity _ =>
      is_zero x = false /\ is_nan x = false /\ is_infinity x = true /\
      is_finite x = false
  | S754_nan =>
      is_zero x = false /\ is_nan x = true /\ is_infinity x = false /\
      is_finite x = false
  end.
Proof.
  unfold is_finite, is_zero, is_nan, is_infinity.
  rewrite !FloatAxioms.eqb_spec, abs_spec.
  change (Prim2SF 0) with (S754_zero false).
  change (Prim2SF infinity) with (S754_infinity false).
  destruct (Prim2SF x) as [s|s| |s m e] eqn:E; unfold SFeqb; cbn.
  - by destruct s.
  - by destruct s.
  - done.
  - rewrite !Z.compare_refl, !Pos.compare_cont_refl. by destruct s.
Qed.

Lemma is_nan_true (x : float) : is_nan x = true <-> Prim2SF x = S754_nan.
Proof.
  pose proof (float_cases x) as H.
  destruct (Prim2SF x); split; intros; destruct H as (? & ? & ? & ?);
    congruence.
Qed.

Lemma not_finite_SF (x : float) :
  is_finite x = false ->
  Prim2SF x = S754_nan \/ exists s, Prim2SF x = S754_infinity s.
Proof.
  pose proof (float_cases x) as H.
  destruct (Prim2SF x); intros; destruct H as (? & ? & ? & ?);
    try congruence; eauto.
Qed.

(** *** Products *)

Lemma mul_small (Kx Ky : Z) (x y : float) :
  small Kx x -> small Ky y ->
  (-1074 <= Kx + Ky)%Z -> (Kx + Ky <= 971)%Z ->
  small (Kx + Ky + 1) (x * y).
Proof.
  unfold small. rewrite mul_spec. intros Hx Hy Hlo Hhi.
  destruct (Prim2SF x) as [sx|sx| |sx mx ex],
           (Prim2SF y) as [sy|sy| |sy my ey]; try done.
  cbn [below] in Hx, Hy.
  apply (SFmul_bound prec emax eq_refl); [lia|done|done].
Qed.

(** A zero times a finite number is a zero, times anything else NaN. *)
Lemma zero_mul_finite (K : Z) (x : float) :
  is_finite x = true -> small K (0 * x).
Proof.
  unfold small. rewrite mul_spec. intros Hx.
  change (Prim2SF 0) with (S754_zero false).
  by destruct (is_finite_SF x Hx) as [[s ->]|(s & m & e & ->)].
Qed.

Lemma zero_mul_not_finite (x : float) :
  is_finite x = false -> is_nan (0 * x) = true.
Proof.
  intros Hx. apply is_nan_true. rewrite mul_spec.
  change (Prim2SF 0) with (S754_zero false).
  by destruct (not_finite_SF x Hx) as [->|[s ->]].
Qed.

Lemma one_mul_small (K : Z) (x : float) :
  small K x -> (-1075 <= K)%Z -> (K <= 970)%Z -> small (K + 2) (1 * x).
Proof.
  intros Hx Hlo Hhi. replace (K + 2)%Z with (1 + K + 1)%Z by lia.
  apply mul_small; [|done|lia|lia].
  unfold small. change (Prim2SF 1) with (S754_finite false 4503599627370496 (-52)).
  cbn. lia.
Qed.

Lemma mul_nan_l (x y : float) : is_nan x = true -> is_nan (x * y) = true.
Proof.
  rewrite !is_nan_true, mul_spec. by intros ->.
Qed.

Lemma mul_nan_r (x y : float) : is_nan y = true -> is_nan (x * y) = true.
Proof.
  rewrite !is_nan_true, mul_spec. intros ->. by destruct (Prim2SF x).
Qed.

(** *** Differences and sums with a zero *)

Lemma sub_small_zero (K K' : Z) (x y : float) :
  small K x -> small K' y -> is_zero x = true \/ is_zero y = true ->
  small K (x - y) \/ small K' (x - y).
Proof.
  unfold small. rewrite sub_spec.
  pose proof (float_cases x) as Hx. pose proof (float_cases y) as Hy.
  destruct (Prim2SF x) as [sx|sx| |sx mx ex],
           (Prim2SF y) as [sy|sy| |sy my ey]; try done; cbn [below];
    intros H1 H2 Hz.
  - left. by destruct sx, sy.
  - by right.
  - by left.
  - destruct Hx as (Hx & _), Hy as (Hy & _), Hz; congruence.
Qed.

Lemma sub_nan_l (x y : float) : is_nan x = true -> is_nan (x - y) = true.
Proof. rewrite !is_nan_true, sub_spec. by intros ->. Qed.

Lemma sub_nan_r (x y : float) : is_nan y = true -> is_nan (x - y) = true.
Proof.
  rewrite !is_nan_true, sub_spec. intros ->. by destruct (Prim2SF x).
Qed.

Lemma add_small_zero (K K' : Z) (x y : float) :
  small K x -> small K' y -> is_zero x = true \/ is_zero y = true ->
  small K (x + y) \/ small K' (x + y).
Proof.
  unfold small. rewrite add_spec.
  pose proof (float_cases x) as Hx. pose proof (float_cases y) as Hy.
  destruct (Prim2SF x) as [sx|sx| |sx mx ex],
           (Prim2SF y) as [sy|sy| |sy my ey]; try done; cbn [below];
    intros H1 H2 Hz.
  - left. by destruct sx, sy.
  - by right.
  - by left.
  - destruct Hx as (Hx & _), Hy as (Hy & _), Hz; congruence.
Qed.

(** *** What a [Float32Array] keeps *)

Lemma fround_nan (x : float) :
  is_nan x = true -> is_nan (Number.Math_fround x) = true.
Proof.
  intros Hx. rewrite fround_not_finite; [done|].
  unfold is_finite. by rewrite Hx.
Qed.

End Shapes.

Section Normalizing.
Local Open Scope float_scope.

(** The reciprocal of a finite number, when it is finite, is as small as
    the number is large. *)
Lemma recip_magnitude (s : bool) (m : positive) (e : Z) :
  at_most (Z.max (3 - (Z.pos (digits2_pos m) + e)) (-1073))
    (SFdiv prec emax (Prim2SF 1) (S754_finite s m e)).
Proof.
  change (Prim2SF 1) with (S754_finite false 4503599627370496 (-52)).
  destruct (SFdiv_bound prec emax eq_refl false s 4503599627370496 m (-52) e)
    as (H & _ & _).
  change (Z.pos (digits2_pos 4503599627370496) + -52)%Z with 1%Z in H.
  change (SpecFloat.emin prec emax) with (-1074)%Z in H.
  replace (Z.max (3 - (Z.pos (digits2_pos m) + e)) (-1073))
    with (Z.max (1 - (Z.pos (digits2_pos m) + e) + 1) (-1074) + 1)%Z by lia.
  exact H.
Qed.

(** Scaling a finite number by the reciprocal of a bound of it. *)
Lemma scaled_small (a b : float) :
  is_finite a = true -> (abs a <=? b) = true -> is_finite (1 / b) = true ->
  small 7 (Number.Math_fround (a * (1 / b))).
Proof.
  intros Ha Hab Hr.
  replace 7%Z with (4 + 3)%Z by done. apply fround_small; [|lia|lia].
  unfold small. rewrite mul_spec.
  pose proof (Prim2SF_valid a) as Va. pose proof (Prim2SF_valid b) as Vb.
  rewrite leb_spec, abs_spec in Hab.
  apply is_finite_SF in Hr. rewrite div_spec in Hr.
  pose proof (div_spec 1 b) as Hd.
  destruct (is_finite_SF a Ha) as [[sa Ea]|(sa & ma & ea & Ea)];
    rewrite Ea in *.
  - (* a zero: the product is a zero unless the reciprocal is not finite *)
    destruct Hr as [[sr Er]|(sr & mr & er & Er)];
      unfold SF64div in Er; rewrite Hd; unfold SF64div; rewrite Er; done.
  - cbn [SFabs] in Hab.
    destruct (Prim2SF b) as [sb|sb| |sb mb eb] eqn:Eb; try done.
    + (* b infinite: the reciprocal is a zero *)
      rewrite Hd. unfold SF64div.
      change (Prim2SF 1) with (S754_finite false 4503599627370496 (-52)).
      done.
    + destruct (SFleb_magnitude prec emax ma mb ea eb sb Va Vb Hab)
        as [-> Hmag].
      pose proof (valid_finite prec emax _ _ _ Vb) as (Hdb & Heb & _ & _).
      pose proof (recip_magnitude false mb eb) as Hrm.
      rewrite Hd. unfold SF64div, SF64mul in *.
      destruct (SFdiv prec emax (Prim2SF 1) (S754_finite false mb eb))
        as [sr|sr| |sr mr er] eqn:Er.
      * done.
      * by destruct Hr as [[? ?]|(? & ? & ? & ?)].
      * by destruct Hr as [[? ?]|(? & ? & ? & ?)].
      * cbn [at_most] in Hrm.
        replace 4%Z with (3 + 1)%Z by done.
        apply (SFmul_bound prec emax eq_refl);
          unfold SpecFloat.emin, prec, emax in *; lia.
Qed.

(** A number above 1e-5 has a finite reciprocal. *)
Lemma recip_finite (b : float) :
  (1e-5 <? b) = true -> is_finite (1 / b) = true.
Proof.
  intros Hb. pose proof (Prim2SF_valid b) as Vb.
  pose proof (SF_is_finite (1 / b)) as Hf. rewrite div_spec in Hf.
  rewrite ltb_spec in Hb. unfold SFltb in Hb.
  change (Prim2SF 1e-5) with (S754_finite false 5902958103587057 (-69)) in Hb.
  unfold SF64div in Hf.
  destruct (Prim2SF b) as [sb|sb| |sb mb eb] eqn:Eb; try done.
  destruct (SFleb_magnitude prec emax 5902958103587057 mb (-69) eb sb
              eq_refl Vb) as [-> Hmag].
  { unfold SFleb.
    by destruct (SFcompare _ (S754_finite sb mb eb)) as [[]|]. }
  change (Z.pos (digits2_pos 5902958103587057) + -69)%Z with (-16)%Z in Hmag.
  change (Prim2SF 1) with (S754_finite false 4503599627370496 (-52)) in Hf.
  destruct (SFdiv_bound prec emax eq_refl false false 4503599627370496 mb
              (-52) eb) as (_ & _ & H).
  change (Z.pos (digits2_pos 4503599627370496) + -52)%Z with 1%Z in H.
  change (SpecFloat.emin prec emax) with (-1074)%Z in H.
  specialize (H ltac:(unfold prec, emax; lia)).
  by destruct (SFdiv prec emax _ (S754_finite false mb eb)).
Qed.

End Normalizing.

Section HostLaws.
Context `{MathHost}.
Local Open Scope float_scope.

(** What the proof of safety asks of the host.  On [Float32Array] values,
    the only arguments a [vec3] has for it, its root of a sum of squares is
    not below the magnitude of a finite argument; and its arccosine is a
    number on [-1, 1]. *)
Definition hypot_covers_arguments : Prop :=
  forall a b c,
    let x := Number.Math_fround a in
    let y := Number.Math_fround b in
    let z := Number.Math_fround c in
    is_finite x = true -> is_finite y = true -> is_finite z = true ->
    (abs x <=? hypot_host x y z) = true /\
    (abs y <=? hypot_host x y z) = true /\
    (abs z <=? hypot_host x y z) = true.

Definition acos_is_a_number : Prop :=
  forall x, (-1 <=? x) = true -> (x <=? 1) = true ->
            is_nan (Math_acos x) = false.

Lemma abs_leb_infinity (x : float) :
  is_finite x = true -> (abs x <=? infinity) = true.
Proof.
  intros Hx. rewrite leb_spec, abs_spec.
  change (Prim2SF infinity) with (S754_infinity false).
  by destruct (is_finite_SF x Hx) as [[s ->]|(s & m & e & ->)].
Qed.

Lemma abs_leb_abs (x y : float) :
  is_nan y = false -> is_zero x = true \/ x = y ->
  (abs x <=? abs y) = true.
Proof.
  intros Hy Hx. rewrite leb_spec, !abs_spec.
  pose proof (float_cases x) as Cx. pose proof (float_cases y) as Cy.
  destruct Hx as [Hx| ->].
  - destruct (Prim2SF x); destruct Cx as (? & ? & ? & ?); try congruence.
    destruct (Prim2SF y); destruct Cy as (? & ? & ? & ?); try congruence;
      done.
  - destruct (Prim2SF y) as [s|s| |s m e]; destruct Cy as (? & ? & ? & ?);
      try congruence; unfold SFleb; cbn; try done.
    by rewrite Z.compare_refl, Pos.compare_cont_refl.
Qed.

(** [Math.hypot] is not below a finite argument whenever its reciprocal is
    finite. *)
Lemma Math_hypot_covers (a b c : float) :
  hypot_covers_arguments ->
  let x := Number.Math_fround a in
  let y := Number.Math_fround b in
  let z := Number.Math_fround c in
  is_finite (1 / Math_hypot x y z) = true ->
  (is_finite x = true -> (abs x <=? Math_hypot x y z) = true) /\
  (is_finite y = true -> (abs y <=? Math_hypot x y z) = true) /\
  (is_finite z = true -> (abs z <=? Math_hypot x y z) = true).
Proof.
  intros Hlaw x y z. pose proof (Hlaw a b c) as Hl. cbv zeta in Hl.
  fold x y z in Hl. clearbody x y z. unfold Math_hypot.
  destruct (is_infinity x || is_infinity y || is_infinity z) eqn:Hinf.
  { intros _. repeat split; apply abs_leb_infinity. }
  destruct (is_nan x || is_nan y || is_nan z) eqn:Hnan.
  { intros Hr. by vm_compute in Hr. }
  apply orb_false_elim in Hinf as [Hinf Hiz].
  apply orb_false_elim in Hinf as [Hix Hiy].
  apply orb_false_elim in Hnan as [Hnan Hnz].
  apply orb_false_elim in Hnan as [Hnx Hny].
  assert (Fx : is_finite x = true) by (unfold is_finite; by rewrite Hnx, Hix).
  assert (Fy : is_finite y = true) by (unfold is_finite; by rewrite Hny, Hiy).
  assert (Fz : is_finite z = true) by (unfold is_finite; by rewrite Hnz, Hiz).
  intros _.
  destruct (is_zero y && is_zero z) eqn:Hyz.
  { apply andb_prop in Hyz as [Hy Hz].
    repeat split; intros _; apply abs_leb_abs; auto. }
  destruct (is_zero x && is_zero z) eqn:Hxz.
  { apply andb_prop in Hxz as [Hx Hz].
    repeat split; intros _; apply abs_leb_abs; auto. }
  destruct (is_zero x && is_zero y) eqn:Hxy.
  { apply andb_prop in Hxy as [Hx Hy].
    repeat split; intros _; apply abs_leb_abs; auto. }
  destruct (Hl Fx Fy Fz) as (? & ? & ?). auto.
Qed.

Lemma Math_hypot_infinity (x y z : float) :
  is_infinity x = true \/ is_infinity y = true \/ is_infinity z = true ->
  Math_hypot x y z = infinity.
Proof.
  unfold Math_hypot. intros [->|[->| ->]]; by rewrite ?orb_true_r.
Qed.

Lemma Math_hypot_nan (x y z : float) :
  is_infinity x = false -> is_infinity y = false -> is_infinity z = false ->
  is_nan x = true \/ is_nan y = true \/ is_nan z = true ->
  Math_hypot x y z = nan.
Proof.
  unfold Math_hypot. intros -> -> ->. cbn [orb].
  intros [->|[->| ->]]; by rewrite ?orb_true_r.
Qed.

(** *** One component of the direction *)

Lemma scaled_component (d len : float) :
  (is_finite d = true -> is_finite (1 / len) = true ->
   (abs d <=? len) = true) ->
  (is_infinity d = true -> len = infinity) ->
  let c := Number.Math_fround (d * (1 / len)) in
  (is_finite (1 / len) = true /\ is_finite d = true /\ small 7 c) \/
  (is_finite (1 / len) = true /\ is_finite d = false /\ is_nan c = true) \/
  (is_finite (1 / len) = false /\ is_finite c = false).
Proof.
  intros Hcov Hinf. cbv zeta.
  destruct (is_finite (1 / len)) eqn:Hr.
  - destruct (is_finite d) eqn:Hd.
    + left. repeat split. by apply scaled_small; [|apply Hcov|].
    + right; left. repeat split. apply fround_nan.
      pose proof (float_cases d) as Cd.
      destruct (not_finite_SF d Hd) as [E|[s E]]; rewrite E in Cd;
        destruct Cd as (_ & Hn & Hi & _).
      * by apply mul_nan_l.
      * rewrite (Hinf Hi). change (1 / infinity) with 0.
        apply is_nan_true. rewrite mul_spec, E. done.
  - right; right. split; [done|].
    assert (Hm : is_finite (d * (1 / len)) = false).
    { pose proof (SF_is_finite (d * (1 / len))) as Hf.
      rewrite mul_spec in Hf.
      destruct (not_finite_SF _ Hr) as [E|[s E]]; rewrite E in Hf.
      - by destruct (Prim2SF d).
      - by destruct (Prim2SF d). }
    by rewrite fround_not_finite.
Qed.

End HostLaws.

Section Cross.
Local Open Scope float_scope.

(** A number that is small or NaN, but not infinite. *)
Definition small_or_nan (K : Z) (x : float) : Prop :=
  small K x \/ is_nan x = true.

Lemma small_or_nan_not_infinite (K : Z) (x : float) :
  small_or_nan K x -> is_infinity x = false.
Proof.
  pose proof (float_cases x) as C. unfold small_or_nan, small.
  destruct (Prim2SF x); destruct C as (? & ? & ? & ?); intros [?|?];
    done || congruence.
Qed.

Lemma zero_mul_is_zero (x : float) :
  is_finite x = true -> is_zero (0 * x) = true.
Proof.
  intros Hx. pose proof (float_cases (0 * x)) as C. rewrite mul_spec in C.
  change (Prim2SF 0) with (S754_zero false) in C.
  by destruct (is_finite_SF x Hx) as [[s E]|(s & m & e & E)]; rewrite E in C;
    destruct C.
Qed.

(** [t - 0 * y] and [0 * y - t] are as small as [t], or NaN. *)
Lemma sub_zero_mul_r (K : Z) (t y : float) :
  small_or_nan K t -> small_or_nan K (t - 0 * y).
Proof.
  intros [Ht|Ht]; [|right; by apply sub_nan_l].
  destruct (is_finite y) eqn:Hy.
  - left.
    destruct (sub_small_zero K K t (0 * y) Ht (zero_mul_finite K y Hy));
      [right; by apply zero_mul_is_zero|done|done].
  - right. apply sub_nan_r. by apply zero_mul_not_finite.
Qed.

Lemma sub_zero_mul_l (K : Z) (t y : float) :
  small_or_nan K t -> small_or_nan K (0 * y - t).
Proof.
  intros [Ht|Ht]; [|right; by apply sub_nan_r].
  destruct (is_finite y) eqn:Hy.
  - left.
    destruct (sub_small_zero K K (0 * y) t (zero_mul_finite K y Hy) Ht);
      [left; by apply zero_mul_is_zero|done|done].
  - right. apply sub_nan_l. by apply zero_mul_not_finite.
Qed.

Lemma one_mul_small_or_nan (K : Z) (x : float) :
  (-1075 <= K)%Z -> (K <= 970)%Z ->
  small_or_nan K x -> small_or_nan (K + 2) (1 * x).
Proof.
  intros Hlo Hhi [Hx|Hx]; [left; by apply one_mul_small|].
  right. by apply mul_nan_r.
Qed.

Lemma zero_mul_small_or_nan (K : Z) (x : float) : small_or_nan K (0 * x).
Proof.
  destruct (is_finite x) eqn:Hx.
  - left. by apply zero_mul_finite.
  - right. by apply zero_mul_not_finite.
Qed.

Lemma fround_small_or_nan (K : Z) (x : float) :
  (-149 <= K)%Z -> (K <= 100)%Z ->
  small_or_nan K x -> small_or_nan (K + 3) (Number.Math_fround x).
Proof.
  intros Hlo Hhi [Hx|Hx]; [left; by apply fround_small|].
  right. by apply fround_nan.
Qed.

Lemma small_or_nan_small (K : Z) (x : float) :
  small_or_nan K x -> is_nan x = false -> small K x.
Proof. intros [?|?] ?; [done|congruence]. Qed.

(** The components of [cross(up, dir)]. *)
Lemma cross_up (x y z : float) :
  vec3.cross Barbell.up [x; y; z]
  = [ Number.Math_fround (1 * z - 0 * y);
      Number.Math_fround (0 * x - 0 * z);
      Number.Math_fround (0 * y - 1 * x) ].
Proof. reflexivity. Qed.

Lemma cross_up_small_or_nan (x y z : float) :
  small_or_nan 7 x -> small_or_nan 7 y -> small_or_nan 7 z ->
  small_or_nan 12 (Number.Math_fround (1 * z - 0 * y)) /\
  small_or_nan 12 (Number.Math_fround (0 * x - 0 * z)) /\
  small_or_nan 12 (Number.Math_fround (0 * y - 1 * x)).
Proof.
  intros Hx Hy Hz. repeat split.
  - apply (fround_small_or_nan 9); [lia|lia|].
    apply sub_zero_mul_r. by apply (one_mul_small_or_nan 7).
  - apply (fround_small_or_nan 9); [lia|lia|].
    apply sub_zero_mul_r. apply zero_mul_small_or_nan.
  - apply (fround_small_or_nan 9); [lia|lia|].
    apply sub_zero_mul_l. by apply (one_mul_small_or_nan 7).
Qed.

(** A NaN in the direction is a NaN in the cross product. *)
Lemma cross_up_nan (x y z : float) :
  is_nan x = true \/ is_nan y = true \/ is_nan z = true ->
  is_nan (Number.Math_fround (1 * z - 0 * y)) = true \/
  is_nan (Number.Math_fround (0 * x - 0 * z)) = true \/
  is_nan (Number.Math_fround (0 * y - 1 * x)) = true.
Proof.
  intros [Hx|[Hy|Hz]].
  - right; left. apply fround_nan, sub_nan_l. by apply mul_nan_r.
  - left. apply fround_nan, sub_nan_r. by apply mul_nan_r.
  - left. apply fround_nan, sub_nan_l. by apply mul_nan_r.
Qed.

(** With no finite component in the direction the cross product is NaN
    throughout. *)
Lemma cross_up_not_finite (x y z : float) :
  is_finite x = false -> is_finite y = false -> is_finite z = false ->
  is_nan (Number.Math_fround (1 * z - 0 * y)) = true /\
  is_nan (Number.Math_fround (0 * x - 0 * z)) = true /\
  is_nan (Number.Math_fround (0 * y - 1 * x)) = true.
Proof.
  intros Hx Hy Hz. repeat split; apply fround_nan.
  - apply sub_nan_r. by apply zero_mul_not_finite.
  - apply sub_nan_l. by apply zero_mul_not_finite.
  - apply sub_nan_l. by apply zero_mul_not_finite.
Qed.

Lemma is_nan_not_infinite (x : float) :
  is_nan x = true -> is_infinity x = false.
Proof.
  pose proof (float_cases x) as C.
  destruct (Prim2SF x); destruct C as (? & ? & ? & ?); congruence.
Qed.

(** The dot product with +Y of a small direction is a number. *)
Lemma dot_up_small (x y z : float) :
  small 7 x -> small 7 y -> small 7 z ->
  is_nan (vec3.dot Barbell.up [x; y; z]) = false.
Proof.
  intros Hx Hy Hz.
  change (vec3.dot Barbell.up [x; y; z]) with (0 * x + 1 * y + 0 * z).
  apply is_finite_not_nan, (small_is_finite 9).
  pose proof (small_is_finite _ _ Hx) as Fx.
  pose proof (small_is_finite _ _ Hz) as Fz.
  assert (H1 : small 9 (0 * x + 1 * y)).
  { destruct (add_small_zero 9 9 (0 * x) (1 * y));
      [by apply zero_mul_finite|by apply (one_mul_small 7)
      |left; by apply zero_mul_is_zero|done|done]. }
  destruct (add_small_zero 9 9 (0 * x + 1 * y) (0 * z));
    [done|by apply zero_mul_finite|right; by apply zero_mul_is_zero|done|done].
Qed.

End Cross.

Section Direction.
Context `{MathHost}.
Import Barbell.
Local Open Scope float_scope.

(** The direction [scale(d, 1 / length(d))] of any [vec3] [d]: all of its
    components are small, or the length of its cross product with +Y is
    NaN. *)
Lemma direction_is_small_or_void (a b c : float) :
  hypot_covers_arguments ->
  let d := vec3.fromValues a b c in
  let dir := vec3.scale d (1 / vec3.length d) in
  Forall (small 7) dir \/ vec3.length (vec3.cross up dir) = nan.
Proof.
  intros Hlaw d. cbv zeta.
  change (vec3.length d)
    with (Math_hypot (Number.Math_fround a) (Number.Math_fround b)
            (Number.Math_fround c)).
  pose proof (Math_hypot_covers a b c Hlaw) as Hcov. cbv zeta in Hcov.
  change d with [Number.Math_fround a; Number.Math_fround b;
                 Number.Math_fround c]. clear d.
  set (d0 := Number.Math_fround a) in *.
  set (d1 := Number.Math_fround b) in *.
  set (d2 := Number.Math_fround c) in *.
  clearbody d0 d1 d2.
  set (len := Math_hypot d0 d1 d2) in *.
  change (vec3.scale [d0; d1; d2] (1 / len))
    with [ Number.Math_fround (d0 * (1 / len));
           Number.Math_fround (d1 * (1 / len));
           Number.Math_fround (d2 * (1 / len)) ].
  set (x := Number.Math_fround (d0 * (1 / len))).
  set (y := Number.Math_fround (d1 * (1 / len))).
  set (z := Number.Math_fround (d2 * (1 / len))).
  rewrite cross_up.
  change (vec3.length [?a; ?b; ?c]) with (Math_hypot a b c).
  assert (Hinf : is_infinity d0 = true \/ is_infinity d1 = true \/
                 is_infinity d2 = true -> len = infinity).
  { apply Math_hypot_infinity. }
  assert (Hx : (is_finite (1 / len) = true /\ is_finite d0 = true /\
                small 7 x) \/
               (is_finite (1 / len) = true /\ is_finite d0 = false /\
                is_nan x = true) \/
               (is_finite (1 / len) = false /\ is_finite x = false)).
  { apply scaled_component; [|by auto].
    intros Hd Hr. by apply (proj1 (Hcov Hr)). }
  assert (Hy : (is_finite (1 / len) = true /\ is_finite d1 = true /\
                small 7 y) \/
               (is_finite (1 / len) = true /\ is_finite d1 = false /\
                is_nan y = true) \/
               (is_finite (1 / len) = false /\ is_finite y = false)).
  { apply scaled_component; [|by auto].
    intros Hd Hr. by apply (proj1 (proj2 (Hcov Hr))). }
  assert (Hz : (is_finite (1 / len) = true /\ is_finite d2 = true /\
                small 7 z) \/
               (is_finite (1 / len) = true /\ is_finite d2 = false /\
                is_nan z = true) \/
               (is_finite (1 / len) = false /\ is_finite z = false)).
  { apply scaled_component; [|by auto].
    intros Hd Hr. by apply (proj2 (proj2 (Hcov Hr))). }
  clearbody x y z len. clear Hcov Hinf.
  destruct (is_finite (1 / len)) eqn:Hr.
  - (* each component is small or NaN *)
    assert (Sx : small_or_nan 7 x).
    { destruct Hx as [(_ & _ & ?)|[(_ & _ & ?)|[? _]]];
        [by left|by right|done]. }
    assert (Sy : small_or_nan 7 y).
    { destruct Hy as [(_ & _ & ?)|[(_ & _ & ?)|[? _]]];
        [by left|by right|done]. }
    assert (Sz : small_or_nan 7 z).
    { destruct Hz as [(_ & _ & ?)|[(_ & _ & ?)|[? _]]];
        [by left|by right|done]. }
    destruct (is_nan x || is_nan y || is_nan z) eqn:Hnan.
    + right.
      destruct (cross_up_small_or_nan x y z Sx Sy Sz) as (A0 & A1 & A2).
      apply Math_hypot_nan;
        try (eapply small_or_nan_not_infinite; eassumption).
      apply cross_up_nan.
      apply orb_prop in Hnan as [Hnan|?]; [|by auto].
      apply orb_prop in Hnan as [?|?]; by auto.
    + left.
      apply orb_false_elim in Hnan as [Hnan Nz].
      apply orb_false_elim in Hnan as [Nx Ny].
      repeat constructor; by apply small_or_nan_small.
  - (* no component is finite *)
    right.
    assert (Fx : is_finite x = false).
    { by destruct Hx as [(? & _)|[(? & _)|[_ ?]]]. }
    assert (Fy : is_finite y = false).
    { by destruct Hy as [(? & _)|[(? & _)|[_ ?]]]. }
    assert (Fz : is_finite z = false).
    { by destruct Hz as [(? & _)|[(? & _)|[_ ?]]]. }
    destruct (cross_up_not_finite x y z Fx Fy Fz) as (A0 & A1 & A2).
    apply Math_hypot_nan; try (by apply is_nan_not_infinite). by left.
Qed.

(** The normalized cross product of a small direction is finite. *)
Lemma normalized_axis_finite (x y z : float) :
  hypot_covers_arguments ->
  small 7 x -> small 7 y -> small 7 z ->
  let axis := vec3.cross up [x; y; z] in
  (1e-5 <? vec3.length axis) = true ->
  Forall (fun v => is_finite v = true)
    (vec3.scale axis (1 / vec3.length axis)).
Proof.
  intros Hlaw Hx Hy Hz. cbv zeta. rewrite cross_up.
  destruct (cross_up_small_or_nan x y z) as (A0 & A1 & A2);
    [by left|by left|by left|].
  pose proof (Math_hypot_covers (1 * z - 0 * y) (0 * x - 0 * z)
                (0 * y - 1 * x) Hlaw) as Hcov. cbv zeta in Hcov.
  set (a0 := Number.Math_fround (1 * z - 0 * y)) in *.
  set (a1 := Number.Math_fround (0 * x - 0 * z)) in *.
  set (a2 := Number.Math_fround (0 * y - 1 * x)) in *.
  clearbody a0 a1 a2.
  change (vec3.length [a0; a1; a2]) with (Math_hypot a0 a1 a2).
  set (len := Math_hypot a0 a1 a2) in *.
  change (vec3.scale [a0; a1; a2] (1 / len))
    with [ Number.Math_fround (a0 * (1 / len));
           Number.Math_fround (a1 * (1 / len));
           Number.Math_fround (a2 * (1 / len)) ].
  intros Hguard.
  pose proof (recip_finite len Hguard) as Hr.
  destruct (Hcov Hr) as (C0 & C1 & C2).
  destruct (is_nan a0 || is_nan a1 || is_nan a2) eqn:Hnan.
  { (* a NaN component would make the length NaN *)
    assert (E : len = nan).
    { apply Math_hypot_nan;
        try (eapply small_or_nan_not_infinite; eassumption).
      apply orb_prop in Hnan as [Hnan|?]; [|by auto].
      apply orb_prop in Hnan as [?|?]; by auto. }
    rewrite E in Hguard. discriminate. }
  apply orb_false_elim in Hnan as [Hnan N2].
  apply orb_false_elim in Hnan as [N0 N1].
  pose proof (small_is_finite _ _ (small_or_nan_small _ _ A0 N0)) as F0.
  pose proof (small_is_finite _ _ (small_or_nan_small _ _ A1 N1)) as F1.
  pose proof (small_is_finite _ _ (small_or_nan_small _ _ A2 N2)) as F2.
  repeat constructor; apply (small_is_finite 7), scaled_small; auto.
Qed.

End Direction.

Section Safety.
Context `{GlMatrix} `{MathHost}.
Import Barbell.
Local Open Scope float_scope.

(** The three outcomes of the guards, with what reaches [mat4.rotate]. *)
Lemma rotation_of_direction (f : frame) (a b c : float) :
  hypot_covers_arguments -> acos_is_a_number ->
  dir f = vec3.scale (vec3.fromValues a b c)
            (1 / vec3.length (vec3.fromValues a b c)) ->
  axis f = vec3.cross up (dir f) ->
  axisLen f = vec3.length (axis f) ->
  ((1e-5 <? axisLen f) = true /\
   barbell_rotation f
   = Some (Math_acos (clamped_dot (dir f)),
           vec3.scale (axis f) (1 / axisLen f)) /\
   (-1 <=? clamped_dot (dir f)) = true /\
   (clamped_dot (dir f) <=? 1) = true /\
   is_nan (Math_acos (clamped_dot (dir f))) = false /\
   Forall (fun v => is_finite v = true)
     (vec3.scale (axis f) (1 / axisLen f))) \/
  ((1e-5 <? axisLen f) = false /\ (vec3.dot up (dir f) <? 0) = true /\
   barbell_rotation f = Some (Number.Math_PI, [1; 0; 0])) \/
  ((1e-5 <? axisLen f) = false /\ (vec3.dot up (dir f) <? 0) = false /\
   barbell_rotation f = None).
Proof.
  intros Hhyp Hacos Hdir Haxis Hlen.
  destruct (barbell_rotation_cases f) as [[Hg E]|[?|?]]; [left|by auto..].
  pose proof (direction_is_small_or_void a b c Hhyp) as Hd.
  cbv zeta in Hd. rewrite <- Hdir in Hd.
  destruct Hd as [Hs|Hvoid].
  2:{ rewrite Hlen, Haxis, Hvoid in Hg. discriminate. }
  destruct (dir f) as [|x [|y [|z [|? ?]]]] eqn:Ed;
    try (rewrite Hdir in Ed; discriminate).
  apply Forall_cons in Hs as [Sx Hs]. apply Forall_cons in Hs as [Sy Hs].
  apply Forall_cons in Hs as [Sz _].
  destruct (clamped_dot_range [x; y; z] (dot_up_small x y z Sx Sy Sz))
    as (_ & Hlo & Hhi).
  split; [done|]. split; [exact E|].
  split; [done|]. split; [done|]. split; [by apply Hacos|].
  rewrite Hlen, Haxis. apply normalized_axis_finite; try done.
  by rewrite <- Haxis, <- Hlen.
Qed.

(** C10.  Degenerate-direction safety.  On a host whose [Math.hypot] of
    [Float32Array] values is not below the magnitude of a finite argument
    and whose arccosine is a number on [-1, 1], for every pair of hand
    matrices (with distinct positions or not), [drawBarbell] returns and
    turns the bar and the plates by [barbell_rotation], for which one of
    three things holds.
    Either the cross product of +Y and the direction is longer than 1e-5:
    then the rotation is by the arccosine of the dot product clamped to
    [-1, 1], which is a number, about the normalized cross product, whose
    components are finite.  Or it is not, and the dot product is negative:
    then the rotation is the half turn about +X.  Or no rotation is
    applied.  NaN never reaches [mat4.rotate]. *)
Theorem barbell_rotation_is_never_NaN (L R : array) :
  hypot_covers_arguments -> acos_is_a_number ->
  let f := barbellFrame L R in
  (forall w, wf w ->
     exists w',
       drawBarbell L R w = Ok tt w' /\
       gl w' = gl w ++ barbell_draws (current_matrix w) f) /\
  (((1e-5 <? axisLen f) = true /\
    barbell_rotation f
    = Some (Math_acos (clamped_dot (dir f)),
            vec3.scale (axis f) (1 / axisLen f)) /\
    (-1 <=? clamped_dot (dir f)) = true /\
    (clamped_dot (dir f) <=? 1) = true /\
    is_nan (Math_acos (clamped_dot (dir f))) = false /\
    Forall (fun v => is_finite v = true)
      (vec3.scale (axis f) (1 / axisLen f))) \/
   ((1e-5 <? axisLen f) = false /\ (vec3.dot up (dir f) <? 0) = true /\
    barbell_rotation f = Some (Number.Math_PI, [1; 0; 0])) \/
   ((1e-5 <? axisLen f) = false /\ (vec3.dot up (dir f) <? 0) = false /\
    barbell_rotation f = None)).
Proof.
  intros Hhyp Hacos. cbv zeta. split.
  - intros w Hw. destruct (drawBarbell_here w L R Hw) as (w' & E & HT & _).
    exists w'. split; [exact E|exact HT].
  - apply (rotation_of_direction _
             (Number.Math_fround (idx R 12) - Number.Math_fround (idx L 12))
             (Number.Math_fround (idx R 13) - Number.Math_fround (idx L 13))
             (Number.Math_fround (idx R 14) - Number.Math_fround (idx L 14)));
      [exact Hhyp|exact Hacos|reflexivity..].
Qed.

End Safety.

(** The sample host meets both assumptions. *)
Lemma host_sample_hypot_covers : @hypot_covers_arguments host_sample.
Proof.
  intros a b c x y z Fx Fy Fz. cbn [hypot_host host_sample].
  destruct ((abs x <=? _) && (abs y <=? _) && (abs z <=? _))%float eqn:E.
  - apply andb_prop in E as [E Ez]. by apply andb_prop in E as [Ex Ey].
  - repeat split; by apply abs_leb_infinity.
Qed.

Lemma host_sample_acos_is_a_number : @acos_is_a_number host_sample.
Proof.
  intros x Hlo Hhi. cbn [Math_acos host_sample].
  apply sub_finite_not_nan; [reflexivity|].
  by apply (between_finite (-1) 1).
Qed.

(** Two hands one above the other, the right one below: the direction is
    -Y, antiparallel to the bar's own axis. *)
Definition upper_hand_sample : array :=
  [1; 0; 0; 0;  0; 1; 0; 0;  0; 0; 1; 0;  0; 1; 0; 1]%float.
Definition lower_hand_sample : array :=
  [1; 0; 0; 0;  0; 1; 0; 0;  0; 0; 1; 0;  0; -1; 0; 1]%float.

Lemma barbell_rotation_is_never_NaN_witness :
  @hypot_covers_arguments host_sample /\ @acos_is_a_number host_sample /\
  @barbell_rotation host_sample
    (@Barbell.barbellFrame host_sample upper_hand_sample lower_hand_sample)
  = Some (Number.Math_PI, [1; 0; 0]%float).
Proof.
  split; [exact host_sample_hypot_covers|].
  split; [exact host_sample_acos_is_a_number|].
  destruct (proj2 (@barbell_rotation_is_never_NaN gl_matrix_sample
                     host_sample upper_hand_sample lower_hand_sample
                     host_sample_hypot_covers host_sample_acos_is_a_number))
    as [(Hg & _)|[(_ & _ & E)|(_ & Hd & _)]].
  - vm_compute in Hg. discriminate Hg.
  - exact E.
  - vm_compute in Hd. discriminate Hd.
Defined.
